(** * vclock: a vector-clock simulation (vclock.py)

    Shallow embedding of the classes [VectorClock], [Message], [Event] and
    [Node] of vclock.py, and of the script at the end of the file that
    builds the queues and the nodes and starts them.

    Python objects that are mutated in place and may be reached through
    several references (the [clock] list of a [VectorClock]) live in an
    explicit store; references are store locations.  Python integers are
    [Z].  An uncaught exception is an explicit outcome carrying the store
    as it was when the exception was raised. *)

From stdpp Require Import base option list gmap strings.
From Stdlib Require Import ZArith Lia DecimalString DecimalZ DecimalPos.

Local Open Scope Z_scope.

(** ** Python lists in the store *)

Definition loc := nat.

(** The store maps the identity of a Python list object to its items. *)
Abbreviation Heap := (gmap loc (list Z)).

Definition deref (h : Heap) (l : loc) : list Z := default [] (h !! l).

Definition alloc (h : Heap) (v : list Z) : loc * Heap :=
  let l := fresh (dom h) in (l, <[l := v]> h).

Inductive PyExn := TypeError | IndexError.

(** [a[i]] for an [int] subscript: a negative subscript counts from the
    end of the sequence, anything outside [-len, len) is an [IndexError]. *)
Definition py_index (len : nat) (i : Z) : option nat :=
  if decide (0 ≤ i < Z.of_nat len) then Some (Z.to_nat i)
  else if decide (- Z.of_nat len ≤ i < 0) then Some (Z.to_nat (Z.of_nat len + i))
  else None.

(** Subscripting with a value that may be [None] ([TypeError]). *)
Definition py_subscript (len : nat) (i : option Z) : PyExn + nat :=
  match i with
  | None => inl TypeError
  | Some k => match py_index len k with
              | Some j => inr j
              | None => inl IndexError
              end
  end.

(** Outcome of a method that returns nothing: the store on normal return,
    or the exception raised and the store at that point. *)
Inductive Outcome :=
  | Returns (h : Heap)
  | Raises (e : PyExn) (h : Heap).

Definition heap_of (o : Outcome) : Heap :=
  match o with Returns h => h | Raises _ h => h end.

(** ** class VectorClock *)

Module VectorClock.

(** The fields [clock] and [id] are assigned in [__init__] only, so a
    [VectorClock] object is the pair of its list's location and its id;
    only the list is mutated. *)
Record t := mk { clock : loc; id : option Z }.

(** [__init__]: [self.clock = [0] * n; self.id = id]. *)
Definition init (h : Heap) (i : option Z) (n : nat) : t * Heap :=
  let '(l, h') := alloc h (replicate n 0) in (mk l i, h').

(** [inc]: [self.clock[self.id] += 1]. *)
Definition inc (h : Heap) (self : t) : Outcome :=
  let c := deref h (clock self) in
  match py_subscript (length c) (id self) with
  | inl e => Raises e h
  | inr j => match c !! j with
             | Some v => Returns (<[clock self := <[j := v + 1]> c]> h)
             | None => Raises IndexError h
             end
  end.

(** The [for] loop of [merge], over the indices still to visit:
    [self.clock[i] = max(self.clock[i], other.clock[i])]. *)
Fixpoint merge_loop (h : Heap) (self other : t) (idx : list nat) : Outcome :=
  match idx with
  | [] => Returns h
  | i :: idx' =>
      match deref h (clock self) !! i, deref h (clock other) !! i with
      | Some a, Some b =>
          merge_loop
            (<[clock self := <[i := Z.max a b]> (deref h (clock self))]> h)
            self other idx'
      | _, _ => Raises IndexError h
      end
  end.

(** [merge]: the loop over [range(0, len(self.clock))], then [self.inc()]. *)
Definition merge (h : Heap) (self other : t) : Outcome :=
  match merge_loop h self other (seq 0 (length (deref h (clock self)))) with
  | Returns h' => inc h' self
  | Raises e h' => Raises e h'
  end.

(** The [for] loop of [copy]: [new_clock.clock[i] = self.clock[i]].  The
    indices come from [range(0, len(self.clock))], so the read succeeds
    (lemma [copy_loop_spec]); the last branch is never taken. *)
Fixpoint copy_loop (h : Heap) (self new_clock : t) (idx : list nat) : Heap :=
  match idx with
  | [] => h
  | i :: idx' =>
      match deref h (clock self) !! i with
      | Some a =>
          copy_loop
            (<[clock new_clock := <[i := a]> (deref h (clock new_clock))]> h)
            self new_clock idx'
      | None => h
      end
  end.

(** [copy]: a new [VectorClock(None, len(self.clock))] filled item by item. *)
Definition copy (h : Heap) (self : t) : t * Heap :=
  let n := length (deref h (clock self)) in
  let '(new_clock, h1) := init h None n in
  (new_clock, copy_loop h1 self new_clock (seq 0 n)).

(** The items of the clock, as [stringify] renders them. *)
Definition values (h : Heap) (self : t) : list Z := deref h (clock self).

End VectorClock.

(** ** class Message, class Event *)

Module Message.
Record t := mk { event_id : Z; clock : VectorClock.t }.
End Message.

Module Event.
(** Fields not needed for the event type contain [None]. *)
Record t := mk {
  event_id : Z;
  type : string;
  receiver : option Z;
  dependency : option Z
}.
End Event.

(** ** The simulation state *)

(** What a node's thread is about to do. *)
Inductive Control :=
  | AtFor (rest : list Event.t)
      (** at [for ev in self.events], [rest] still to come *)
  | InGet (ev : Event.t) (rest : list Event.t)
      (** in [wait_on_dependency(ev)], at a [self.queues[self.id].get()] *)
  | Returned
      (** [run] returned *)
  | Exited
      (** [exit()] raised [SystemExit] in this thread, which ends the
          thread and no other *)
  | Uncaught (e : PyExn)
      (** the thread died on an exception *).

Module Node.
(** [queues] is the one list of queues shared by all nodes: it is a
    component of the simulation state below. *)
Record t := mk {
  id : Z;
  clock : VectorClock.t;
  events : list Event.t;
  buffer : list Z;
  control : Control
}.

Definition set_control (k : Control) (self : t) : t :=
  mk (id self) (clock self) (events self) (buffer self) k.

(** [buf_event_id]: [self.buffer.append(event_id)]. *)
Definition buf_event_id (self : t) (event_id : Z) : t :=
  mk (id self) (clock self) (events self) (buffer self ++ [event_id])
     (control self).

(** [list.index]: the first position of the item, [None] for [ValueError]. *)
Fixpoint index (l : list Z) (x : option Z) : option Z :=
  match l with
  | [] => None
  | y :: l' => if decide (Some y = x) then Some 0
               else (λ k, k + 1) <$> index l' x
  end.

(** [buffered]: [self.buffer.index(event_id) > -1], [False] on any
    exception. *)
Definition buffered (self : t) (event_id : option Z) : bool :=
  match index (buffer self) event_id with
  | Some k => bool_decide (k > -1)
  | None => false
  end.
End Node.

(** A line on standard output. *)
Inductive Line :=
  | LogLine (node event_id : Z) (clock : list Z)
      (** ["Node: .. Event: .. Clock: .."] *)
  | InvalidEvent
      (** ['invalid event'] *).

Record State := mkState {
  heap : Heap;
  queues : list (list Message.t);
  nodes : list Node.t;
  stdout : list Line
}.

(** ** Node.run, one atomic action at a time

    A thread's own computation touches only its node and its clock; the
    threads meet at the queues.  One step of a node is what it does up to
    and including its next queue operation (or the end of the current
    event).  The lines of different nodes may therefore appear on [stdout]
    in fewer orders than real threads allow; nothing below depends on the
    order of lines of different nodes. *)

Definition set_node (i : nat) (nd : Node.t) (s : State) : State :=
  mkState (heap s) (queues s) (<[i := nd]> (nodes s)) (stdout s).

Definition set_heap (h : Heap) (s : State) : State :=
  mkState h (queues s) (nodes s) (stdout s).

Definition set_queues (q : list (list Message.t)) (s : State) : State :=
  mkState (heap s) q (nodes s) (stdout s).

Definition print (l : Line) (s : State) : State :=
  mkState (heap s) (queues s) (nodes s) (stdout s ++ [l]).

(** [self.log(event_id)]. *)
Definition log (self : Node.t) (event_id : Z) (s : State) : State :=
  print (LogLine (Node.id self) event_id
           (VectorClock.values (heap s) (Node.clock self))) s.

(** A call of a [VectorClock] method from [run]: an exception is not
    caught and ends the thread. *)
Definition call (o : Outcome) (k : Control) (self : Node.t) (s : State)
  : Node.t * State :=
  match o with
  | Returns h => (Node.set_control k self, set_heap h s)
  | Raises e h => (Node.set_control (Uncaught e) self, set_heap h s)
  end.

(** [self.log(ev.event_id); self.clock.inc()], then back to the [for]. *)
Definition log_inc (self : Node.t) (ev : Event.t) (rest : list Event.t)
    (s : State) : Node.t * State :=
  let s1 := log self (Event.event_id ev) s in
  call (VectorClock.inc (heap s1) (Node.clock self)) (AtFor rest) self s1.

(** [queues[ev.receiver].put(Message(ev.event_id, self.clock.copy()))]:
    the subscript is evaluated first, then the copy is made.  [run] reads
    the global [queues], the list that every node also holds as
    [self.queues]. *)
Definition send (self : Node.t) (ev : Event.t) (s : State)
  : PyExn + State :=
  match py_subscript (length (queues s)) (Event.receiver ev) with
  | inl e => inl e
  | inr j =>
      let '(c, h) := VectorClock.copy (heap s) (Node.clock self) in
      let m := Message.mk (Event.event_id ev) c in
      inr (set_queues (alter (λ q, q ++ [m]) j (queues s)) (set_heap h s))
  end.

(** The body of the [for] loop of [run] for the event [ev]. *)
Definition run_event (self : Node.t) (ev : Event.t) (rest : list Event.t)
    (s : State) : Node.t * State :=
  if decide (Event.type ev = "i") then
    log_inc self ev rest s
  else if decide (Event.type ev = "r") then
    (* wait_on_dependency: [if not self.buffered(event.dependency)] *)
    if Node.buffered self (Event.dependency ev) then log_inc self ev rest s
    else (Node.set_control (InGet ev rest) self, s)
  else if decide (Event.type ev = "s") then
    match send self ev s with
    | inl e => (Node.set_control (Uncaught e) self, s)
    | inr s1 => log_inc self ev rest s1
    end
  else
    (Node.set_control Exited self, print InvalidEvent s).

(** [msg = self.queues[self.id].get(); self.clock.merge(msg.clock)] with
    [msg] at the head of the queue, then the test of the [while]:
    another round after [buf_event_id], or the return to [run]. *)
Definition receive (self : Node.t) (ev : Event.t) (rest : list Event.t)
    (j : nat) (msg : Message.t) (s : State) : Node.t * State :=
  let s1 := set_queues (alter (drop 1) j (queues s)) s in
  match VectorClock.merge (heap s1) (Node.clock self) (Message.clock msg) with
  | Raises e h => (Node.set_control (Uncaught e) self, set_heap h s1)
  | Returns h =>
      let s2 := set_heap h s1 in
      if decide (Some (Message.event_id msg) ≠ Event.dependency ev) then
        (Node.buf_event_id self (Message.event_id msg), s2)
      else log_inc self ev rest s2
  end.

(** One step of the thread of [nodes[i]]; [None] when it cannot move: it
    has ended, or it is blocked in [get] on an empty queue. *)
Definition step (i : nat) (s : State) : option State :=
  self ← nodes s !! i;
  match Node.control self with
  | AtFor [] => Some (set_node i (Node.set_control Returned self) s)
  | AtFor (ev :: rest) =>
      let '(self', s') := run_event self ev rest s in
      Some (set_node i self' s')
  | InGet ev rest =>
      match py_index (length (queues s)) (Node.id self) with
      | None =>
          Some (set_node i (Node.set_control (Uncaught IndexError) self) s)
      | Some j =>
          match queues s !! j with
          | Some (msg :: _) =>
              let '(self', s') := receive self ev rest j msg s in
              Some (set_node i self' s')
          | _ => None
          end
      end
  | Returned | Exited | Uncaught _ => None
  end.

(** ** The script at the end of the file *)

(** [nodes.append(Node(i, VectorClock(i, n), fr.events(i), queues))] for
    the [i] of [ids]; [script i] is what [fr.events(i)] returns. *)
Fixpoint make_nodes (n : nat) (script : nat → list Event.t) (ids : list nat)
    (h : Heap) : list Node.t * Heap :=
  match ids with
  | [] => ([], h)
  | i :: ids' =>
      let '(c, h1) := VectorClock.init h (Some (Z.of_nat i)) n in
      let nd := Node.mk (Z.of_nat i) c (script i) [] (AtFor (script i)) in
      let '(nds, h2) := make_nodes n script ids' h1 in
      (nd :: nds, h2)
  end.

(** The state once every node has been started: [n] empty queues and the
    [n] nodes, each at the start of its [run]. *)
Definition main (n : nat) (script : nat → list Event.t) : State :=
  let '(nds, h) := make_nodes n script (seq 0 n) ∅ in
  mkState h (replicate n []) nds [].

(** Executions: any node that can move may move next. *)
Inductive steps (s : State) : State → Prop :=
  | steps_refl : steps s s
  | steps_step i s1 s2 : steps s s1 → step i s1 = Some s2 → steps s s2.

(** No thread is left alive and unblocked. *)
Definition quiescent (s : State) : Prop := ∀ i, step i s = None.

(** Every thread has ended. *)
Definition all_ended (s : State) : Prop :=
  Forall (λ nd, match Node.control nd with
                | AtFor _ | InGet _ _ => False
                | _ => True
                end) (nodes s).

Definition clock_of (i : nat) (s : State) : option (list Z) :=
  (λ nd, VectorClock.values (heap s) (Node.clock nd)) <$> nodes s !! i.

(** Run the nodes in the order of [sched], skipping a node that cannot move. *)
Fixpoint run_sched (sched : list nat) (s : State) : State :=
  match sched with
  | [] => s
  | i :: sched' => run_sched sched' (default s (step i s))
  end.

Definition Send (e r : Z) : Event.t := Event.mk e "s" (Some r) None.
Definition Receive (e d : Z) : Event.t := Event.mk e "r" None (Some d).
Definition Independent (e : Z) : Event.t := Event.mk e "i" None None.

Definition scenario1 (i : nat) : list Event.t :=
  match i with
  | O => [Send 1 1]
  | S O => [Receive 2 1]
  | _ => []
  end.

(** ** Notions used in the statements *)

(** Pointwise order on clocks of the same length. *)
Definition vc_le (a b : list Z) : Prop := Forall2 Z.le a b.

(** The list that the loop of [merge] leaves in [self] once it has
    visited the first [k] slots. *)
Definition merged_upto (k : nat) (ls lo : list Z) : list Z :=
  take k ls ++ zip_with Z.max (drop k ls) (drop k lo).

Definition node_loc (nd : Node.t) : loc := VectorClock.clock (Node.clock nd).
Definition msg_loc (m : Message.t) : loc := VectorClock.clock (Message.clock m).

(** The states of a simulation of [n] nodes built by [main]: node [i] has
    id [i] and owns a clock of [n] slots; the nodes' clocks are distinct
    lists; a queued message carries a list of [n] slots that is no node's
    clock. *)
Record wf (n : nat) (s : State) : Prop := mk_wf {
  wf_queues : length (queues s) = n;
  wf_nodes : length (nodes s) = n;
  wf_id : ∀ i nd, nodes s !! i = Some nd →
    Node.id nd = Z.of_nat i ∧
    VectorClock.id (Node.clock nd) = Some (Z.of_nat i);
  wf_clock : ∀ i nd, nodes s !! i = Some nd →
    ∃ c, heap s !! node_loc nd = Some c ∧ length c = n;
  wf_sep : ∀ i j ni nj, nodes s !! i = Some ni → nodes s !! j = Some nj →
    node_loc ni = node_loc nj → i = j;
  wf_msg : ∀ j q m, queues s !! j = Some q → m ∈ q →
    ∃ c, heap s !! msg_loc m = Some c ∧ length c = n;
  wf_msg_sep : ∀ j q m i nd, queues s !! j = Some q → m ∈ q →
    nodes s !! i = Some nd → node_loc nd ≠ msg_loc m
}.

(** The store after some steps of the node whose clock is at [L]: every
    list is still there, the others are as they were, and the clock at
    [L] has not gone down in any slot. *)
Definition heap_evolves (L : loc) (h h' : Heap) : Prop :=
  ∀ l c, h !! l = Some c →
    ∃ c', h' !! l = Some c' ∧ (l ≠ L → c' = c) ∧ vc_le c c'.

(** The message that [step i s] takes from the queue, if it takes one. *)
Definition gets (i : nat) (s : State) : option Message.t :=
  self ← nodes s !! i;
  match Node.control self with
  | InGet _ _ =>
      j ← py_index (length (queues s)) (Node.id self);
      q ← queues s !! j;
      head q
  | _ => None
  end.

(** The message that [step i s] puts on a queue, if it puts one, with the
    items of the sender's clock at that moment. *)
Definition sends (i : nat) (s : State) : option (Message.t * list Z) :=
  self ← nodes s !! i;
  match Node.control self with
  | AtFor (ev :: _) =>
      if decide (Event.type ev = "s") then
        match send self ev s with
        | inr _ =>
            Some (Message.mk (Event.event_id ev)
                    (VectorClock.copy (heap s) (Node.clock self)).1,
                  VectorClock.values (heap s) (Node.clock self))
        | inl _ => None
        end
      else None
  | _ => None
  end.

(** What a step does at the queues. *)
Inductive Action :=
  | Sent (sender : nat) (m : Message.t) (snapshot : list Z)
      (** node [sender] enqueued [m]; its clock was [snapshot] *)
  | Got (receiver : nat) (m : Message.t)
      (** node [receiver] dequeued [m] *).

Definition actions (i : nat) (s : State) : list Action :=
  from_option (λ ms, [Sent i ms.1 ms.2]) [] (sends i s) ++
  from_option (λ m, [Got i m]) [] (gets i s).

(** Executions with the record of the queue operations, oldest first. *)
Inductive run (s : State) : list Action → State → Prop :=
  | run_nil : run s [] s
  | run_step hist s1 i s2 :
      run s hist s1 → step i s1 = Some s2 →
      run s (hist ++ actions i s1) s2.

(** What holds of the record [hist] of a run that has reached [s]: a
    message that was sent still holds the snapshot, in a list that is no
    node's clock; a queued message was sent; a message that was dequeued
    was sent, and the clock of the node that dequeued it is at or above
    its snapshot; an id in a buffer is the id of a message that the node
    dequeued. *)
Record recorded (hist : list Action) (s : State) : Prop := mk_recorded {
  rec_sent : ∀ S m snap, Sent S m snap ∈ hist →
    heap s !! msg_loc m = Some snap ∧
    ∀ k nd, nodes s !! k = Some nd → node_loc nd ≠ msg_loc m;
  rec_queued : ∀ k q m, queues s !! k = Some q → m ∈ q →
    ∃ S snap, Sent S m snap ∈ hist;
  rec_got : ∀ i m, Got i m ∈ hist →
    (∃ S snap, Sent S m snap ∈ hist) ∧
    ∃ nd c cm, nodes s !! i = Some nd ∧
      heap s !! node_loc nd = Some c ∧ heap s !! msg_loc m = Some cm ∧
      vc_le cm c;
  rec_buffer : ∀ i nd d, nodes s !! i = Some nd → d ∈ Node.buffer nd →
    ∃ m, Got i m ∈ hist ∧ Message.event_id m = d
}.

Definition control_of (i : nat) (s : State) : option Control :=
  Node.control <$> nodes s !! i.

Definition buffer_of (i : nat) (s : State) : option (list Z) :=
  Node.buffer <$> nodes s !! i.

(** The slot of node [i] in its own clock, [self.clock.clock[self.id]]. *)
Definition own_slot (i : nat) (s : State) : option Z :=
  self ← nodes s !! i;
  let c := VectorClock.values (heap s) (Node.clock self) in
  k ← VectorClock.id (Node.clock self);
  j ← py_index (length c) k;
  c !! j.

(** Node [i] took event [ev] from its script in state [s], and [s'] is a
    later state in which it is still inside that event or has just left
    it; the other nodes may have moved in between. *)
Inductive executing (i : nat) (ev : Event.t) (rest : list Event.t)
    (s : State) : State → Prop :=
  | executing_first s' :
      control_of i s = Some (AtFor (ev :: rest)) →
      step i s = Some s' → executing i ev rest s s'
  | executing_more s1 j s2 :
      executing i ev rest s s1 →
      control_of i s1 = Some (InGet ev rest) →
      step j s1 = Some s2 → executing i ev rest s s2.

(** Node [i] executed event [ev] from state [s] to state [s']: it took
    [ev] in [s] and is back at the [for] in [s']. *)
Definition executed (i : nat) (ev : Event.t) (rest : list Event.t)
    (s s' : State) : Prop :=
  executing i ev rest s s' ∧ control_of i s' = Some (AtFor rest).

(** What the thread of [nd] has done to the state since [s], its own
    node record apart (that one is written back when the step ends). *)
Definition frame (n : nat) (nd : Node.t) (s s1 : State) : Prop :=
  wf n s1 ∧ nodes s1 = nodes s ∧
  heap_evolves (node_loc nd) (heap s) (heap s1).

(** ** Scripts used in the examples *)

(** Node 0 sends e1 then e3 to node 1; node 1 waits for e3 first, then
    names e1 in two receive events. *)
Definition scenario2 (i : nat) : list Event.t :=
  match i with
  | O => [Send 1 1; Send 3 1]
  | S O => [Receive 2 3; Receive 4 1; Receive 5 1]
  | _ => []
  end.

(** Node 0 sends two messages with the event id 1, then e3, to node 1,
    which waits for e3. *)
Definition scenario3 (i : nat) : list Event.t :=
  match i with
  | O => [Send 1 1; Send 1 1; Send 3 1]
  | S O => [Receive 2 3]
  | _ => []
  end.

(** ** Later mutations of a clock *)

(** A call of one of the two mutating methods on a clock. *)
Inductive ClockOp :=
  | OpInc
  | OpMerge (other : VectorClock.t).

(** The store after the call, also when it raised. *)
Definition apply_op (self : VectorClock.t) (h : Heap) (op : ClockOp) : Heap :=
  match op with
  | OpInc => heap_of (VectorClock.inc h self)
  | OpMerge other => heap_of (VectorClock.merge h self other)
  end.

Definition apply_ops (self : VectorClock.t) (h : Heap) (ops : list ClockOp)
  : Heap :=
  foldl (apply_op self) h ops.

(** One node that sends to itself. *)
Definition scenario4 (i : nat) : list Event.t :=
  match i with
  | O => [Send 1 0]
  | _ => []
  end.

(** Node 0 has an event of an unknown type, node 1 an independent event. *)
Definition scenario5 (i : nat) : list Event.t :=
  match i with
  | O => [Event.mk 1 "x" None None]
  | S O => [Independent 2]
  | _ => []
  end.

(** The states of the runs of [scenario1]: how far node 0 and node 1 have
    got; node 1 can leave [get] only after node 0 has sent. *)
Definition reach1 : list State :=
  (λ sched, run_sched sched (main 2 scenario1)) <$>
    [ []; [1]; [0]; [0; 1]; [0; 0]; [0; 0; 1]; [0; 1; 1]; [0; 1; 1; 1];
      [0; 0; 1; 1]; [0; 0; 1; 1; 1] ]%nat.

(** Node 0 sends to a node that does not exist. *)
Definition scenario6 (i : nat) : list Event.t :=
  match i with
  | O => [Send 1 5]
  | _ => []
  end.

(** ** The log of one node *)

(** The event ids on the log lines of node [i], in the order printed. *)
Fixpoint logged (i : Z) (out : list Line) : list Z :=
  match out with
  | [] => []
  | LogLine node e _ :: out' =>
      if decide (node = i) then e :: logged i out' else logged i out'
  | InvalidEvent :: out' => logged i out'
  end.

(** The log lines of node [i], in the order printed. *)
Fixpoint lines_of (i : Z) (out : list Line) : list Line :=
  match out with
  | [] => []
  | LogLine node e c :: out' =>
      if decide (node = i) then LogLine node e c :: lines_of i out'
      else lines_of i out'
  | InvalidEvent :: out' => lines_of i out'
  end.

(** The events a thread has still to log: the rest of the script, with
    the event it is in; nothing is known of a thread that was cut short. *)
Definition todo (k : Control) : option (list Event.t) :=
  match k with
  | AtFor rest => Some rest
  | InGet ev rest => Some (ev :: rest)
  | Returned => Some []
  | Exited | Uncaught _ => None
  end.

(** ** What the clocks know *)

(** No list in the store holds in slot [i] more than node [i] holds in
    its own slot: nobody knows of more events of node [i] than node [i]
    has counted. *)
Definition knows_no_more (h : Heap) (nds : list Node.t) : Prop :=
  ∀ l c i nd ci x y, h !! l = Some c → nds !! i = Some nd →
    h !! node_loc nd = Some ci → c !! i = Some x → ci !! i = Some y → x ≤ y.

(** ** The traffic on one queue *)

(** The queue that [step i s] appends to, if it sends. *)
Definition send_target (i : nat) (s : State) : option nat :=
  self ← nodes s !! i;
  match Node.control self with
  | AtFor (ev :: _) =>
      if decide (Event.type ev = "s") then
        match py_subscript (length (queues s)) (Event.receiver ev) with
        | inr r => Some r
        | inl _ => None
        end
      else None
  | _ => None
  end.

(** The messages put on queue [k] while the nodes run in the order of
    [sched] from [s], oldest first. *)
Fixpoint enqueued (k : nat) (sched : list nat) (s : State)
  : list Message.t :=
  match sched with
  | [] => []
  | i :: sched' =>
      match step i s with
      | Some s' =>
          (if decide (send_target i s = Some k)
           then from_option (λ ms, [ms.1]) [] (sends i s) else [])
          ++ enqueued k sched' s'
      | None => enqueued k sched' s
      end
  end.

(** The messages that node [k] takes from its queue during that run,
    oldest first. *)
Fixpoint dequeued (k : nat) (sched : list nat) (s : State)
  : list Message.t :=
  match sched with
  | [] => []
  | i :: sched' =>
      match step i s with
      | Some s' =>
          (if decide (i = k)
           then from_option (λ m, [m]) [] (gets i s) else [])
          ++ dequeued k sched' s'
      | None => dequeued k sched' s
      end
  end.

(** ** class FileReader

    [csv.reader] hands the file over as rows, each row a list of strings;
    the rows are the input here, and opening the file is left out.  [int]
    stands for Python's conversion of a string to an integer, [None] where
    it raises [ValueError].  The methods are called from the main thread,
    where [exit()] ends the program. *)

Inductive ReadExn := ReadIndexError | ReadValueError | ReadStopIteration.

(** What a call does: it returns a value, or prints a message and calls
    [exit()], or raises. *)
Inductive Read (A : Type) :=
  | Value (a : A)
  | SysExit
  | Fails (e : ReadExn).

Arguments Value {A} a.
Arguments SysExit {A}.
Arguments Fails {A} e.

Definition read_bind {A B : Type} (m : Read A) (k : A → Read B) : Read B :=
  match m with
  | Value a => k a
  | SysExit => SysExit
  | Fails e => Fails e
  end.

Module FileReader.

(** [validate]: [true] when it returns, [false] when it prints
    ["Exiting: Malformed input file"] and exits. *)
Definition validate (line : list string) (k : nat) : bool :=
  bool_decide (k ≤ length line)%nat.

(** [int(line[k])]. *)
Definition int_field (int : string → option Z) (line : list string) (k : nat)
  : Read Z :=
  match line !! k with
  | None => Fails ReadIndexError
  | Some f =>
      match int f with
      | Some z => Value z
      | None => Fails ReadValueError
      end
  end.

(** The branch of [events] for a row inside the node's section whose
    first field [f0] is not ['#']: the events it appends. *)
Definition section_row (int : string → option Z) (line : list string)
    (f0 : string) : Read (list Event.t) :=
  if decide (f0 = "i") then
    if validate line 2 then
      read_bind (int_field int line 1) (λ e,
      Value [Event.mk e "i" None None])
    else SysExit
  else if decide (f0 = "s") then
    if validate line 3 then
      read_bind (int_field int line 1) (λ e,
      read_bind (int_field int line 2) (λ r,
      Value [Event.mk e "s" (Some r) None]))
    else SysExit
  else if decide (f0 = "r") then
    if validate line 3 then
      read_bind (int_field int line 1) (λ e,
      read_bind (int_field int line 2) (λ d,
      Value [Event.mk e "r" None (Some d)]))
    else SysExit
  else Value [].

(** The [for line in csvr] loop of [events], with the variables [found]
    and [events]. *)
Fixpoint events_loop (int : string → option Z) (id : Z)
    (rows : list (list string)) (found : bool) (events : list Event.t)
  : Read (list Event.t) :=
  match rows with
  | [] => Value events
  | line :: rows' =>
      match line !! 0%nat with
      | None => Fails ReadIndexError
      | Some f0 =>
          if negb found then
            if decide (f0 = "#") then
              read_bind (int_field int line 1) (λ k,
              events_loop int id rows' (bool_decide (k = id)) events)
            else events_loop int id rows' false events
          else if decide (f0 ≠ "#") then
            read_bind (section_row int line f0) (λ new,
            events_loop int id rows' true (events ++ new))
          else Value events
      end
  end.

(** [events(id)]. *)
Definition events (int : string → option Z) (rows : list (list string))
    (id : Z) : Read (list Event.t) :=
  events_loop int id rows false [].

(** [nodes()]: the first row is taken with [__next__]. *)
Definition nodes (int : string → option Z) (rows : list (list string))
  : Read Z :=
  match rows with
  | [] => Fails ReadStopIteration
  | n :: _ =>
      match n !! 0%nat with
      | None => Fails ReadIndexError
      | Some f0 =>
          if decide (f0 = "n") then
            if validate n 2 then int_field int n 1 else SysExit
          else SysExit
      end
  end.

End FileReader.

(** [fr.events(i)] for the [i] of [range(0, n)], in that order. *)
Fixpoint read_scripts (int : string → option Z) (rows : list (list string))
    (ids : list nat) : Read (list (list Event.t)) :=
  match ids with
  | [] => Value []
  | i :: ids' =>
      read_bind (FileReader.events int rows (Z.of_nat i)) (λ evs,
      read_bind (read_scripts int rows ids') (λ rest,
      Value (evs :: rest)))
  end.

(** The script at the end of the file, from the rows of the input file
    to the state in which the nodes are started. *)
Definition program (int : string → option Z) (rows : list (list string))
  : Read State :=
  read_bind (FileReader.nodes int rows) (λ n,
  read_bind (read_scripts int rows (seq 0 (Z.to_nat n))) (λ scripts,
  Value (main (Z.to_nat n) (λ i, default [] (scripts !! i))))).

(** The events that [FileReader.events] builds. *)
Definition event_ok (ev : Event.t) : Prop :=
  (Event.type ev = "i" ∧ Event.receiver ev = None ∧
   Event.dependency ev = None) ∨
  (Event.type ev = "s" ∧ is_Some (Event.receiver ev) ∧
   Event.dependency ev = None) ∨
  (Event.type ev = "r" ∧ Event.receiver ev = None ∧
   is_Some (Event.dependency ev)).

(** The row of the input file for an event, as the comment above
    [FileReader] gives the format: [i,X], [s,X,Y], [r,X,Y]. *)
Definition row_of (show : Z → string) (ev : Event.t) : list string :=
  [Event.type ev; show (Event.event_id ev)] ++
  match Event.receiver ev, Event.dependency ev with
  | Some r, _ => [show r]
  | None, Some d => [show d]
  | None, None => []
  end.

(** A row that [events(id)] passes over while it looks for its section:
    it has a first field, and if that is ['#'] the second is the number
    of another node. *)
Definition passed_over (int : string → option Z) (id : Z)
    (line : list string) : Prop :=
  ∃ f0, line !! 0%nat = Some f0 ∧
    (f0 = "#" → ∃ f1 k, line !! 1%nat = Some f1 ∧ int f1 = Some k ∧ k ≠ id).

(** Plain decimal numerals, for the examples. *)
Definition dec_int (s : string) : option Z :=
  Z.of_int <$> NilZero.int_of_string s.

Definition dec_show (z : Z) : string :=
  NilZero.string_of_int (Z.to_int z).

Definition sample_rows : list (list string) :=
  [ ["n"; "2"];
    ["#"; "0"]; ["s"; "1"; "1"]; ["x"; "9"]; ["s"; "3"; "1"];
    ["#"; "1"]; ["r"; "2"; "3"]; ["r"; "4"; "1"]; ["i"; "5"] ].

(** * Properties *)

(** ** Sample runs *)

Example ex_copy :
  let '(c, h) := VectorClock.init ∅ (Some 0) 2 in
  let h1 := heap_of (VectorClock.inc h c) in
  let '(c', h2) := VectorClock.copy h1 c in
  let h3 := heap_of (VectorClock.merge h2 c c') in
  (VectorClock.values h3 c, VectorClock.values h3 c', VectorClock.id c')
  = ([2; 0], [1; 0], None).
Proof. vm_compute. reflexivity. Qed.

Example ex_scenario1 :
  let s := run_sched [0; 1; 1; 0; 1; 1]%nat (main 2 scenario1) in
  (clock_of 0 s, clock_of 1 s, stdout s)
  = (Some [1; 0], Some [0; 2],
     [LogLine 0 1 [0; 0]; LogLine 1 2 [0; 1]]).
Proof. vm_compute. reflexivity. Qed.

(** ** Subscripts *)

Lemma py_index_lt len k j : py_index len k = Some j → (j < len)%nat.
Proof.
  unfold py_index. repeat case_decide; intros [= <-]; lia.
Qed.

Lemma py_index_nat len (i : nat) :
  (i < len)%nat → py_index len (Z.of_nat i) = Some i.
Proof.
  intros Hi. unfold py_index. rewrite decide_True by lia.
  by rewrite Nat2Z.id.
Qed.

(** ** The store *)

Lemma deref_Some (h : Heap) l c : h !! l = Some c → deref h l = c.
Proof. unfold deref. by intros ->. Qed.

Lemma alloc_fresh (h : Heap) v l h' :
  alloc h v = (l, h') → h !! l = None ∧ h' = <[l := v]> h.
Proof.
  unfold alloc. intros [= <- <-]. split; [|done].
  apply not_elem_of_dom, is_fresh.
Qed.

Lemma vc_le_refl a : vc_le a a.
Proof. induction a; constructor; [lia | done]. Qed.

Lemma vc_le_trans a b c : vc_le a b → vc_le b c → vc_le a c.
Proof.
  intros Hab. revert c.
  induction Hab as [|x y a b Hxy Hab IH]; intros c Hbc.
  - inversion Hbc. constructor.
  - inversion Hbc as [|y' z b' c' Hyz Hbc']; subst.
    constructor; [lia | by apply IH].
Qed.

Lemma vc_le_length a b : vc_le a b → length a = length b.
Proof. apply Forall2_length. Qed.

Lemma vc_le_lookup a b i x y :
  vc_le a b → a !! i = Some x → b !! i = Some y → x ≤ y.
Proof. intros H Ha Hb. exact (Forall2_lookup_lr _ _ _ _ _ _ H Ha Hb). Qed.

Lemma vc_le_insert a i x y :
  a !! i = Some x → x ≤ y → vc_le a (<[i := y]> a).
Proof.
  revert i. induction a as [|z a IH]; intros [|i] Hi Hxy; simplify_eq/=.
  - constructor; [done | apply vc_le_refl].
  - constructor; [lia | by apply IH].
Qed.

Lemma vc_le_max_l a b :
  (length a ≤ length b)%nat → vc_le a (zip_with Z.max a b).
Proof.
  revert b. induction a as [|x a IH]; intros [|y b] Hl; simpl in *;
    try constructor; try lia. apply IH. lia.
Qed.

Lemma vc_le_max_r a b :
  length a = length b → vc_le b (zip_with Z.max a b).
Proof.
  revert b. induction a as [|x a IH]; intros [|y b] Hl; simplify_eq/=;
    constructor; [lia | by apply IH].
Qed.

(** ** VectorClock methods on an allocated clock *)

Lemma inc_spec (h : Heap) (c : VectorClock.t) l k j :
  h !! VectorClock.clock c = Some l →
  VectorClock.id c = Some k →
  py_index (length l) k = Some j →
  ∃ v, l !! j = Some v ∧
       VectorClock.inc h c
       = Returns (<[VectorClock.clock c := <[j := v + 1]> l]> h).
Proof.
  intros Hl Hid Hj. unfold VectorClock.inc.
  rewrite (deref_Some _ _ _ Hl), Hid. simpl. rewrite Hj.
  destruct (lookup_lt_is_Some_2 l j (py_index_lt _ _ _ Hj)) as [v Hv].
  exists v. by rewrite Hv.
Qed.

Lemma merged_upto_step k ls lo a b :
  ls !! k = Some a → lo !! k = Some b →
  merged_upto (S k) (<[k := Z.max a b]> ls) lo = merged_upto k ls lo.
Proof.
  intros Ha Hb. unfold merged_upto.
  pose proof (lookup_lt_Some _ _ _ Ha) as Hk.
  rewrite (take_S_r _ _ (Z.max a b))
    by (by rewrite list_lookup_insert_eq).
  rewrite take_insert_ge by lia.
  rewrite drop_insert_lt by lia.
  rewrite (drop_S ls a k Ha), (drop_S lo b k Hb). simpl.
  by rewrite <- app_assoc.
Qed.

Lemma merge_loop_spec (self other : VectorClock.t) (lo : list Z) m :
  ∀ k (h : Heap) ls,
    VectorClock.clock self ≠ VectorClock.clock other →
    h !! VectorClock.clock self = Some ls →
    h !! VectorClock.clock other = Some lo →
    (k + m = length ls)%nat → (length ls ≤ length lo)%nat →
    VectorClock.merge_loop h self other (seq k m)
    = Returns (<[VectorClock.clock self := merged_upto k ls lo]> h).
Proof.
  induction m as [|m IH]; intros k h ls Hne Hs Ho Hkm Hlen; simpl.
  - unfold merged_upto. rewrite take_ge, drop_ge by lia. simpl.
    rewrite app_nil_r. by rewrite insert_id.
  - rewrite (deref_Some _ _ _ Hs), (deref_Some _ _ _ Ho).
    destruct (lookup_lt_is_Some_2 ls k) as [a Ha]; [lia|].
    destruct (lookup_lt_is_Some_2 lo k) as [b Hb]; [lia|].
    rewrite Ha, Hb.
    rewrite (IH (S k) _ (<[k := Z.max a b]> ls)); try done.
    + by rewrite insert_insert_eq, merged_upto_step.
    + by rewrite lookup_insert_eq.
    + by rewrite lookup_insert_ne.
    + rewrite length_insert. lia.
    + by rewrite length_insert.
Qed.

Lemma merge_spec (h : Heap) (self other : VectorClock.t) ls lo k j :
  VectorClock.clock self ≠ VectorClock.clock other →
  h !! VectorClock.clock self = Some ls →
  h !! VectorClock.clock other = Some lo →
  length ls = length lo →
  VectorClock.id self = Some k →
  py_index (length ls) k = Some j →
  ∃ v, zip_with Z.max ls lo !! j = Some v ∧
       VectorClock.merge h self other
       = Returns (<[VectorClock.clock self :=
                      <[j := v + 1]> (zip_with Z.max ls lo)]> h).
Proof.
  intros Hne Hs Ho Hlen Hid Hj. unfold VectorClock.merge.
  rewrite (deref_Some _ _ _ Hs).
  rewrite (merge_loop_spec self other lo _ 0%nat h ls) by (done || lia).
  unfold merged_upto. rewrite take_0, !drop_0. simpl.
  destruct (inc_spec (<[VectorClock.clock self := zip_with Z.max ls lo]> h)
              self (zip_with Z.max ls lo) k j) as (v & Hv & ->); try done.
  - by rewrite lookup_insert_eq.
  - by rewrite length_zip_with, <- Hlen, Nat.min_id.
  - exists v. by rewrite insert_insert_eq.
Qed.

Lemma copy_loop_spec (self new_clock : VectorClock.t) (l : list Z) m :
  ∀ k (h : Heap) cur,
    VectorClock.clock self ≠ VectorClock.clock new_clock →
    h !! VectorClock.clock self = Some l →
    h !! VectorClock.clock new_clock = Some cur →
    (k + m = length l)%nat → length cur = length l →
    VectorClock.copy_loop h self new_clock (seq k m)
    = <[VectorClock.clock new_clock := take k cur ++ drop k l]> h.
Proof.
  induction m as [|m IH]; intros k h cur Hne Hs Hn Hkm Hlen; simpl.
  - rewrite take_ge, drop_ge by lia. rewrite app_nil_r. by rewrite insert_id.
  - rewrite (deref_Some _ _ _ Hs), (deref_Some _ _ _ Hn).
    destruct (lookup_lt_is_Some_2 l k) as [a Ha]; [lia|].
    rewrite Ha.
    rewrite (IH (S k) _ (<[k := a]> cur)); try done.
    + rewrite insert_insert_eq. f_equal.
      rewrite (take_S_r _ _ a) by (rewrite list_lookup_insert_eq; [done|lia]).
      rewrite take_insert_ge by lia.
      rewrite (drop_S l a k Ha). by rewrite <- app_assoc.
    + by rewrite lookup_insert_ne.
    + by rewrite lookup_insert_eq.
    + lia.
    + by rewrite length_insert.
Qed.

Lemma copy_spec (h : Heap) (self : VectorClock.t) l :
  h !! VectorClock.clock self = Some l →
  ∃ l', h !! l' = None ∧
        VectorClock.copy h self = (VectorClock.mk l' None, <[l' := l]> h).
Proof.
  intros Hs. unfold VectorClock.copy, VectorClock.init.
  rewrite (deref_Some _ _ _ Hs).
  destruct (alloc h (replicate (length l) 0)) as [l' h1] eqn:Ha.
  apply alloc_fresh in Ha as [Hfresh ->].
  exists l'. split; [done|]. f_equal.
  rewrite (copy_loop_spec self _ l _ 0%nat _ (replicate (length l) 0)); simpl.
  - by rewrite drop_0, insert_insert_eq.
  - intros Heq. simpl in Heq. congruence.
  - rewrite lookup_insert_ne; [done|]. intros Heq. congruence.
  - by rewrite lookup_insert_eq.
  - done.
  - by rewrite length_replicate.
Qed.

(** ** Well-formed states *)

Section wf_node.
Context (n : nat) (s : State) (i : nat) (nd : Node.t).
Hypothesis Hwf : wf n s.
Hypothesis Hnd : nodes s !! i = Some nd.

Lemma wf_lt : (i < n)%nat.
Proof. rewrite <- (wf_nodes n s Hwf). by eapply lookup_lt_Some. Qed.

Lemma wf_inc :
  ∃ c v, heap s !! node_loc nd = Some c ∧ length c = n ∧ c !! i = Some v ∧
    VectorClock.inc (heap s) (Node.clock nd)
    = Returns (<[node_loc nd := <[i := v + 1]> c]> (heap s)).
Proof.
  destruct (wf_clock n s Hwf i nd Hnd) as (c & Hc & Hlen).
  destruct (wf_id n s Hwf i nd Hnd) as [_ Hid].
  destruct (inc_spec (heap s) (Node.clock nd) c (Z.of_nat i) i)
    as (v & Hv & Hinc); try done.
  { apply py_index_nat. rewrite Hlen. apply wf_lt. }
  by exists c, v.
Qed.

Lemma wf_merge j q m :
  queues s !! j = Some q → m ∈ q →
  ∃ c cm v, heap s !! node_loc nd = Some c ∧ heap s !! msg_loc m = Some cm ∧
    length c = n ∧ length cm = n ∧
    zip_with Z.max c cm !! i = Some v ∧
    VectorClock.merge (heap s) (Node.clock nd) (Message.clock m)
    = Returns (<[node_loc nd := <[i := v + 1]> (zip_with Z.max c cm)]> (heap s)).
Proof.
  intros Hq Hm.
  destruct (wf_clock n s Hwf i nd Hnd) as (c & Hc & Hlen).
  destruct (wf_msg n s Hwf j q m Hq Hm) as (cm & Hcm & Hlenm).
  destruct (wf_id n s Hwf i nd Hnd) as [_ Hid].
  destruct (merge_spec (heap s) (Node.clock nd) (Message.clock m) c cm
              (Z.of_nat i) i) as (v & Hv & Hmerge); try done.
  - exact (wf_msg_sep n s Hwf j q m i nd Hq Hm Hnd).
  - congruence.
  - apply py_index_nat. rewrite Hlen. apply wf_lt.
  - by exists c, cm, v.
Qed.

Lemma wf_own_queue : py_index (length (queues s)) (Node.id nd) = Some i.
Proof.
  destruct (wf_id n s Hwf i nd Hnd) as [-> _].
  apply py_index_nat. rewrite (wf_queues n s Hwf). apply wf_lt.
Qed.

Lemma wf_own_slot :
  ∃ c, heap s !! node_loc nd = Some c ∧ length c = n ∧ own_slot i s = c !! i.
Proof.
  destruct (wf_clock n s Hwf i nd Hnd) as (c & Hc & Hlen).
  destruct (wf_id n s Hwf i nd Hnd) as [_ Hid].
  exists c. repeat split; try done.
  unfold own_slot. rewrite Hnd. simpl. rewrite Hid. simpl.
  unfold VectorClock.values. fold (node_loc nd). rewrite (deref_Some _ _ _ Hc).
  rewrite py_index_nat; [done|]. rewrite Hlen. apply wf_lt.
Qed.

End wf_node.

Lemma heap_evolves_refl L (h : Heap) : heap_evolves L h h.
Proof. intros l c Hl. exists c. split_and!; [done.. | apply vc_le_refl]. Qed.

Lemma heap_evolves_trans L (h1 h2 h3 : Heap) :
  heap_evolves L h1 h2 → heap_evolves L h2 h3 → heap_evolves L h1 h3.
Proof.
  intros H12 H23 l c Hl.
  destruct (H12 l c Hl) as (c2 & Hl2 & Heq2 & Hle2).
  destruct (H23 l c2 Hl2) as (c3 & Hl3 & Heq3 & Hle3).
  exists c3. split_and!; [done | | by eapply vc_le_trans].
  intros Hne. rewrite Heq3, Heq2; done.
Qed.

Lemma heap_evolves_own L (h : Heap) c c' :
  h !! L = Some c → vc_le c c' → heap_evolves L h (<[L := c']> h).
Proof.
  intros HL Hle l d Hl. destruct (decide (l = L)) as [->|Hne].
  - exists c'. rewrite lookup_insert_eq. simplify_eq. done.
  - exists d. rewrite lookup_insert_ne by done.
    split_and!; [done.. | apply vc_le_refl].
Qed.

Lemma heap_evolves_alloc L (h : Heap) l v :
  h !! l = None → heap_evolves L h (<[l := v]> h).
Proof.
  intros Hfresh l' d Hl. exists d.
  rewrite lookup_insert_ne by congruence.
  split_and!; [done.. | apply vc_le_refl].
Qed.

Lemma wf_set_node n s i nd nd' :
  wf n s → nodes s !! i = Some nd →
  Node.id nd' = Node.id nd → Node.clock nd' = Node.clock nd →
  wf n (set_node i nd' s).
Proof.
  intros Hwf Hnd Hid Hclock.
  assert (Hlook : ∀ k x, (<[i := nd']> (nodes s)) !! k = Some x →
            ∃ y, nodes s !! k = Some y ∧ Node.id x = Node.id y ∧
                 Node.clock x = Node.clock y).
  { intros k x Hk. destruct (decide (i = k)) as [<-|Hne].
    - rewrite list_lookup_insert_eq in Hk by (by eapply lookup_lt_Some).
      simplify_eq. by exists nd.
    - rewrite list_lookup_insert_ne in Hk by done. by exists x. }
  constructor; simpl.
  - apply Hwf.
  - rewrite length_insert. apply Hwf.
  - intros k x Hk. destruct (Hlook k x Hk) as (y & Hy & -> & ->).
    by apply (wf_id n s Hwf).
  - intros k x Hk. destruct (Hlook k x Hk) as (y & Hy & _ & Hc).
    unfold node_loc. rewrite Hc. by apply (wf_clock n s Hwf k).
  - intros k j x y Hk Hj. destruct (Hlook k x Hk) as (x0 & Hx0 & _ & Hcx).
    destruct (Hlook j y Hj) as (y0 & Hy0 & _ & Hcy).
    unfold node_loc. rewrite Hcx, Hcy. by apply (wf_sep n s Hwf).
  - apply Hwf.
  - intros j q m k x Hq Hm Hk. destruct (Hlook k x Hk) as (y & Hy & _ & Hc).
    unfold node_loc. rewrite Hc. by apply (wf_msg_sep n s Hwf j q m k y).
Qed.

Lemma wf_print n s l : wf n s → wf n (print l s).
Proof. intros []. by constructor. Qed.

Lemma wf_set_heap_own n s i nd c :
  wf n s → nodes s !! i = Some nd → length c = n →
  wf n (set_heap (<[node_loc nd := c]> (heap s)) s).
Proof.
  intros Hwf Hnd Hlen. constructor; simpl; try apply Hwf.
  - intros k x Hk. destruct (decide (node_loc x = node_loc nd)) as [->|Hne].
    + exists c. by rewrite lookup_insert_eq.
    + rewrite lookup_insert_ne by done. by apply (wf_clock n s Hwf k).
  - intros j q m Hq Hm. rewrite lookup_insert_ne.
    + by apply (wf_msg n s Hwf j q).
    + by apply (wf_msg_sep n s Hwf j q m i nd).
Qed.

Lemma wf_dequeue n s j :
  wf n s → wf n (set_queues (alter (drop 1) j (queues s)) s).
Proof.
  intros Hwf.
  assert (Hlook : ∀ k q m, alter (drop 1) j (queues s) !! k = Some q →
            m ∈ q → ∃ q0, queues s !! k = Some q0 ∧ m ∈ q0).
  { intros k q m Hk Hm. destruct (decide (j = k)) as [<-|Hne].
    - rewrite list_lookup_alter_eq in Hk.
      destruct (queues s !! j) as [q0|] eqn:Hq0; simplify_eq/=.
      exists q0. split; [done|]. by eapply (subseteq_drop 1).
    - rewrite list_lookup_alter_ne in Hk by done. by exists q. }
  constructor; simpl; try apply Hwf.
  - rewrite length_alter. apply Hwf.
  - intros k q m Hk Hm. destruct (Hlook k q m Hk Hm) as (q0 & Hq0 & Hm0).
    by apply (wf_msg n s Hwf k q0).
  - intros k q m i nd Hk Hm Hnd.
    destruct (Hlook k q m Hk Hm) as (q0 & Hq0 & Hm0).
    by apply (wf_msg_sep n s Hwf k q0 m i nd).
Qed.

Lemma wf_enqueue_new n s j e l c :
  wf n s → heap s !! l = None → length c = n →
  wf n (set_queues
          (alter (λ q, q ++ [Message.mk e (VectorClock.mk l None)]) j (queues s))
          (set_heap (<[l := c]> (heap s)) s)).
Proof.
  intros Hwf Hfresh Hlen.
  set (msg := Message.mk e (VectorClock.mk l None)).
  assert (Hlook : ∀ k q m, alter (λ q, q ++ [msg]) j (queues s) !! k = Some q →
            m ∈ q → m = msg ∨ ∃ q0, queues s !! k = Some q0 ∧ m ∈ q0).
  { intros k q m Hk Hm. destruct (decide (j = k)) as [<-|Hne].
    - rewrite list_lookup_alter_eq in Hk.
      destruct (queues s !! j) as [q0|] eqn:Hq0; simplify_eq/=.
      apply elem_of_app in Hm as [Hm|Hm].
      + right. by exists q0.
      + left. by apply list_elem_of_singleton in Hm.
    - rewrite list_lookup_alter_ne in Hk by done. right. by exists q. }
  constructor; simpl; try apply Hwf.
  - rewrite length_alter. apply Hwf.
  - intros k x Hk. destruct (wf_clock n s Hwf k x Hk) as (d & Hd & Hdl).
    exists d. rewrite lookup_insert_ne by congruence. done.
  - intros k q m Hk Hm. destruct (Hlook k q m Hk Hm) as [->|(q0 & Hq0 & Hm0)].
    + exists c. by rewrite lookup_insert_eq.
    + destruct (wf_msg n s Hwf k q0 m Hq0 Hm0) as (d & Hd & Hdl).
      exists d. rewrite lookup_insert_ne by congruence. done.
  - intros k q m i nd Hk Hm Hnd.
    destruct (Hlook k q m Hk Hm) as [->|(q0 & Hq0 & Hm0)].
    + destruct (wf_clock n s Hwf i nd Hnd) as (d & Hd & _).
      simpl. unfold msg_loc. simpl. congruence.
    + by apply (wf_msg_sep n s Hwf k q0 m i nd).
Qed.

(** ** The pieces of a step in a well-formed state *)

Lemma log_inc_wf n s i nd ev rest :
  wf n s → nodes s !! i = Some nd →
  ∃ c v, heap s !! node_loc nd = Some c ∧ length c = n ∧ c !! i = Some v ∧
    log_inc nd ev rest s
    = (Node.set_control (AtFor rest) nd,
       mkState (<[node_loc nd := <[i := v + 1]> c]> (heap s)) (queues s)
         (nodes s)
         (stdout s ++ [LogLine (Node.id nd) (Event.event_id ev) c])).
Proof.
  intros Hwf Hnd.
  destruct (wf_inc n s i nd Hwf Hnd) as (c & v & Hc & Hlen & Hv & Hinc).
  exists c, v. split_and!; try done.
  unfold log_inc, log, call. simpl. rewrite Hinc.
  unfold VectorClock.values. fold (node_loc nd).
  by rewrite (deref_Some _ _ _ Hc).
Qed.

Lemma send_wf n s i nd ev s1 :
  wf n s → nodes s !! i = Some nd → send nd ev s = inr s1 →
  ∃ j l c, py_subscript (length (queues s)) (Event.receiver ev) = inr j ∧
    heap s !! l = None ∧ heap s !! node_loc nd = Some c ∧ length c = n ∧
    s1 = set_queues
           (alter (λ q, q ++ [Message.mk (Event.event_id ev)
                                (VectorClock.mk l None)]) j (queues s))
           (set_heap (<[l := c]> (heap s)) s).
Proof.
  intros Hwf Hnd. unfold send.
  destruct (py_subscript _ _) as [e|j]; [done|].
  destruct (wf_clock n s Hwf i nd Hnd) as (c & Hc & Hlen).
  destruct (copy_spec (heap s) (Node.clock nd) c Hc) as (l & Hl & ->).
  intros [= <-]. by exists j, l, c.
Qed.

Lemma receive_wf n s i nd ev rest msg q :
  wf n s → nodes s !! i = Some nd → queues s !! i = Some (msg :: q) →
  ∃ c cm v, heap s !! node_loc nd = Some c ∧ heap s !! msg_loc msg = Some cm ∧
    length c = n ∧ length cm = n ∧
    zip_with Z.max c cm !! i = Some v ∧
    let s2 := set_heap (<[node_loc nd := <[i := v + 1]> (zip_with Z.max c cm)]>
                          (heap s))
                (set_queues (alter (drop 1) i (queues s)) s) in
    receive nd ev rest i msg s
    = if decide (Some (Message.event_id msg) ≠ Event.dependency ev)
      then (Node.buf_event_id nd (Message.event_id msg), s2)
      else log_inc nd ev rest s2.
Proof.
  intros Hwf Hnd Hq.
  destruct (wf_merge n s i nd Hwf Hnd i (msg :: q) msg Hq)
    as (c & cm & v & Hc & Hcm & Hlen & Hlenm & Hv & Hmerge);
    [apply list_elem_of_here|].
  exists c, cm, v. split_and!; try done.
  unfold receive. simpl. by rewrite Hmerge.
Qed.

Lemma frame_refl n nd s : wf n s → frame n nd s s.
Proof. intros Hwf. split_and!; [done.. | apply heap_evolves_refl]. Qed.

Lemma frame_log_inc n s i nd ev rest s1 :
  nodes s !! i = Some nd → frame n nd s s1 →
  ∃ s2, log_inc nd ev rest s1 = (Node.set_control (AtFor rest) nd, s2) ∧
        frame n nd s s2.
Proof.
  intros Hnd (Hwf & Hnodes & Hev).
  assert (Hnd1 : nodes s1 !! i = Some nd) by (by rewrite Hnodes).
  destruct (log_inc_wf n s1 i nd ev rest Hwf Hnd1)
    as (c & v & Hc & Hlen & Hv & ->).
  eexists. split; [done|]. split_and!; simpl.
  - change (wf n (print (LogLine (Node.id nd) (Event.event_id ev) c)
                    (set_heap (<[node_loc nd := <[i := v + 1]> c]> (heap s1))
                       s1))).
    apply wf_print.
    apply (wf_set_heap_own n s1 i nd); try done. by rewrite length_insert.
  - done.
  - eapply heap_evolves_trans; [done|].
    apply (heap_evolves_own _ _ c); [done|].
    apply (vc_le_insert _ _ v); [done | lia].
Qed.

Lemma frame_send n s i nd ev s1 s2 :
  nodes s !! i = Some nd → frame n nd s s1 → send nd ev s1 = inr s2 →
  frame n nd s s2.
Proof.
  intros Hnd (Hwf & Hnodes & Hev) Hsend.
  assert (Hnd1 : nodes s1 !! i = Some nd) by (by rewrite Hnodes).
  destruct (send_wf n s1 i nd ev s2 Hwf Hnd1 Hsend)
    as (j & l & c & _ & Hl & Hc & Hlen & ->).
  split_and!; simpl.
  - by apply wf_enqueue_new.
  - done.
  - eapply heap_evolves_trans; [done|]. by apply heap_evolves_alloc.
Qed.

Lemma frame_receive n s i nd ev rest msg q :
  wf n s → nodes s !! i = Some nd → queues s !! i = Some (msg :: q) →
  ∃ nd' s2, receive nd ev rest i msg s = (nd', s2) ∧
    Node.id nd' = Node.id nd ∧ Node.clock nd' = Node.clock nd ∧
    Node.events nd' = Node.events nd ∧ frame n nd s s2.
Proof.
  intros Hwf Hnd Hq.
  destruct (receive_wf n s i nd ev rest msg q Hwf Hnd Hq)
    as (c & cm & v & Hc & Hcm & Hlen & Hlenm & Hv & Hrec).
  simpl in Hrec. rewrite Hrec. clear Hrec.
  set (c' := <[i := v + 1]> (zip_with Z.max c cm)).
  set (s2 := set_heap _ _).
  assert (Hframe : frame n nd s s2).
  { split_and!; simpl.
    - apply (wf_set_heap_own n (set_queues (alter (drop 1) i (queues s)) s) i nd).
      + by apply wf_dequeue.
      + done.
      + unfold c'. rewrite length_insert, length_zip_with. lia.
    - done.
    - apply (heap_evolves_own _ _ c); [done|].
      eapply vc_le_trans; [apply (vc_le_max_l c cm); lia|].
      apply (vc_le_insert _ _ v); [done | lia]. }
  case_decide.
  - eexists _, s2. by split_and!.
  - destruct (frame_log_inc n s i nd ev rest s2 Hnd Hframe) as (s3 & -> & Hf3).
    eexists _, s3. by split_and!.
Qed.

Lemma step_frame n s i nd s' :
  wf n s → nodes s !! i = Some nd → step i s = Some s' →
  ∃ nd' s1, s' = set_node i nd' s1 ∧
    Node.id nd' = Node.id nd ∧ Node.clock nd' = Node.clock nd ∧
    Node.events nd' = Node.events nd ∧ frame n nd s s1.
Proof.
  intros Hwf Hnd. unfold step. rewrite Hnd. simpl.
  pose proof (frame_refl n nd s Hwf) as Hfr.
  destruct (Node.control nd) as [[|ev rest]|ev rest| | |e] eqn:Hctl; try done.
  - intros [= <-]. eexists _, s. by split_and!.
  - unfold run_event. repeat case_decide.
    + destruct (frame_log_inc n s i nd ev rest s Hnd Hfr) as (s2 & -> & Hf2).
      intros [= <-]. eexists _, s2. by split_and!.
    + destruct (Node.buffered nd _).
      * destruct (frame_log_inc n s i nd ev rest s Hnd Hfr) as (s2 & -> & Hf2).
        intros [= <-]. eexists _, s2. by split_and!.
      * intros [= <-]. eexists _, s. by split_and!.
    + destruct (send nd ev s) as [e|s1] eqn:Hsend.
      * intros [= <-]. eexists _, s. by split_and!.
      * pose proof (frame_send n s i nd ev s s1 Hnd Hfr Hsend) as Hf1.
        destruct (frame_log_inc n s i nd ev rest s1 Hnd Hf1) as (s2 & -> & Hf2).
        intros [= <-]. eexists _, s2. by split_and!.
    + intros [= <-]. eexists _, (print InvalidEvent s). split_and!; try done.
      destruct Hfr as (? & ? & ?). split_and!; try done. by apply wf_print.
  - rewrite (wf_own_queue n s i nd Hwf Hnd).
    destruct (queues s !! i) as [[|msg q]|] eqn:Hq; try done.
    destruct (frame_receive n s i nd ev rest msg q Hwf Hnd Hq)
      as (nd' & s2 & -> & Hid & Hclock & Hevs & Hf2).
    intros [= <-]. by eexists nd', s2.
Qed.

(** A step keeps the state well-formed, rewrites only the record of the
    node that moves, keeping its id and its clock, and changes no list in
    the store but that node's clock, which does not go down. *)
Lemma step_wf n s i s' :
  wf n s → step i s = Some s' →
  wf n s' ∧
  ∃ nd nd', nodes s !! i = Some nd ∧ nodes s' = <[i := nd']> (nodes s) ∧
    Node.id nd' = Node.id nd ∧ Node.clock nd' = Node.clock nd ∧
    heap_evolves (node_loc nd) (heap s) (heap s').
Proof.
  intros Hwf Hstep.
  destruct (nodes s !! i) as [nd|] eqn:Hnd;
    [|by unfold step in Hstep; rewrite Hnd in Hstep].
  destruct (step_frame n s i nd s' Hwf Hnd Hstep)
    as (nd' & s1 & -> & Hid & Hclock & _ & Hwf1 & Hnodes & Hev).
  split.
  - apply (wf_set_node n s1 i nd nd'); try done. by rewrite Hnodes.
  - exists nd, nd'. simpl. rewrite Hnodes. by split_and!.
Qed.

(** ** The initial state *)

Lemma make_nodes_spec n script ids :
  ∀ (h : Heap) nds h', make_nodes n script ids h = (nds, h') →
    length nds = length ids ∧
    (∀ l c, h !! l = Some c → h' !! l = Some c) ∧
    (∀ p nd, nds !! p = Some nd →
       h !! node_loc nd = None ∧
       h' !! node_loc nd = Some (replicate n 0) ∧
       ∃ i, ids !! p = Some i ∧
         Node.id nd = Z.of_nat i ∧
         VectorClock.id (Node.clock nd) = Some (Z.of_nat i) ∧
         Node.buffer nd = [] ∧ Node.control nd = AtFor (script i)) ∧
    (∀ p q ndp ndq, nds !! p = Some ndp → nds !! q = Some ndq →
       node_loc ndp = node_loc ndq → p = q).
Proof.
  induction ids as [|i ids IH]; intros h nds h'; simpl.
  - intros [= <- <-]. split_and!; try done.
  - set (l := fresh (dom h)).
    assert (Hl : h !! l = None) by apply not_elem_of_dom, is_fresh.
    destruct (make_nodes n script ids (<[l := replicate n 0]> h))
      as [nds1 h2] eqn:Hmk.
    destruct (IH _ _ _ Hmk) as (Hlen & Hmono & Hnds & Hsep).
    intros [= <- <-].
    assert (Hhead : h2 !! l = Some (replicate n 0)).
    { apply Hmono. by rewrite lookup_insert_eq. }
    split_and!.
    + simpl. by rewrite Hlen.
    + intros l' c Hl'. apply Hmono. rewrite lookup_insert_ne; [done|].
      congruence.
    + intros [|p] nd Hp; simplify_eq/=.
      * split_and!; try done. by exists i.
      * destruct (Hnds p nd Hp) as (Hnone & Hsome & Hi).
        split_and!; try done.
        destruct (decide (l = node_loc nd)) as [->|Hne].
        -- by rewrite lookup_insert_eq in Hnone.
        -- by rewrite lookup_insert_ne in Hnone.
    + intros [|p] [|q] ndp ndq Hp Hq Heq; simplify_eq/=; try done.
      * destruct (Hnds q ndq Hq) as (Hnone & _).
        rewrite <- Heq in Hnone. unfold node_loc in Hnone. simpl in Hnone.
        by rewrite lookup_insert_eq in Hnone.
      * destruct (Hnds p ndp Hp) as (Hnone & _).
        rewrite Heq in Hnone. unfold node_loc in Hnone. simpl in Hnone.
        by rewrite lookup_insert_eq in Hnone.
      * f_equal. by eapply Hsep.
Qed.

Lemma main_wf n script : wf n (main n script).
Proof.
  unfold main.
  destruct (make_nodes n script (seq 0 n) ∅) as [nds h] eqn:Hmk.
  destruct (make_nodes_spec _ _ _ _ _ _ Hmk) as (Hlen & _ & Hnds & Hsep).
  rewrite length_seq in Hlen.
  constructor; simpl.
  - by rewrite length_replicate.
  - done.
  - intros i nd Hi. destruct (Hnds i nd Hi) as (_ & _ & k & Hk & ? & ? & _).
    apply lookup_seq in Hk as [-> _]. done.
  - intros i nd Hi. destruct (Hnds i nd Hi) as (_ & Hc & _).
    exists (replicate n 0). by rewrite length_replicate.
  - done.
  - intros j q m Hq Hm. apply lookup_replicate in Hq as [-> _].
    by apply elem_of_nil in Hm.
  - intros j q m i nd Hq Hm. apply lookup_replicate in Hq as [-> _].
    by apply elem_of_nil in Hm.
Qed.

Lemma main_node n script i nd :
  nodes (main n script) !! i = Some nd →
  Node.buffer nd = [] ∧ Node.control nd = AtFor (script i) ∧
  heap (main n script) !! node_loc nd = Some (replicate n 0).
Proof.
  unfold main.
  destruct (make_nodes n script (seq 0 n) ∅) as [nds h] eqn:Hmk.
  destruct (make_nodes_spec _ _ _ _ _ _ Hmk) as (_ & _ & Hnds & _).
  simpl. intros Hi.
  destruct (Hnds i nd Hi) as (_ & Hc & k & Hk & _ & _ & Hb & Hctl).
  apply lookup_seq in Hk as [-> _]. done.
Qed.

Lemma steps_wf n s s' : wf n s → steps s s' → wf n s'.
Proof.
  intros Hwf Hsteps. induction Hsteps as [|i s1 s2 _ IH Hstep]; [done|].
  by apply (step_wf n s1 i s2 IH).
Qed.

Lemma run_steps s hist s' : run s hist s' → steps s s'.
Proof.
  induction 1 as [|hist s1 i s2 _ IH Hstep]; [constructor|].
  by eapply steps_step.
Qed.

Lemma steps_run s s' : steps s s' → ∃ hist, run s hist s'.
Proof.
  induction 1 as [|i s1 s2 _ [hist IH] Hstep]; [exists []; constructor|].
  eexists. by eapply run_step.
Qed.

(** ** The shape of a step, in any state *)

Lemma index_Some l (d : Z) k :
  Node.index l (Some d) = Some k → 0 ≤ k ∧ d ∈ l.
Proof.
  revert k. induction l as [|y l IH]; intros k; simpl; [done|].
  case_decide as Hy.
  - intros [= <-]. simplify_eq. split; [lia | apply list_elem_of_here].
  - destruct (Node.index l (Some d)) as [k'|]; simpl; [|done].
    intros [= <-]. destruct (IH k' eq_refl) as [Hk Hin].
    split; [lia | by apply list_elem_of_further].
Qed.

Lemma index_elem_of l (d : Z) :
  d ∈ l → ∃ k, Node.index l (Some d) = Some k ∧ 0 ≤ k.
Proof.
  induction 1 as [d l|d y l _ (k & Hk & Hk0)]; simpl.
  - rewrite decide_True by done. exists 0. split; [done | lia].
  - case_decide; [exists 0; split; [done | lia]|].
    rewrite Hk. exists (k + 1). split; [done | lia].
Qed.

(** [buffered] is membership in the buffer. *)
Lemma buffered_spec nd (d : Z) :
  Node.buffered nd (Some d) = true ↔ d ∈ Node.buffer nd.
Proof.
  unfold Node.buffered. split.
  - destruct (Node.index _ _) as [k|] eqn:Hk; [|done].
    intros _. by destruct (index_Some _ _ _ Hk).
  - intros (k & -> & Hk)%index_elem_of. apply bool_decide_eq_true. lia.
Qed.

Lemma buffered_None nd : Node.buffered nd None = false.
Proof.
  unfold Node.buffered. generalize (Node.buffer nd). intros l.
  assert (Node.index l None = None) as ->; [|done].
  induction l as [|y l IH]; simpl; [done|].
  try rewrite decide_False by done. by rewrite IH.
Qed.

Lemma log_inc_shape nd ev rest s nd' s' :
  log_inc nd ev rest s = (nd', s') →
  nodes s' = nodes s ∧ queues s' = queues s ∧
  stdout s' = stdout s ++ [LogLine (Node.id nd) (Event.event_id ev)
                             (VectorClock.values (heap s) (Node.clock nd))] ∧
  heap s' = heap_of (VectorClock.inc (heap s) (Node.clock nd)) ∧
  (nd' = Node.set_control (AtFor rest) nd ∨
   ∃ e, nd' = Node.set_control (Uncaught e) nd).
Proof.
  unfold log_inc, call, log. simpl.
  destruct (VectorClock.inc _ _) as [h|e h]; intros [= <- <-]; simpl;
    split_and!; eauto.
Qed.

Lemma send_shape nd ev s s' :
  send nd ev s = inr s' →
  nodes s' = nodes s ∧ stdout s' = stdout s ∧
  ∃ j, py_subscript (length (queues s)) (Event.receiver ev) = inr j ∧
    heap s' = (VectorClock.copy (heap s) (Node.clock nd)).2 ∧
    queues s' = alter (λ q, q ++ [Message.mk (Event.event_id ev)
                         (VectorClock.copy (heap s) (Node.clock nd)).1])
                  j (queues s).
Proof.
  unfold send. destruct (py_subscript _ _) as [e|j]; [done|].
  destruct (VectorClock.copy _ _) as [c h]. intros [= <-]. simpl.
  split_and!; try done. by exists j.
Qed.

Lemma receive_shape nd ev rest j msg s nd' s' :
  receive nd ev rest j msg s = (nd', s') →
  nodes s' = nodes s ∧ queues s' = alter (drop 1) j (queues s) ∧
  (nd' = Node.buf_event_id nd (Message.event_id msg) ∨
   ∃ k, nd' = Node.set_control k nd).
Proof.
  unfold receive. simpl.
  destruct (VectorClock.merge _ _ _) as [h|e h].
  - case_decide.
    + intros [= <- <-]. simpl. split_and!; eauto.
    + intros (Hn & Hq & _ & _ & Hnd)%log_inc_shape. simpl in *.
      split_and!; try done. right. destruct Hnd as [->|[e ->]]; eauto.
  - intros [= <- <-]. simpl. split_and!; eauto.
Qed.

(** A step rewrites the record of the node that moves and no other; the
    node keeps its id, clock and script, and its buffer is as before or
    has one more id at the end. *)
Lemma step_shape i s s' :
  step i s = Some s' →
  ∃ nd nd', nodes s !! i = Some nd ∧ nodes s' = <[i := nd']> (nodes s) ∧
    Node.id nd' = Node.id nd ∧ Node.clock nd' = Node.clock nd ∧
    Node.events nd' = Node.events nd ∧
    (Node.buffer nd' = Node.buffer nd ∨
     ∃ m, gets i s = Some m ∧
          Node.buffer nd' = Node.buffer nd ++ [Message.event_id m]).
Proof.
  unfold step, gets.
  destruct (nodes s !! i) as [nd|] eqn:Hnd; [simpl|done].
  destruct (Node.control nd) as [[|ev rest]|ev rest| | |e] eqn:Hctl; try done.
  - intros [= <-]. exists nd, (Node.set_control Returned nd). by split_and!; auto.
  - unfold run_event. repeat case_decide.
    + destruct (log_inc nd ev rest s) as [nd' s1] eqn:Hli.
      apply log_inc_shape in Hli as (Hn & _ & _ & _ & Hnd').
      intros [= <-]. exists nd, nd'. simpl. rewrite Hn.
      by destruct Hnd' as [->|[e ->]]; split_and!; auto.
    + destruct (Node.buffered nd _).
      * destruct (log_inc nd ev rest s) as [nd' s1] eqn:Hli.
        apply log_inc_shape in Hli as (Hn & _ & _ & _ & Hnd').
        intros [= <-]. exists nd, nd'. simpl. rewrite Hn.
        by destruct Hnd' as [->|[e ->]]; split_and!; auto.
      * intros [= <-]. eexists nd, _. by split_and!; auto.
    + destruct (send nd ev s) as [e|s1] eqn:Hsend.
      * intros [= <-]. eexists nd, _. by split_and!; auto.
      * apply send_shape in Hsend as (Hn1 & _).
        destruct (log_inc nd ev rest s1) as [nd' s2] eqn:Hli.
        apply log_inc_shape in Hli as (Hn & _ & _ & _ & Hnd').
        intros [= <-]. exists nd, nd'. simpl. rewrite Hn, Hn1.
        by destruct Hnd' as [->|[e ->]]; split_and!; auto.
    + intros [= <-]. eexists nd, _. by split_and!; auto.
  - destruct (py_index _ _) as [j|]; simpl.
    + destruct (queues s !! j) as [[|msg q]|] eqn:Hq; try done. simpl.
      destruct (receive nd ev rest j msg s) as [nd' s1] eqn:Hrec.
      apply receive_shape in Hrec as (Hn & _ & Hnd').
      intros [= <-]. exists nd, nd'. simpl. rewrite Hn.
      destruct Hnd' as [->|[k ->]]; split_and!; auto.
      right. by exists msg.
    + intros [= <-]. eexists nd, _. by split_and!; auto.
Qed.

Lemma run_sched_steps sched : ∀ s0 s, steps s0 s → steps s0 (run_sched sched s).
Proof.
  induction sched as [|i sched IH]; intros s0 s Hs; simpl; [done|].
  apply IH. destruct (step i s) as [s2|] eqn:Hstep; simpl; [|done].
  by eapply steps_step.
Qed.

(** ** The receive buffer *)

Lemma step_buffered i s nd ev rest d :
  nodes s !! i = Some nd → Node.control nd = AtFor (ev :: rest) →
  Event.type ev = "r" → Event.dependency ev = Some d → d ∈ Node.buffer nd →
  ∃ nd' s1, log_inc nd ev rest s = (nd', s1) ∧
            step i s = Some (set_node i nd' s1).
Proof.
  intros Hnd Hctl Hty Hdep Hbuf.
  destruct (log_inc nd ev rest s) as [nd' s1] eqn:Hli. exists nd', s1.
  split; [done|]. unfold step. rewrite Hnd. simpl. rewrite Hctl.
  unfold run_event. rewrite Hty. simpl.
  apply buffered_spec in Hbuf. rewrite Hdep, Hbuf. by rewrite Hli.
Qed.

(** C10. The receive buffer of a node never shrinks: a step of any node
    leaves the buffer of every node as it was, or appends one event id to
    the buffer of the node that moves, the id of the message that this
    step dequeued ([buf_event_id] appends and nothing removes); and the
    same id is appended twice when two messages carrying it are dequeued
    while another dependency is awaited. *)
Theorem buffer_never_shrinks :
  (∀ i s s' k nd, step i s = Some s' → nodes s !! k = Some nd →
     ∃ nd', nodes s' !! k = Some nd' ∧
       (Node.buffer nd' = Node.buffer nd ∨
        ∃ m, k = i ∧ gets i s = Some m ∧
             Node.buffer nd' = Node.buffer nd ++ [Message.event_id m])) ∧
  (∀ nd e, Node.buffer (Node.buf_event_id nd e) = Node.buffer nd ++ [e]) ∧
  (∃ s, steps (main 2 scenario3) s ∧ buffer_of 1 s = Some [1; 1]).
Proof.
  split_and!.
  - intros i s s' k nd Hstep Hk.
    destruct (step_shape i s s' Hstep)
      as (ndi & ndi' & Hi & -> & _ & _ & _ & Hbuf).
    destruct (decide (i = k)) as [<-|Hne].
    + exists ndi'. rewrite list_lookup_insert_eq by (by eapply lookup_lt_Some).
      split; [done|]. simplify_eq.
      destruct Hbuf as [Hbuf|(m & Hm & Hbuf)]; [by left|].
      right. by exists m.
    + exists nd. rewrite list_lookup_insert_ne by done. auto.
  - done.
  - exists (run_sched [0; 0; 0; 1; 1; 1]%nat (main 2 scenario3)). split.
    + apply run_sched_steps. constructor.
    + vm_compute. reflexivity.
Qed.

Lemma buffer_never_shrinks_witness :
  ∃ nd', nodes (run_sched [1; 1]%nat (run_sched [0; 0; 0]%nat (main 2 scenario3)))
           !! 1%nat = Some nd' ∧
    (Node.buffer nd' = [] ∨
     ∃ m, 1%nat = 1%nat ∧
          gets 1 (run_sched [1]%nat (run_sched [0; 0; 0]%nat (main 2 scenario3)))
          = Some m ∧
          Node.buffer nd' = [] ++ [Message.event_id m]).
Proof.
  destruct buffer_never_shrinks as [H _].
  apply (H 1%nat
           (run_sched [1]%nat (run_sched [0; 0; 0]%nat (main 2 scenario3)))
           _ 1%nat
           (Node.mk 1 (VectorClock.mk 1%nat (Some 1)) (scenario3 1) []
              (InGet (Receive 2 3) []))).
  - vm_compute. reflexivity.
  - vm_compute. reflexivity.
Defined.

Lemma own_slot_at n s i nd c :
  wf n s → nodes s !! i = Some nd → heap s !! node_loc nd = Some c →
  own_slot i s = c !! i.
Proof.
  intros Hwf Hnd Hc.
  destruct (wf_own_slot n s i nd Hwf Hnd) as (c' & Hc' & _ & ->). congruence.
Qed.

Lemma step_buffered_wf n i s nd ev rest d :
  wf n s → nodes s !! i = Some nd → Node.control nd = AtFor (ev :: rest) →
  Event.type ev = "r" → Event.dependency ev = Some d → d ∈ Node.buffer nd →
  ∃ c v, heap s !! node_loc nd = Some c ∧ c !! i = Some v ∧
    step i s
    = Some (mkState (<[node_loc nd := <[i := v + 1]> c]> (heap s)) (queues s)
              (<[i := Node.set_control (AtFor rest) nd]> (nodes s))
              (stdout s ++ [LogLine (Node.id nd) (Event.event_id ev) c])).
Proof.
  intros Hwf Hnd Hctl Hty Hdep Hbuf.
  destruct (step_buffered i s nd ev rest d Hnd Hctl Hty Hdep Hbuf)
    as (nd' & s1 & Hli & ->).
  destruct (log_inc_wf n s i nd ev rest Hwf Hnd) as (c & v & Hc & _ & Hv & Hli').
  rewrite Hli' in Hli. injection Hli as <- <-. by exists c, v.
Qed.

(** C9. When the dependency of a Receive event is already in the node's
    buffer as the event starts, the step that executes the event dequeues
    nothing from any queue and performs no merge: the clock on the log
    line is the clock as it was before the event, and the store after the
    step is the store before it after one [inc] of the node's clock, so
    that in a simulation state the node's own slot has grown by one. *)
Theorem buffered_receive_logs_clock_unchanged i s nd ev rest d :
  nodes s !! i = Some nd → Node.control nd = AtFor (ev :: rest) →
  Event.type ev = "r" → Event.dependency ev = Some d → d ∈ Node.buffer nd →
  ∃ s', step i s = Some s' ∧
    queues s' = queues s ∧
    stdout s' = stdout s ++ [LogLine (Node.id nd) (Event.event_id ev)
                               (VectorClock.values (heap s) (Node.clock nd))] ∧
    heap s' = heap_of (VectorClock.inc (heap s) (Node.clock nd)) ∧
    ∀ n, wf n s →
      ∃ c v, VectorClock.values (heap s) (Node.clock nd) = c ∧
        c !! i = Some v ∧
        VectorClock.values (heap s') (Node.clock nd) = <[i := v + 1]> c ∧
        own_slot i s = Some v ∧ own_slot i s' = Some (v + 1).
Proof.
  intros Hnd Hctl Hty Hdep Hbuf.
  destruct (step_buffered i s nd ev rest d Hnd Hctl Hty Hdep Hbuf)
    as (nd' & s1 & Hli & Hstep).
  exists (set_node i nd' s1). split; [done|].
  destruct (log_inc_shape _ _ _ _ _ _ Hli) as (_ & Hq & Hout & Hheap & _).
  split_and!; try done.
  intros n Hwf.
  destruct (step_buffered_wf n i s nd ev rest d Hwf Hnd Hctl Hty Hdep Hbuf)
    as (c & v & Hc & Hv & Hstep').
  rewrite Hstep in Hstep'. apply (inj Some) in Hstep'. rename Hstep' into Hs'.
  pose proof (step_wf n s i _ Hwf Hstep) as [Hwf' _].
  exists c, v. unfold VectorClock.values. fold (node_loc nd).
  rewrite (deref_Some _ _ _ Hc).
  assert (Hi : (i < length c)%nat) by (by eapply lookup_lt_Some).
  assert (Hc' : heap (set_node i nd' s1) !! node_loc nd
                = Some (<[i := v + 1]> c)).
  { rewrite Hs'. simpl. by rewrite lookup_insert_eq. }
  split_and!; try done.
  - by rewrite (deref_Some _ _ _ Hc').
  - by rewrite (own_slot_at n s i nd c Hwf Hnd Hc).
  - rewrite (own_slot_at n _ i (Node.set_control (AtFor rest) nd)
               (<[i := v + 1]> c) Hwf').
    + by rewrite list_lookup_insert_eq.
    + rewrite Hs'. simpl. rewrite list_lookup_insert_eq; [done|].
      by eapply lookup_lt_Some.
    + done.
Qed.

Lemma buffered_receive_logs_clock_unchanged_witness :
  let s := run_sched [0; 0; 1; 1; 1]%nat (main 2 scenario2) in
  let nd := Node.mk 1 (VectorClock.mk 1%nat (Some 1)) (scenario2 1) [1]
              (AtFor [Receive 4 1; Receive 5 1]) in
  ∃ s', step 1 s = Some s' ∧
    queues s' = queues s ∧
    stdout s' = stdout s ++ [LogLine (Node.id nd) (Event.event_id (Receive 4 1))
                               (VectorClock.values (heap s) (Node.clock nd))] ∧
    heap s' = heap_of (VectorClock.inc (heap s) (Node.clock nd)) ∧
    ∀ n, wf n s →
      ∃ c v, VectorClock.values (heap s) (Node.clock nd) = c ∧
        c !! 1%nat = Some v ∧
        VectorClock.values (heap s') (Node.clock nd) = <[1%nat := v + 1]> c ∧
        own_slot 1 s = Some v ∧ own_slot 1 s' = Some (v + 1).
Proof.
  intros s nd.
  apply (buffered_receive_logs_clock_unchanged 1%nat s nd
           (Receive 4 1) [Receive 5 1] 1).
  - vm_compute. reflexivity.
  - reflexivity.
  - reflexivity.
  - reflexivity.
  - apply list_elem_of_here.
Defined.

(** C3, as the code has it.  When the dependency of a Receive event is
    already in the node's buffer, the node treats the dependency as
    satisfied without dequeuing from any queue: the event is logged and
    the node goes on with the rest of its script; the buffer is left as it
    was, the id is still in it. *)
Theorem buffered_dependency_stays n i s nd ev rest d :
  wf n s → nodes s !! i = Some nd → Node.control nd = AtFor (ev :: rest) →
  Event.type ev = "r" → Event.dependency ev = Some d → d ∈ Node.buffer nd →
  ∃ s', step i s = Some s' ∧
    queues s' = queues s ∧
    control_of i s' = Some (AtFor rest) ∧
    buffer_of i s' = Some (Node.buffer nd) ∧
    (∃ c, stdout s' = stdout s ++ [LogLine (Node.id nd) (Event.event_id ev) c]).
Proof.
  intros Hwf Hnd Hctl Hty Hdep Hbuf.
  destruct (step_buffered_wf n i s nd ev rest d Hwf Hnd Hctl Hty Hdep Hbuf)
    as (c & v & Hc & Hv & Hstep).
  eexists. split; [exact Hstep|]. unfold control_of, buffer_of. simpl.
  rewrite list_lookup_insert_eq by (by eapply lookup_lt_Some).
  split_and!; try done. by exists c.
Qed.

Lemma buffered_dependency_stays_witness :
  let s := run_sched [0; 0; 1; 1; 1]%nat (main 2 scenario2) in
  let nd := Node.mk 1 (VectorClock.mk 1%nat (Some 1)) (scenario2 1) [1]
              (AtFor [Receive 4 1; Receive 5 1]) in
  ∃ s', step 1 s = Some s' ∧
    queues s' = queues s ∧
    control_of 1 s' = Some (AtFor [Receive 5 1]) ∧
    buffer_of 1 s' = Some (Node.buffer nd) ∧
    (∃ c, stdout s' = stdout s ++ [LogLine (Node.id nd)
                                     (Event.event_id (Receive 4 1)) c]).
Proof.
  intros s nd.
  apply (buffered_dependency_stays 2%nat 1%nat s nd
           (Receive 4 1) [Receive 5 1] 1).
  - eapply steps_wf; [apply main_wf|]. apply run_sched_steps. constructor.
  - vm_compute. reflexivity.
  - reflexivity.
  - reflexivity.
  - reflexivity.
  - apply list_elem_of_here.
Defined.

(** C3, as stated, fails: in the run of [scenario2] node 1 has buffered
    the id 1 while it waited for e3; its event Receive(e4, dependency 1)
    then leaves the id in the buffer, and Receive(e5, dependency 1) is
    satisfied by the same buffered id, again without a dequeue. *)
Lemma buffered_id_not_consumed :
  let s := run_sched [0; 0; 1; 1; 1]%nat (main 2 scenario2) in
  control_of 1 s = Some (AtFor [Receive 4 1; Receive 5 1]) ∧
  buffer_of 1 s = Some [1] ∧
  ∃ s' s'', step 1 s = Some s' ∧
    buffer_of 1 s' = Some [1] ∧ buffer_of 1 s' ≠ Some [] ∧
    control_of 1 s' = Some (AtFor [Receive 5 1]) ∧
    step 1 s' = Some s'' ∧
    control_of 1 s'' = Some (AtFor []) ∧
    queues s'' = queues s ∧ buffer_of 1 s'' = Some [1].
Proof.
  cbv zeta. split_and!; [vm_compute; reflexivity..|].
  eexists _, _. split_and!.
  - vm_compute. reflexivity.
  - vm_compute. reflexivity.
  - vm_compute. discriminate.
  - vm_compute. reflexivity.
  - vm_compute. reflexivity.
  - vm_compute. reflexivity.
  - vm_compute. reflexivity.
  - vm_compute. reflexivity.
Qed.

(** ** VectorClock: merge and copy *)

Lemma inc_frame (h : Heap) (self : VectorClock.t) l :
  l ≠ VectorClock.clock self →
  heap_of (VectorClock.inc h self) !! l = h !! l.
Proof.
  intros Hne. unfold VectorClock.inc.
  destruct (py_subscript _ _) as [e|j]; [done|].
  destruct (_ !! j); [simpl|done]. by rewrite lookup_insert_ne.
Qed.

Lemma merge_loop_frame (self other : VectorClock.t) l idx :
  l ≠ VectorClock.clock self →
  ∀ h : Heap, heap_of (VectorClock.merge_loop h self other idx) !! l = h !! l.
Proof.
  intros Hne. induction idx as [|i idx IH]; intros h; simpl; [done|].
  destruct (deref h (VectorClock.clock self) !! i); [|done].
  destruct (deref h (VectorClock.clock other) !! i); [|done].
  rewrite IH. by rewrite lookup_insert_ne.
Qed.

Lemma merge_frame (h : Heap) (self other : VectorClock.t) l :
  l ≠ VectorClock.clock self →
  heap_of (VectorClock.merge h self other) !! l = h !! l.
Proof.
  intros Hne. unfold VectorClock.merge.
  pose proof (merge_loop_frame self other l
                (seq 0 (length (deref h (VectorClock.clock self)))) Hne h)
    as Hloop.
  destruct (VectorClock.merge_loop _ _ _ _) as [h1|e h1]; simpl in *.
  - by rewrite inc_frame.
  - done.
Qed.

Lemma apply_ops_frame (self : VectorClock.t) l ops :
  l ≠ VectorClock.clock self →
  ∀ h : Heap, apply_ops self h ops !! l = h !! l.
Proof.
  intros Hne. unfold apply_ops.
  induction ops as [|op ops IH]; intros h; simpl; [done|].
  rewrite IH. destruct op; simpl; [by apply inc_frame | by apply merge_frame].
Qed.

(** C5. For two clocks of the same length [N], [self] with its own slot
    at [j], [merge] returns normally; afterwards slot [i] of [self] holds
    [max(self[i], other[i])] for every [i] in [0..N-1], plus one in the
    own slot; [other] is unchanged, and so is every other list. *)
Theorem merge_takes_max_then_increments
    (h : Heap) (self other : VectorClock.t) (N : nat) ls lo k j :
  VectorClock.clock self ≠ VectorClock.clock other →
  h !! VectorClock.clock self = Some ls →
  h !! VectorClock.clock other = Some lo →
  length ls = N → length lo = N →
  VectorClock.id self = Some k → py_index N k = Some j →
  ∃ h', VectorClock.merge h self other = Returns h' ∧
    length (VectorClock.values h' self) = N ∧
    (∀ i a b, ls !! i = Some a → lo !! i = Some b →
       VectorClock.values h' self !! i
       = Some (if decide (i = j) then Z.max a b + 1 else Z.max a b)) ∧
    VectorClock.values h' other = lo ∧
    (∀ l, l ≠ VectorClock.clock self → h' !! l = h !! l).
Proof.
  intros Hne Hs Ho Hls Hlo Hid Hj. subst N.
  destruct (merge_spec h self other ls lo k j) as (v & Hv & Hmerge);
    try done.
  eexists. split; [exact Hmerge|].
  unfold VectorClock.values, deref. rewrite lookup_insert_eq. simpl.
  rewrite lookup_insert_ne by done. rewrite Ho. simpl.
  split_and!.
  - rewrite length_insert, length_zip_with. lia.
  - intros i a b Ha Hb.
    assert (Hz : zip_with Z.max ls lo !! i = Some (Z.max a b)).
    { rewrite lookup_zip_with, Ha. simpl. by rewrite Hb. }
    case_decide as Hij.
    + subst i. rewrite list_lookup_insert_eq by (by eapply lookup_lt_Some).
      congruence.
    + by rewrite list_lookup_insert_ne.
  - done.
  - intros l Hl. by rewrite lookup_insert_ne.
Qed.

Lemma merge_takes_max_then_increments_witness :
  let h : Heap := <[0%nat := [3; 1; 4]]> (<[1%nat := [2; 5; 4]]> ∅) in
  let self := VectorClock.mk 0%nat (Some 1) in
  let other := VectorClock.mk 1%nat None in
  ∃ h', VectorClock.merge h self other = Returns h' ∧
    length (VectorClock.values h' self) = 3%nat ∧
    (∀ i a b, [3; 1; 4] !! i = Some a → [2; 5; 4] !! i = Some b →
       VectorClock.values h' self !! i
       = Some (if decide (i = 1%nat) then Z.max a b + 1 else Z.max a b)) ∧
    VectorClock.values h' other = [2; 5; 4] ∧
    (∀ l, l ≠ VectorClock.clock self → h' !! l = h !! l).
Proof.
  intros h self other.
  apply (merge_takes_max_then_increments h self other 3%nat
           [3; 1; 4] [2; 5; 4] 1 1%nat).
  - discriminate.
  - reflexivity.
  - reflexivity.
  - reflexivity.
  - reflexivity.
  - reflexivity.
  - reflexivity.
Defined.

Example ex_merge :
  let h : Heap := <[0%nat := [3; 1; 4]]> (<[1%nat := [2; 5; 4]]> ∅) in
  let h' := heap_of (VectorClock.merge h (VectorClock.mk 0%nat (Some 1))
                       (VectorClock.mk 1%nat None)) in
  (deref h' 0%nat, deref h' 1%nat) = ([3; 6; 4], [2; 5; 4]).
Proof. vm_compute. reflexivity. Qed.

(** C8. [copy] of an allocated clock returns a [VectorClock] whose id is
    [None] and whose list is a new one (not in the store before), holding
    the items of the original at the time of the call; the original is
    unchanged by the call, and whatever [inc] and [merge] calls are made on
    the original afterwards, the items of the copy stay as they are. *)
Theorem copy_is_detached_snapshot (h : Heap) (self : VectorClock.t) l :
  h !! VectorClock.clock self = Some l →
  ∃ snap h', VectorClock.copy h self = (snap, h') ∧
    VectorClock.id snap = None ∧
    h !! VectorClock.clock snap = None ∧
    VectorClock.values h' snap = l ∧
    VectorClock.values h' self = l ∧
    ∀ ops, VectorClock.values (apply_ops self h' ops) snap = l.
Proof.
  intros Hs. destruct (copy_spec h self l Hs) as (l' & Hfresh & Hcopy).
  eexists _, _. split; [exact Hcopy|]. simpl.
  assert (Hne : l' ≠ VectorClock.clock self) by congruence.
  unfold VectorClock.values, deref. simpl.
  split_and!; try done.
  - by rewrite lookup_insert_eq.
  - rewrite lookup_insert_ne by done. by rewrite Hs.
  - intros ops. rewrite apply_ops_frame by done. by rewrite lookup_insert_eq.
Qed.

Lemma copy_is_detached_snapshot_witness :
  let h : Heap := <[0%nat := [3; 1; 4]]> ∅ in
  let self := VectorClock.mk 0%nat (Some 1) in
  ∃ snap h', VectorClock.copy h self = (snap, h') ∧
    VectorClock.id snap = None ∧
    h !! VectorClock.clock snap = None ∧
    VectorClock.values h' snap = [3; 1; 4] ∧
    VectorClock.values h' self = [3; 1; 4] ∧
    ∀ ops, VectorClock.values (apply_ops self h' ops) snap = [3; 1; 4].
Proof.
  intros h self.
  apply (copy_is_detached_snapshot h self [3; 1; 4]).
  reflexivity.
Defined.

Example ex_copy_then_mutate :
  let h : Heap := <[0%nat := [3; 1; 4]]> ∅ in
  let self := VectorClock.mk 0%nat (Some 1) in
  let '(snap, h') := VectorClock.copy h self in
  let h'' := apply_ops self h' [OpInc; OpMerge snap; OpInc] in
  (VectorClock.values h'' self, VectorClock.values h'' snap)
  = ([3; 4; 4], [3; 1; 4]).
Proof. vm_compute. reflexivity. Qed.

(** ** Send events *)

Lemma py_index_range len r :
  0 ≤ r < Z.of_nat len → py_index len r = Some (Z.to_nat r).
Proof. intros Hr. unfold py_index. by rewrite decide_True. Qed.

(** C7, as the code has it.  A Send event whose receiver [r] is a node id
    ([0 <= r < n]) enqueues exactly one message, at the end of
    [queues[r]], and changes no other queue (so the sender's own queue is
    touched only when [r] is the sender itself); the message carries the
    event id of the Send event and a new clock without id whose items are
    those of the sender's clock before the increment that ends the event,
    and they are still those after that increment. *)
Theorem send_enqueues_snapshot n i s nd ev rest r :
  wf n s → nodes s !! i = Some nd → Node.control nd = AtFor (ev :: rest) →
  Event.type ev = "s" → Event.receiver ev = Some r → 0 ≤ r < Z.of_nat n →
  ∃ s' m q c v, step i s = Some s' ∧
    queues s !! Z.to_nat r = Some q ∧
    queues s' !! Z.to_nat r = Some (q ++ [m]) ∧
    (∀ j, j ≠ Z.to_nat r → queues s' !! j = queues s !! j) ∧
    Message.event_id m = Event.event_id ev ∧
    VectorClock.id (Message.clock m) = None ∧
    heap s !! msg_loc m = None ∧
    VectorClock.values (heap s) (Node.clock nd) = c ∧
    c !! i = Some v ∧
    VectorClock.values (heap s') (Message.clock m) = c ∧
    VectorClock.values (heap s') (Node.clock nd) = <[i := v + 1]> c ∧
    control_of i s' = Some (AtFor rest).
Proof.
  intros Hwf Hnd Hctl Hty Hrec Hr.
  destruct (wf_clock n s Hwf i nd Hnd) as (c & Hc & Hlen).
  destruct (copy_spec (heap s) (Node.clock nd) c Hc) as (l & Hl & Hcopy).
  set (m := Message.mk (Event.event_id ev) (VectorClock.mk l None)).
  set (s1 := set_queues (alter (λ q, q ++ [m]) (Z.to_nat r) (queues s))
               (set_heap (<[l := c]> (heap s)) s)).
  assert (Hsend : send nd ev s = inr s1).
  { unfold send, py_subscript. rewrite Hrec.
    rewrite py_index_range by (by rewrite (wf_queues n s Hwf)).
    by rewrite Hcopy. }
  assert (Hwf1 : wf n s1) by (by apply wf_enqueue_new).
  assert (Hnd1 : nodes s1 !! i = Some nd) by done.
  destruct (log_inc_wf n s1 i nd ev rest Hwf1 Hnd1)
    as (c1 & v & Hc1 & _ & Hv & Hli).
  assert (Hnl : node_loc nd ≠ l) by congruence.
  assert (c1 = c) as ->.
  { simpl in Hc1. rewrite lookup_insert_ne in Hc1 by done. congruence. }
  destruct (lookup_lt_is_Some_2 (queues s) (Z.to_nat r)) as [q Hq].
  { rewrite (wf_queues n s Hwf). lia. }
  eexists _, m, q, c, v. split_and!.
  - unfold step. rewrite Hnd. simpl. rewrite Hctl.
    unfold run_event. rewrite Hty. simpl. rewrite Hsend, Hli. done.
  - done.
  - simpl. by rewrite list_lookup_alter_eq, Hq.
  - intros j Hj. simpl. by rewrite list_lookup_alter_ne.
  - done.
  - done.
  - done.
  - unfold VectorClock.values. fold (node_loc nd).
    by rewrite (deref_Some _ _ _ Hc).
  - done.
  - unfold VectorClock.values, deref. simpl.
    rewrite lookup_insert_ne by done. by rewrite lookup_insert_eq.
  - unfold VectorClock.values, deref. simpl. fold (node_loc nd).
    by rewrite lookup_insert_eq.
  - unfold control_of. simpl.
    by rewrite list_lookup_insert_eq by (by eapply lookup_lt_Some).
Qed.

Lemma send_enqueues_snapshot_witness :
  let s := main 2 scenario1 in
  let nd := Node.mk 0 (VectorClock.mk 0%nat (Some 0)) [Send 1 1] []
              (AtFor [Send 1 1]) in
  ∃ s' m q c v, step 0 s = Some s' ∧
    queues s !! Z.to_nat 1 = Some q ∧
    queues s' !! Z.to_nat 1 = Some (q ++ [m]) ∧
    (∀ j, j ≠ Z.to_nat 1 → queues s' !! j = queues s !! j) ∧
    Message.event_id m = Event.event_id (Send 1 1) ∧
    VectorClock.id (Message.clock m) = None ∧
    heap s !! msg_loc m = None ∧
    VectorClock.values (heap s) (Node.clock nd) = c ∧
    c !! 0%nat = Some v ∧
    VectorClock.values (heap s') (Message.clock m) = c ∧
    VectorClock.values (heap s') (Node.clock nd) = <[0%nat := v + 1]> c ∧
    control_of 0 s' = Some (AtFor []).
Proof.
  intros s nd.
  apply (send_enqueues_snapshot 2%nat 0%nat s nd (Send 1 1) [] 1).
  - apply main_wf.
  - vm_compute. reflexivity.
  - reflexivity.
  - reflexivity.
  - reflexivity.
  - lia.
Defined.

(** C7, as stated, fails: the Send event of [scenario4] names the sender
    as receiver, and its message is enqueued on the sender's own queue. *)
Lemma send_to_self_uses_own_queue :
  let s := main 1 scenario4 in
  control_of 0 s = Some (AtFor [Send 1 0]) ∧
  queues s !! 0%nat = Some [] ∧
  ∃ s' m, step 0 s = Some s' ∧ queues s' !! 0%nat = Some [m] ∧
    Message.event_id m = 1.
Proof.
  cbv zeta. split_and!; [vm_compute; reflexivity..|].
  eexists _, _. split_and!.
  - vm_compute. reflexivity.
  - vm_compute. reflexivity.
  - reflexivity.
Qed.

(** ** An event of an unknown type *)

(** [exit()] raises [SystemExit]; raised in a thread that is not the main
    thread it ends that thread only.  The step prints the message and
    ends the node; nothing else in the state changes. *)
Lemma step_invalid_event i s nd ev rest :
  nodes s !! i = Some nd → Node.control nd = AtFor (ev :: rest) →
  Event.type ev ≠ "i" → Event.type ev ≠ "r" → Event.type ev ≠ "s" →
  step i s
  = Some (mkState (heap s) (queues s)
            (<[i := Node.set_control Exited nd]> (nodes s))
            (stdout s ++ [InvalidEvent])).
Proof.
  intros Hnd Hctl Hi Hr Hs. unfold step. rewrite Hnd. simpl. rewrite Hctl.
  unfold run_event. by rewrite !decide_False by done.
Qed.

(** [scenario5] hands a [Node] an event of type ["x"] directly, which no
    input file does.  Node 0 prints the message and its thread ends, and
    it never moves again; node 1 is not stopped: it then executes its
    event and logs it. *)
Lemma invalid_event_stops_one_node_only :
  let s := main 2 scenario5 in
  ∃ s1 s2,
    step 0 s = Some s1 ∧
    control_of 0 s1 = Some Exited ∧ stdout s1 = [InvalidEvent] ∧
    control_of 1 s1 = control_of 1 s ∧
    step 0 s1 = None ∧
    step 1 s1 = Some s2 ∧
    stdout s2 = [InvalidEvent; LogLine 1 2 [0; 0]] ∧
    clock_of 1 s2 = Some [0; 1] ∧
    control_of 1 s2 = Some (AtFor []).
Proof.
  cbv zeta. eexists _, _. split_and!; vm_compute; reflexivity.
Qed.

(** ** The two-node scenario *)

Lemma reach1_closed s i s' : s ∈ reach1 → step i s = Some s' → s' ∈ reach1.
Proof.
  unfold reach1. rewrite !list_elem_of_fmap.
  intros (sched & -> & Hin) Hstep.
  repeat (apply elem_of_cons in Hin as [->|Hin]);
    [..|by apply elem_of_nil in Hin];
    (destruct i as [|[|i]];
     [ vm_compute in Hstep | vm_compute in Hstep | vm_compute in Hstep ];
     [ try discriminate Hstep .. ]);
    apply (inj Some) in Hstep; subst s'.
  all: first
    [ by exists []; split; [vm_compute | set_solver]
    | by exists [1%nat]; split; [vm_compute | set_solver]
    | by exists [0%nat]; split; [vm_compute | set_solver]
    | by exists [0; 1]%nat; split; [vm_compute | set_solver]
    | by exists [0; 0]%nat; split; [vm_compute | set_solver]
    | by exists [0; 0; 1]%nat; split; [vm_compute | set_solver]
    | by exists [0; 1; 1]%nat; split; [vm_compute | set_solver]
    | by exists [0; 1; 1; 1]%nat; split; [vm_compute | set_solver]
    | by exists [0; 0; 1; 1]%nat; split; [vm_compute | set_solver]
    | by exists [0; 0; 1; 1; 1]%nat; split; [vm_compute | set_solver] ].
Qed.

Lemma steps_reach1 s : steps (main 2 scenario1) s → s ∈ reach1.
Proof.
  induction 1 as [|i s1 s2 _ IH Hstep].
  - unfold reach1. apply list_elem_of_fmap. exists []. split; [done|].
    apply list_elem_of_here.
  - by eapply reach1_closed.
Qed.

(** C1, as the code has it.  In the two-node scenario every run ends, and
    in every state where no node can move node 0's clock is [1,0] and node
    1's clock is [0,2]: the snapshot in the message is taken before node
    0's increment and is [0,0]; merging it into [0,0] and the increment
    inside [merge] give [0,1], which is what node 1 logs, and the
    increment after the log gives [0,2].  Each node has printed its one
    line; which of the two lines comes first is left open. *)
Theorem two_node_scenario_final_clocks :
  (∀ s, steps (main 2 scenario1) s → quiescent s →
     all_ended s ∧
     clock_of 0 s = Some [1; 0] ∧ clock_of 1 s = Some [0; 2] ∧
     lines_of 0 (stdout s) = [LogLine 0 1 [0; 0]] ∧
     lines_of 1 (stdout s) = [LogLine 1 2 [0; 1]]) ∧
  (∃ s, steps (main 2 scenario1) s ∧ quiescent s) ∧
  (∃ s m, steps (main 2 scenario1) s ∧ queues s !! 1%nat = Some [m] ∧
     Message.event_id m = 1 ∧
     VectorClock.values (heap s) (Message.clock m) = [0; 0]).
Proof.
  split_and!.
  - intros s Hs%steps_reach1 Hq. unfold reach1 in Hs.
    apply list_elem_of_fmap in Hs as (sched & -> & Hin).
    repeat (apply elem_of_cons in Hin as [->|Hin]);
      [..|by apply elem_of_nil in Hin];
      try (by pose proof (Hq 0%nat) as Hq0; vm_compute in Hq0);
      try (by pose proof (Hq 1%nat) as Hq1; vm_compute in Hq1).
    split_and!; [|vm_compute; reflexivity..].
    unfold all_ended. vm_compute. by repeat constructor.
  - exists (run_sched [0; 0; 1; 1; 1]%nat (main 2 scenario1)). split.
    + apply run_sched_steps. constructor.
    + intros [|[|i]]; vm_compute; reflexivity.
  - eexists (run_sched [0]%nat (main 2 scenario1)), _. split_and!.
    + apply run_sched_steps. constructor.
    + vm_compute. reflexivity.
    + reflexivity.
    + vm_compute. reflexivity.
Qed.

Lemma two_node_scenario_final_clocks_witness :
  let s := run_sched [0; 0; 1; 1; 1]%nat (main 2 scenario1) in
  all_ended s ∧
  clock_of 0 s = Some [1; 0] ∧ clock_of 1 s = Some [0; 2] ∧
  lines_of 0 (stdout s) = [LogLine 0 1 [0; 0]] ∧
  lines_of 1 (stdout s) = [LogLine 1 2 [0; 1]].
Proof.
  intros s. destruct two_node_scenario_final_clocks as [H _].
  apply (H s).
  - apply run_sched_steps. constructor.
  - intros [|[|i]]; vm_compute; reflexivity.
Defined.

(** C1, as stated, fails: the run of the two-node scenario in which node
    0 goes first ends with node 0 at [1,0] and node 1 at [0,2], not at
    [1,1]. *)
Lemma two_node_scenario_not_1_1 :
  ∃ s, steps (main 2 scenario1) s ∧ all_ended s ∧
    clock_of 0 s = Some [1; 0] ∧ clock_of 1 s = Some [0; 2] ∧
    clock_of 1 s ≠ Some [1; 1].
Proof.
  exists (run_sched [0; 0; 1; 1; 1]%nat (main 2 scenario1)). split_and!.
  - apply run_sched_steps. constructor.
  - unfold all_ended. vm_compute. by repeat constructor.
  - vm_compute. reflexivity.
  - vm_compute. reflexivity.
  - vm_compute. discriminate.
Qed.

(** ** The own slot of a node *)

Lemma own_slot_set n s i nd nd' s2 c :
  wf n s → nodes s !! i = Some nd → Node.clock nd' = Node.clock nd →
  nodes s2 = nodes s → heap s2 !! node_loc nd = Some c → length c = n →
  own_slot i (set_node i nd' s2) = c !! i.
Proof.
  intros Hwf Hnd Hclock Hnodes Hc Hlen.
  pose proof (wf_lt n s i nd Hwf Hnd) as Hi.
  destruct (wf_id n s Hwf i nd Hnd) as [_ Hid].
  unfold own_slot, set_node. cbn [nodes heap].
  rewrite Hnodes, list_lookup_insert_eq
    by (by rewrite (wf_nodes n s Hwf)).
  cbn [mbind option_bind]. rewrite Hclock, Hid. cbn [mbind option_bind].
  unfold VectorClock.values. fold (node_loc nd).
  rewrite (deref_Some _ _ _ Hc), Hlen, py_index_nat by done. done.
Qed.

Lemma control_of_set i nd' s :
  (i < length (nodes s))%nat →
  control_of i (set_node i nd' s) = Some (Node.control nd').
Proof.
  intros Hi. unfold control_of, set_node. cbn [nodes].
  by rewrite list_lookup_insert_eq.
Qed.

(** [log; inc] adds one to the own slot. *)
Lemma log_inc_own n s i nd ev rest s1 a :
  wf n s → nodes s !! i = Some nd → frame n nd s s1 →
  own_slot i s1 = Some a →
  ∃ s2, log_inc nd ev rest s1 = (Node.set_control (AtFor rest) nd, s2) ∧
    control_of i (set_node i (Node.set_control (AtFor rest) nd) s2)
    = Some (AtFor rest) ∧
    own_slot i (set_node i (Node.set_control (AtFor rest) nd) s2)
    = Some (a + 1).
Proof.
  intros Hwf Hnd (Hwf1 & Hnodes & _) Ha.
  assert (Hnd1 : nodes s1 !! i = Some nd) by (by rewrite Hnodes).
  destruct (log_inc_wf n s1 i nd ev rest Hwf1 Hnd1)
    as (c & v & Hc & Hlen & Hv & ->).
  rewrite (own_slot_at n s1 i nd c Hwf1 Hnd1 Hc), Hv in Ha.
  assert (v = a) as -> by congruence.
  eexists. split; [done|]. split.
  - apply control_of_set. cbn [nodes]. rewrite Hnodes.
    by eapply lookup_lt_Some.
  - rewrite (own_slot_set n s i nd _ _ (<[i := a + 1]> c)); try done.
    + apply list_lookup_insert_eq. by eapply lookup_lt_Some.
    + cbn [heap]. by rewrite lookup_insert_eq.
    + by rewrite length_insert.
Qed.

(** The step that takes an event from the script. *)
Lemma step_first_own n s i nd ev rest s' :
  wf n s → nodes s !! i = Some nd → Node.control nd = AtFor (ev :: rest) →
  step i s = Some s' →
  ∃ a, own_slot i s = Some a ∧
    ((control_of i s' = Some (AtFor rest) ∧ own_slot i s' = Some (a + 1) ∧
      (Event.type ev = "i" ∨ Event.type ev = "s" ∨
       (Event.type ev = "r" ∧
        Node.buffered nd (Event.dependency ev) = true))) ∨
     (control_of i s' = Some (InGet ev rest) ∧ own_slot i s' = Some a ∧
      Event.type ev = "r" ∧
      Node.buffered nd (Event.dependency ev) = false) ∨
     (control_of i s' = Some Exited ∨
      ∃ e, control_of i s' = Some (Uncaught e))).
Proof.
  intros Hwf Hnd Hctl Hstep.
  pose proof (wf_lt n s i nd Hwf Hnd) as Hi.
  assert (Hlen : (i < length (nodes s))%nat) by (by rewrite (wf_nodes n s Hwf)).
  destruct (wf_own_slot n s i nd Hwf Hnd) as (c & Hc & Hlenc & Hown).
  destruct (lookup_lt_is_Some_2 c i) as [a Ha]; [lia|].
  rewrite Ha in Hown. exists a. split; [done|].
  pose proof (frame_refl n nd s Hwf) as Hfr.
  revert Hstep. unfold step. rewrite Hnd. cbn [mbind option_bind]. rewrite Hctl.
  unfold run_event. repeat case_decide.
  - destruct (log_inc_own n s i nd ev rest s a Hwf Hnd Hfr Hown)
      as (s2 & -> & Hctl2 & Hown2).
    intros [= <-]. left. split_and!; auto.
  - destruct (Node.buffered nd _) eqn:Hbuf.
    + destruct (log_inc_own n s i nd ev rest s a Hwf Hnd Hfr Hown)
        as (s2 & -> & Hctl2 & Hown2).
      intros [= <-]. left. split_and!; auto.
    + intros [= <-]. right. left. split_and!; try done.
      * by apply control_of_set.
      * rewrite (own_slot_set n s i nd _ s c); try done.
  - destruct (send nd ev s) as [e|s1] eqn:Hsend.
    + intros [= <-]. right. right. right. exists e. by apply control_of_set.
    + pose proof (frame_send n s i nd ev s s1 Hnd Hfr Hsend) as Hf1.
      assert (Hown1 : own_slot i s1 = Some a).
      { destruct Hf1 as (Hwf1 & Hnodes1 & Hev1).
        destruct (Hev1 _ _ Hc) as (c' & Hc' & _ & Hle).
        destruct (send_wf n s i nd ev s1 Hwf Hnd Hsend)
          as (j & l & c0 & _ & Hl & Hc0 & _ & ->).
        rewrite (own_slot_at n _ i nd c); try done.
        cbn [heap set_queues set_heap]. rewrite lookup_insert_ne; [done|].
        congruence. }
      destruct (log_inc_own n s i nd ev rest s1 a Hwf Hnd Hf1 Hown1)
        as (s2 & -> & Hctl2 & Hown2).
      intros [= <-]. left. split_and!; auto.
  - intros [= <-]. right. right. left. by apply control_of_set.
Qed.

(** A step of any node: no own slot goes down, and the nodes that do not
    move keep their record and their own slot. *)
Lemma step_own_mono n s j s' i nd :
  wf n s → step j s = Some s' → nodes s !! i = Some nd →
  ∃ a b, own_slot i s = Some a ∧ own_slot i s' = Some b ∧ a ≤ b ∧
    (j ≠ i → b = a ∧ nodes s' !! i = Some nd).
Proof.
  intros Hwf Hstep Hnd.
  destruct (step_wf n s j s' Hwf Hstep)
    as (Hwf' & ndj & ndj' & Hj & Hnodes & _ & Hclock & Hev).
  destruct (wf_own_slot n s i nd Hwf Hnd) as (c & Hc & Hlen & Hown).
  pose proof (wf_lt n s i nd Hwf Hnd) as Hi.
  destruct (lookup_lt_is_Some_2 c i) as [a Ha]; [lia|].
  destruct (Hev _ _ Hc) as (c' & Hc' & Heq & Hle).
  destruct (lookup_lt_is_Some_2 c' i) as [b Hb].
  { rewrite <- (vc_le_length _ _ Hle). lia. }
  assert (Hnd' : ∃ nd', nodes s' !! i = Some nd' ∧ node_loc nd' = node_loc nd ∧
                        (j ≠ i → nd' = nd)).
  { rewrite Hnodes. destruct (decide (j = i)) as [->|Hne].
    - exists ndj'. rewrite list_lookup_insert_eq by (by eapply lookup_lt_Some).
      simplify_eq. unfold node_loc. by rewrite Hclock.
    - exists nd. by rewrite list_lookup_insert_ne. }
  destruct Hnd' as (nd' & Hnd' & Hloc & Hsame).
  exists a, b. split_and!.
  - by rewrite Hown.
  - rewrite (own_slot_at n s' i nd' c'); try done. by rewrite Hloc.
  - by eapply vc_le_lookup.
  - intros Hne. rewrite <- (Hsame Hne). split; [|done].
    assert (node_loc nd ≠ node_loc ndj) as Hsep.
    { intros Heq'. by apply Hne, eq_sym, (wf_sep n s Hwf i j nd ndj). }
    rewrite (Heq Hsep) in Hb. congruence.
Qed.

Lemma frame_merged n s i nd c c' :
  wf n s → nodes s !! i = Some nd → heap s !! node_loc nd = Some c →
  length c' = n → vc_le c c' →
  frame n nd s (set_heap (<[node_loc nd := c']> (heap s))
                  (set_queues (alter (drop 1) i (queues s)) s)).
Proof.
  intros Hwf Hnd Hc Hlen Hle. split_and!.
  - apply (wf_set_heap_own n (set_queues (alter (drop 1) i (queues s)) s) i nd);
      [by apply wf_dequeue | done | done].
  - done.
  - by apply (heap_evolves_own _ _ c).
Qed.

(** A step that dequeues a message: the merge adds at least one to the
    own slot, and when the message is the awaited one the event ends with
    one more. *)
Lemma step_receive_own n s i nd ev rest s' :
  wf n s → nodes s !! i = Some nd → Node.control nd = InGet ev rest →
  step i s = Some s' →
  ∃ a b, own_slot i s = Some a ∧ own_slot i s' = Some b ∧
    ((control_of i s' = Some (InGet ev rest) ∧ a + 1 ≤ b) ∨
     (control_of i s' = Some (AtFor rest) ∧ a + 2 ≤ b)).
Proof.
  intros Hwf Hnd Hctl Hstep.
  pose proof (wf_lt n s i nd Hwf Hnd) as Hi.
  assert (Hlen : (i < length (nodes s))%nat) by (by rewrite (wf_nodes n s Hwf)).
  revert Hstep. unfold step. rewrite Hnd. cbn [mbind option_bind].
  rewrite Hctl, (wf_own_queue n s i nd Hwf Hnd).
  destruct (queues s !! i) as [[|msg q]|] eqn:Hq; try done.
  destruct (receive_wf n s i nd ev rest msg q Hwf Hnd Hq)
    as (c & cm & v & Hc & Hcm & Hlenc & Hlenm & Hv & Hrec).
  cbv zeta in Hrec. rewrite Hrec. clear Hrec.
  destruct (lookup_lt_is_Some_2 c i) as [a Ha]; [lia|].
  destruct (lookup_lt_is_Some_2 cm i) as [x Hx]; [lia|].
  assert (v = Z.max a x) as ->.
  { rewrite lookup_zip_with, Ha in Hv. cbn in Hv. rewrite Hx in Hv.
    cbn in Hv. congruence. }
  set (c2 := <[i := Z.max a x + 1]> (zip_with Z.max c cm)).
  set (s2 := set_heap _ _).
  assert (Hlen2 : length c2 = n).
  { unfold c2. rewrite length_insert, length_zip_with. lia. }
  assert (Hle2 : vc_le c c2).
  { eapply vc_le_trans; [apply (vc_le_max_l c cm); lia|].
    apply (vc_le_insert _ _ (Z.max a x)); [done | lia]. }
  pose proof (frame_merged n s i nd c c2 Hwf Hnd Hc Hlen2 Hle2) as Hf2.
  fold s2 in Hf2.
  assert (Hc2 : heap s2 !! node_loc nd = Some c2).
  { unfold s2. cbn [heap set_heap]. by rewrite lookup_insert_eq. }
  assert (Hc2i : c2 !! i = Some (Z.max a x + 1)).
  { unfold c2. apply list_lookup_insert_eq.
    rewrite length_zip_with. lia. }
  case_decide.
  - intros [= <-]. exists a, (Z.max a x + 1). split_and!.
    + by rewrite (own_slot_at n s i nd c Hwf Hnd Hc).
    + rewrite (own_slot_set n s i nd _ s2 c2); try done.
    + left. split; [|lia]. rewrite control_of_set by done. by rewrite <- Hctl.
  - assert (Hown2 : own_slot i s2 = Some (Z.max a x + 1)).
    { destruct Hf2 as (Hwf2 & Hnodes2 & _).
      rewrite (own_slot_at n s2 i nd c2); try done. }
    destruct (log_inc_own n s i nd ev rest s2 _ Hwf Hnd Hf2 Hown2)
      as (s3 & -> & Hctl3 & Hown3).
    intros [= <-]. exists a, (Z.max a x + 1 + 1). split_and!.
    + by rewrite (own_slot_at n s i nd c Hwf Hnd Hc).
    + done.
    + right. split; [done | lia].
Qed.

Lemma control_of_Some i s k :
  control_of i s = Some k → ∃ nd, nodes s !! i = Some nd ∧ Node.control nd = k.
Proof.
  unfold control_of. destruct (nodes s !! i) as [nd|]; [|done].
  intros [= <-]. by exists nd.
Qed.

Lemma steps_own_mono n s s' i :
  wf n s → steps s s' → (i < n)%nat →
  ∃ a b, own_slot i s = Some a ∧ own_slot i s' = Some b ∧ a ≤ b.
Proof.
  intros Hwf Hsteps Hi.
  induction Hsteps as [|j s1 s2 Hsteps (a & b & Ha & Hb & Hab) Hstep].
  - destruct (lookup_lt_is_Some_2 (nodes s) i) as [nd Hnd].
    { by rewrite (wf_nodes n s Hwf). }
    destruct (wf_own_slot n s i nd Hwf Hnd) as (c & _ & Hlen & Hown).
    destruct (lookup_lt_is_Some_2 c i) as [a Ha]; [lia|].
    exists a, a. rewrite Hown. split_and!; [done.. | lia].
  - pose proof (steps_wf n s s1 Hwf Hsteps) as Hwf1.
    destruct (lookup_lt_is_Some_2 (nodes s1) i) as [nd Hnd].
    { by rewrite (wf_nodes n s1 Hwf1). }
    destruct (step_own_mono n s1 j s2 i nd Hwf1 Hstep Hnd)
      as (a1 & b2 & Ha1 & Hb2 & Hle & _).
    exists a, b2. split_and!; [done.. |]. assert (a1 = b) by congruence. lia.
Qed.

(** While node [i] is inside an event, and as it leaves it. *)
Lemma executing_own n i ev rest s s' nd :
  wf n s → nodes s !! i = Some nd → executing i ev rest s s' →
  wf n s' ∧
  ∃ a b, own_slot i s = Some a ∧ own_slot i s' = Some b ∧
    (control_of i s' = Some (InGet ev rest) →
     Event.type ev = "r" ∧
     Node.buffered nd (Event.dependency ev) = false ∧ a ≤ b) ∧
    (control_of i s' = Some (AtFor rest) →
     (b = a + 1 ∧
      (Event.type ev = "i" ∨ Event.type ev = "s" ∨
       (Event.type ev = "r" ∧
        Node.buffered nd (Event.dependency ev) = true))) ∨
     (a + 2 ≤ b ∧ Event.type ev = "r" ∧
      Node.buffered nd (Event.dependency ev) = false)).
Proof.
  intros Hwf Hnd Hex.
  induction Hex as [s' Hctl Hstep|s1 j s2 Hex IH Hctl1 Hstep].
  - destruct (step_wf n s i s' Hwf Hstep) as [Hwf' _]. split; [done|].
    apply control_of_Some in Hctl as (nd0 & Hnd0 & Hctl).
    assert (nd0 = nd) as -> by congruence.
    destruct (step_first_own n s i nd ev rest s' Hwf Hnd Hctl Hstep)
      as (a & Ha & Hcases).
    destruct (step_own_mono n s i s' i nd Hwf Hstep Hnd)
      as (a0 & b & Ha0 & Hb & Hab & _).
    assert (a0 = a) as -> by congruence.
    exists a, b. split_and!; [done..| |].
    + intros Hc. destruct Hcases as [(Hc' & _)|[(_ & Hb' & Hty & Hbuf)|[Hc'|[e Hc']]]];
        try congruence.
      split_and!; [done.. |]. lia.
    + intros Hc. destruct Hcases as [(_ & Hb' & Hty)|[(Hc' & _)|[Hc'|[e Hc']]]];
        try congruence.
      left. split; [congruence | done].
  - destruct IH as (Hwf1 & a & b1 & Ha & Hb1 & Hget & _).
    destruct (Hget Hctl1) as (Hty & Hbuf & Hab1).
    destruct (step_wf n s1 j s2 Hwf1 Hstep) as [Hwf2 _]. split; [done|].
    apply control_of_Some in Hctl1 as (nd1 & Hnd1 & Hctl1).
    destruct (decide (j = i)) as [->|Hne].
    + destruct (step_receive_own n s1 i nd1 ev rest s2 Hwf1 Hnd1 Hctl1 Hstep)
        as (a1 & b & Ha1 & Hb & Hcases).
      assert (a1 = b1) as -> by congruence.
      exists a, b. split_and!; [done..| |].
      * intros Hc. split_and!; [done..|].
        destruct Hcases as [(_ & Hle)|(_ & Hle)]; lia.
      * intros Hc. right. split_and!; [|done..].
        destruct Hcases as [(Hc' & _)|(_ & Hle)]; [congruence | lia].
    + destruct (step_own_mono n s1 j s2 i nd1 Hwf1 Hstep Hnd1)
        as (a1 & b & Ha1 & Hb & _ & Hsame).
      destruct (Hsame Hne) as [-> Hnd2].
      assert (a1 = b1) as -> by congruence.
      exists a, b1. split_and!; [done..| |].
      * intros _. by split_and!.
      * unfold control_of. rewrite Hnd2. cbn. rewrite Hctl1. done.
Qed.

(** C2, as the code has it.  In any run, the own slot of a node never
    goes down.  Between the state in which a node takes an event and the
    state in which it has executed it, the own slot grows by exactly 1 for
    an Independent event, for a Send event, and for a Receive event whose
    dependency is in the buffer; for a Receive event that reads the queue
    it grows by at least 2: every merge adds at least one, and one more is
    added after the log. *)
Theorem own_slot_growth n script :
  (∀ s s' i, steps (main n script) s → steps s s' → (i < n)%nat →
     ∃ a b, own_slot i s = Some a ∧ own_slot i s' = Some b ∧ a ≤ b) ∧
  (∀ s s' i nd ev rest,
     steps (main n script) s → nodes s !! i = Some nd →
     executed i ev rest s s' →
     ∃ a b, own_slot i s = Some a ∧ own_slot i s' = Some b ∧
       (Event.type ev = "i" → b = a + 1) ∧
       (Event.type ev = "s" → b = a + 1) ∧
       (Event.type ev = "r" →
        Node.buffered nd (Event.dependency ev) = true → b = a + 1) ∧
       (Event.type ev = "r" →
        Node.buffered nd (Event.dependency ev) = false → a + 2 ≤ b)).
Proof.
  split.
  - intros s s' i Hs Hs' Hi.
    apply (steps_own_mono n s s' i); [|done..].
    eapply steps_wf; [apply main_wf | done].
  - intros s s' i nd ev rest Hs Hnd [Hex Hctl].
    assert (Hwf : wf n s) by (eapply steps_wf; [apply main_wf | done]).
    destruct (executing_own n i ev rest s s' nd Hwf Hnd Hex)
      as (_ & a & b & Ha & Hb & _ & Hfor).
    exists a, b. split_and!; [done..| | | |].
    + intros Hty. destruct (Hfor Hctl) as [[-> _]|(_ & Hty' & _)]; [done|].
      rewrite Hty in Hty'. discriminate.
    + intros Hty. destruct (Hfor Hctl) as [[-> _]|(_ & Hty' & _)]; [done|].
      rewrite Hty in Hty'. discriminate.
    + intros Hty Hbuf.
      destruct (Hfor Hctl) as [[-> _]|(_ & _ & Hbuf')]; [done|]. congruence.
    + intros Hty Hbuf.
      destruct (Hfor Hctl) as [[_ [Hty'|[Hty'|[_ Hbuf']]]]|(Hle & _)];
        [| |congruence|done]; rewrite Hty in Hty'; discriminate.
Qed.

Lemma scenario1_receive_executed :
  executed 1 (Receive 2 1) []
    (run_sched [0]%nat (main 2 scenario1))
    (run_sched [0; 1; 1]%nat (main 2 scenario1)).
Proof.
  split; [|vm_compute; reflexivity].
  eapply (executing_more _ _ _ _ (run_sched [0; 1]%nat (main 2 scenario1)) 1%nat).
  - apply executing_first; vm_compute; reflexivity.
  - vm_compute. reflexivity.
  - vm_compute. reflexivity.
Qed.

Lemma own_slot_growth_witness :
  let s := run_sched [0]%nat (main 2 scenario1) in
  let s' := run_sched [0; 1; 1]%nat (main 2 scenario1) in
  let nd := Node.mk 1 (VectorClock.mk 1%nat (Some 1)) [Receive 2 1] []
              (AtFor [Receive 2 1]) in
  ∃ a b, own_slot 1 s = Some a ∧ own_slot 1 s' = Some b ∧
    (Event.type (Receive 2 1) = "i" → b = a + 1) ∧
    (Event.type (Receive 2 1) = "s" → b = a + 1) ∧
    (Event.type (Receive 2 1) = "r" →
     Node.buffered nd (Event.dependency (Receive 2 1)) = true → b = a + 1) ∧
    (Event.type (Receive 2 1) = "r" →
     Node.buffered nd (Event.dependency (Receive 2 1)) = false → a + 2 ≤ b).
Proof.
  intros s s' nd.
  destruct (own_slot_growth 2 scenario1) as [_ H].
  apply (H s s' 1%nat nd (Receive 2 1) []).
  - apply run_sched_steps. constructor.
  - vm_compute. reflexivity.
  - apply scenario1_receive_executed.
Defined.

(** C2, as stated, fails: in the two-node scenario node 1 executes its
    Receive event from a state where its own slot is 0 to a state where
    it is 2. *)
Lemma receive_grows_own_slot_by_two :
  ∃ s s', steps (main 2 scenario1) s ∧
    executed 1 (Receive 2 1) [] s s' ∧
    own_slot 1 s = Some 0 ∧ own_slot 1 s' = Some 2 ∧
    own_slot 1 s' ≠ Some (0 + 1).
Proof.
  exists (run_sched [0]%nat (main 2 scenario1)),
         (run_sched [0; 1; 1]%nat (main 2 scenario1)).
  split_and!.
  - apply run_sched_steps. constructor.
  - apply scenario1_receive_executed.
  - vm_compute. reflexivity.
  - vm_compute. reflexivity.
  - vm_compute. discriminate.
Qed.

(** ** The record of a run *)

(** A step that sends. *)
Lemma step_sent n s j s' m snap :
  wf n s → step j s = Some s' → sends j s = Some (m, snap) →
  gets j s = None ∧
  ∃ nd r, nodes s !! j = Some nd ∧
    heap s !! msg_loc m = None ∧ heap s !! node_loc nd = Some snap ∧
    heap s' !! msg_loc m = Some snap ∧
    queues s' = alter (λ q, q ++ [m]) r (queues s).
Proof.
  intros Hwf Hstep Hsends. revert Hsends Hstep. unfold sends, gets, step.
  destruct (nodes s !! j) as [nd|] eqn:Hnd; [|done]. cbn [mbind option_bind].
  destruct (Node.control nd) as [[|ev rest]|ev rest| | |e] eqn:Hctl; try done.
  case_decide as Hty; [|done].
  destruct (send nd ev s) as [e|s1] eqn:Hsend; [done|].
  destruct (wf_clock n s Hwf j nd Hnd) as (c & Hc & Hlen).
  destruct (copy_spec (heap s) (Node.clock nd) c Hc) as (l & Hl & Hcopy).
  destruct (send_shape nd ev s s1 Hsend) as (Hn1 & _ & r & _ & Hh1 & Hq1).
  rewrite Hcopy in Hh1, Hq1. rewrite Hcopy. cbn [fst snd] in *.
  intros [= <- <-]. unfold run_event. rewrite Hty, Hsend.
  rewrite decide_False by done. rewrite decide_False by done.
  rewrite decide_True by done.
  pose proof (frame_send n s j nd ev s s1 Hnd (frame_refl n nd s Hwf) Hsend)
    as (Hwf1 & _ & _).
  assert (Hnd1 : nodes s1 !! j = Some nd) by (by rewrite Hn1).
  destruct (log_inc_wf n s1 j nd ev rest Hwf1 Hnd1)
    as (c1 & v & Hc1 & _ & Hv & ->).
  intros [= <-]. split; [done|]. exists nd, r.
  unfold msg_loc, VectorClock.values. cbn. fold (node_loc nd).
  rewrite (deref_Some _ _ _ Hc).
  split_and!; try done.
  rewrite lookup_insert_ne by congruence. rewrite Hh1.
  by rewrite lookup_insert_eq.
Qed.

(** A step that dequeues. *)
Lemma step_got n s j s' m :
  wf n s → step j s = Some s' → gets j s = Some m →
  sends j s = None ∧
  ∃ nd q cm c', nodes s !! j = Some nd ∧
    queues s !! j = Some (m :: q) ∧
    queues s' = alter (drop 1) j (queues s) ∧
    heap s !! msg_loc m = Some cm ∧
    heap s' !! node_loc nd = Some c' ∧ vc_le cm c'.
Proof.
  intros Hwf Hstep Hgets. revert Hgets Hstep. unfold sends, gets, step.
  destruct (nodes s !! j) as [nd|] eqn:Hnd; [|done]. cbn [mbind option_bind].
  destruct (Node.control nd) as [[|ev rest]|ev rest| | |e] eqn:Hctl; try done.
  rewrite (wf_own_queue n s j nd Hwf Hnd). cbn [mbind option_bind].
  destruct (queues s !! j) as [[|msg q]|] eqn:Hq; try done.
  cbn [mbind option_bind head]. intros [= ->].
  destruct (receive_wf n s j nd ev rest m q Hwf Hnd Hq)
    as (c & cm & v & Hc & Hcm & Hlenc & Hlenm & Hv & Hrec).
  cbv zeta in Hrec. rewrite Hrec. clear Hrec.
  set (c2 := <[j := v + 1]> (zip_with Z.max c cm)).
  set (s2 := set_heap _ _).
  assert (Hle : vc_le cm c2).
  { eapply vc_le_trans; [apply (vc_le_max_r c cm); lia|].
    apply (vc_le_insert _ _ v); [done | lia]. }
  assert (Hlen2 : length c2 = n).
  { unfold c2. rewrite length_insert, length_zip_with. lia. }
  assert (Hle2 : vc_le c c2).
  { eapply vc_le_trans; [apply (vc_le_max_l c cm); lia|].
    apply (vc_le_insert _ _ v); [done | lia]. }
  pose proof (frame_merged n s j nd c c2 Hwf Hnd Hc Hlen2 Hle2) as Hf2.
  fold s2 in Hf2. destruct Hf2 as (Hwf2 & Hn2 & _).
  assert (Hc2 : heap s2 !! node_loc nd = Some c2).
  { unfold s2. cbn [heap set_heap]. by rewrite lookup_insert_eq. }
  case_decide.
  - intros [= <-]. split; [done|]. exists nd, q, cm, c2. by split_and!.
  - assert (Hnd2 : nodes s2 !! j = Some nd) by (by rewrite Hn2).
    destruct (log_inc_wf n s2 j nd ev rest Hwf2 Hnd2)
      as (c3 & v3 & Hc3 & _ & Hv3 & ->).
    assert (c3 = c2) as -> by congruence.
    intros [= <-]. split; [done|].
    exists nd, q, cm, (<[j := v3 + 1]> c2). cbn [heap queues set_node].
    split_and!; try done.
    + by rewrite lookup_insert_eq.
    + eapply vc_le_trans; [done|].
      apply (vc_le_insert _ _ v3); [done | lia].
Qed.

(** A step that neither sends nor dequeues leaves the queues alone. *)
Lemma step_quiet j s s' :
  step j s = Some s' → sends j s = None → gets j s = None →
  queues s' = queues s.
Proof.
  unfold sends, gets, step.
  destruct (nodes s !! j) as [nd|] eqn:Hnd; [|done]. cbn [mbind option_bind].
  destruct (Node.control nd) as [[|ev rest]|ev rest| | |e] eqn:Hctl; try done.
  - by intros [= <-].
  - intros Hstep Hsends _. revert Hstep. unfold run_event.
    destruct (decide (Event.type ev = "i")) as [Hi|Hi].
    { destruct (log_inc nd ev rest s) as [nd' s1] eqn:Hli.
      apply log_inc_shape in Hli as (_ & Hq & _). by intros [= <-]. }
    destruct (decide (Event.type ev = "r")) as [Hr|Hr].
    { destruct (Node.buffered nd _); [|by intros [= <-]].
      destruct (log_inc nd ev rest s) as [nd' s1] eqn:Hli.
      apply log_inc_shape in Hli as (_ & Hq & _). by intros [= <-]. }
    destruct (decide (Event.type ev = "s")) as [Hs|Hs]; [|by intros [= <-]].
    destruct (send nd ev s) as [e|s1]; [by intros [= <-] | done].
  - intros Hstep _. revert Hstep.
    destruct (py_index _ _) as [r|]; cbn [mbind option_bind].
    + destruct (queues s !! r) as [[|msg q]|]; try done.
    + by intros [= <-].
Qed.

Lemma step_nodes_loc j s s' k :
  step j s = Some s' →
  (∀ nd, nodes s !! k = Some nd →
     ∃ nd', nodes s' !! k = Some nd' ∧ node_loc nd' = node_loc nd) ∧
  (∀ nd', nodes s' !! k = Some nd' →
     ∃ nd, nodes s !! k = Some nd ∧ node_loc nd' = node_loc nd ∧
       (Node.buffer nd' = Node.buffer nd ∨
        ∃ m, k = j ∧ gets j s = Some m ∧
             Node.buffer nd' = Node.buffer nd ++ [Message.event_id m])).
Proof.
  intros Hstep.
  destruct (step_shape j s s' Hstep)
    as (ndj & ndj' & Hj & Hnodes & _ & Hclock & _ & Hbuf).
  assert (Hloc : node_loc ndj' = node_loc ndj)
    by (unfold node_loc; by rewrite Hclock).
  rewrite Hnodes. destruct (decide (j = k)) as [<-|Hne].
  - rewrite list_lookup_insert_eq by (by eapply lookup_lt_Some). split.
    + intros nd Hnd. simplify_eq. by exists ndj'.
    + intros nd' [= <-]. exists ndj. split_and!; [done..|].
      destruct Hbuf as [Hbuf|(m & Hm & Hbuf)]; [by left|].
      right. by exists m.
  - rewrite list_lookup_insert_ne by done. split.
    + intros nd Hnd. by exists nd.
    + intros nd' Hnd'. exists nd'. split_and!; auto.
Qed.

Lemma actions_cases j s :
  (∃ m snap, sends j s = Some (m, snap) ∧ gets j s = None ∧
             actions j s = [Sent j m snap]) ∨
  (∃ m, gets j s = Some m ∧ sends j s = None ∧ actions j s = [Got j m]) ∨
  (sends j s = None ∧ gets j s = None ∧ actions j s = []).
Proof.
  unfold actions, sends, gets.
  destruct (nodes s !! j) as [nd|]; cbn [mbind option_bind]; [|by right; right].
  destruct (Node.control nd) as [[|ev rest]|ev rest| | |e];
    try (by right; right).
  - case_decide; [|by right; right].
    destruct (send nd ev s); [by right; right|]. left. by eexists _, _.
  - destruct (py_index _ _) as [r|]; cbn [mbind option_bind];
      [|by right; right].
    destruct (queues s !! r) as [[|m q]|]; cbn [mbind option_bind head];
      try (by right; right).
    right. left. by exists m.
Qed.

(** A step keeps the record of the run true. *)
Lemma recorded_step n hist s j s' :
  wf n s → recorded hist s → step j s = Some s' →
  recorded (hist ++ actions j s) s'.
Proof.
  intros Hwf Hrec Hstep.
  destruct (step_wf n s j s' Hwf Hstep)
    as (Hwf' & ndj & ndj' & Hj & _ & _ & _ & Hev).
  pose proof (λ k, step_nodes_loc j s s' k Hstep) as Hloc.
  assert (Hold_sent : ∀ S m snap, Sent S m snap ∈ hist →
            heap s' !! msg_loc m = Some snap ∧
            ∀ k nd, nodes s' !! k = Some nd → node_loc nd ≠ msg_loc m).
  { intros S m snap Hin.
    destruct (rec_sent hist s Hrec S m snap Hin) as [Hm Hsep]. split.
    - destruct (Hev _ _ Hm) as (c' & Hc' & Heq & _). rewrite Hc', Heq; [done|].
      intros Heq'. by apply (Hsep j ndj Hj).
    - intros k nd' Hk. destruct (Hloc k) as [_ Hback].
      destruct (Hback nd' Hk) as (nd & Hnd & -> & _). by apply (Hsep k). }
  assert (Hold_got : ∀ i m, Got i m ∈ hist →
            ∃ nd c cm, nodes s' !! i = Some nd ∧
              heap s' !! node_loc nd = Some c ∧
              heap s' !! msg_loc m = Some cm ∧ vc_le cm c).
  { intros i m Hin.
    destruct (rec_got hist s Hrec i m Hin)
      as [(S & snap & Hsent) (nd & c & cm & Hnd & Hc & Hcm & Hle)].
    destruct (Hold_sent S m snap Hsent) as [Hm' _].
    destruct (rec_sent hist s Hrec S m snap Hsent) as [Hm _].
    assert (cm = snap) as -> by congruence.
    destruct (Hloc i) as [Hfwd _]. destruct (Hfwd nd Hnd) as (nd' & Hnd' & Hl).
    destruct (Hev _ _ Hc) as (c' & Hc' & _ & Hle').
    exists nd', c', snap. rewrite Hl. split_and!; try done.
    by eapply vc_le_trans. }
  destruct (actions_cases j s)
    as [(m & snap & Hsends & Hgets & ->)|[(m & Hgets & Hsends & ->)|
        (Hsends & Hgets & ->)]].
  - (* a send *)
    destruct (step_sent n s j s' m snap Hwf Hstep Hsends)
      as (_ & nd & r & Hnd & Hfresh & Hc & Hm' & Hq).
    constructor.
    + intros S m0 snap0 [Hin|Hin%list_elem_of_singleton]%elem_of_app;
        [by eapply Hold_sent|]. simplify_eq. split; [done|].
      intros k nd' Hk. destruct (Hloc k) as [_ Hback].
      destruct (Hback nd' Hk) as (nd0 & Hnd0 & -> & _).
      destruct (wf_clock n s Hwf k nd0 Hnd0) as (c0 & Hc0 & _). congruence.
    + intros k q m0. rewrite Hq. intros Hk Hin.
      destruct (decide (r = k)) as [<-|Hne].
      * rewrite list_lookup_alter_eq in Hk.
        destruct (queues s !! r) as [q0|] eqn:Hq0; simplify_eq/=.
        apply elem_of_app in Hin as [Hin|Hin%list_elem_of_singleton].
        -- destruct (rec_queued hist s Hrec r q0 m0 Hq0 Hin) as (S & sn & Hs).
           exists S, sn. apply elem_of_app. by left.
        -- subst m0. exists j, snap. apply elem_of_app. right.
           apply list_elem_of_here.
      * rewrite list_lookup_alter_ne in Hk by done.
        destruct (rec_queued hist s Hrec k q m0 Hk Hin) as (S & sn & Hs).
        exists S, sn. apply elem_of_app. by left.
    + intros i m0 [Hin|Hin%list_elem_of_singleton]%elem_of_app; [|done].
      split; [|by apply Hold_got].
      destruct (rec_got hist s Hrec i m0 Hin) as [(S & sn & Hs) _].
      exists S, sn. apply elem_of_app. by left.
    + intros i nd' d Hi Hd. destruct (Hloc i) as [_ Hback].
      destruct (Hback nd' Hi) as (nd0 & Hnd0 & _ & [Hb|(m1 & _ & Hm1 & _)]);
        [|congruence].
      rewrite Hb in Hd.
      destruct (rec_buffer hist s Hrec i nd0 d Hnd0 Hd) as (m1 & Hm1 & Hid).
      exists m1. split; [|done]. apply elem_of_app. by left.
  - (* a dequeue *)
    destruct (step_got n s j s' m Hwf Hstep Hgets)
      as (_ & nd & q & cm & c' & Hnd & Hq & Hq' & Hcm & Hc' & Hle).
    destruct (rec_queued hist s Hrec j (m :: q) m Hq) as (S & snap & Hsent);
      [apply list_elem_of_here|].
    constructor.
    + intros S0 m0 snap0 [Hin|Hin%list_elem_of_singleton]%elem_of_app;
        [by eapply Hold_sent | done].
    + intros k q0 m0. rewrite Hq'. intros Hk Hin.
      assert (∃ q1, queues s !! k = Some q1 ∧ m0 ∈ q1) as (q1 & Hq1 & Hin1).
      { destruct (decide (j = k)) as [<-|Hne].
        - rewrite list_lookup_alter_eq, Hq in Hk. simplify_eq/=.
          exists (m :: q). split; [done|]. by apply list_elem_of_further.
        - rewrite list_lookup_alter_ne in Hk by done. by exists q0. }
      destruct (rec_queued hist s Hrec k q1 m0 Hq1 Hin1) as (S1 & sn & Hs).
      exists S1, sn. apply elem_of_app. by left.
    + intros i m0 [Hin|Hin%list_elem_of_singleton]%elem_of_app.
      * split; [|by apply Hold_got].
        destruct (rec_got hist s Hrec i m0 Hin) as [(S1 & sn & Hs) _].
        exists S1, sn. apply elem_of_app. by left.
      * assert (i = j ∧ m0 = m) as [-> ->] by (by inversion Hin).
        split.
        -- exists S, snap. apply elem_of_app. by left.
        -- destruct (Hold_sent S m snap Hsent) as [Hm' _].
           destruct (rec_sent hist s Hrec S m snap Hsent) as [Hm _].
           assert (cm = snap) as -> by congruence.
           destruct (Hloc j) as [Hfwd _].
           destruct (Hfwd nd Hnd) as (nd' & Hnd' & Hl).
           exists nd', c', snap. rewrite Hl. by split_and!.
    + intros i nd' d Hi Hd. destruct (Hloc i) as [_ Hback].
      destruct (Hback nd' Hi) as (nd0 & Hnd0 & _ & [Hb|(m1 & -> & Hm1 & Hb)]).
      * rewrite Hb in Hd.
        destruct (rec_buffer hist s Hrec i nd0 d Hnd0 Hd) as (m1 & Hm1 & Hid).
        exists m1. split; [|done]. apply elem_of_app. by left.
      * assert (m1 = m) as -> by congruence. rewrite Hb in Hd.
        apply elem_of_app in Hd as [Hd|Hd%list_elem_of_singleton].
        -- destruct (rec_buffer hist s Hrec j nd0 d Hnd0 Hd)
             as (m2 & Hm2 & Hid).
           exists m2. split; [|done]. apply elem_of_app. by left.
        -- exists m. split; [|done]. apply elem_of_app. right.
           apply list_elem_of_here.
  - (* neither *)
    rewrite app_nil_r.
    pose proof (step_quiet j s s' Hstep Hsends Hgets) as Hq.
    constructor.
    + done.
    + intros k q m. rewrite Hq. by apply (rec_queued hist s Hrec).
    + intros i m Hin. split; [|by apply Hold_got].
      by destruct (rec_got hist s Hrec i m Hin).
    + intros i nd' d Hi Hd. destruct (Hloc i) as [_ Hback].
      destruct (Hback nd' Hi) as (nd0 & Hnd0 & _ & [Hb|(m1 & _ & Hm1 & _)]);
        [|congruence].
      rewrite Hb in Hd. by apply (rec_buffer hist s Hrec i nd0).
Qed.

Lemma main_recorded n script : recorded [] (main n script).
Proof.
  constructor.
  - intros S m snap Hin. by apply elem_of_nil in Hin.
  - intros k q m Hq Hm. unfold main in Hq.
    destruct (make_nodes n script (seq 0 n) ∅) as [nds h]. cbn [queues] in Hq.
    apply lookup_replicate in Hq as [-> _]. by apply elem_of_nil in Hm.
  - intros i m Hin. by apply elem_of_nil in Hin.
  - intros i nd d Hnd Hd. destruct (main_node n script i nd Hnd) as (Hb & _).
    rewrite Hb in Hd. by apply elem_of_nil in Hd.
Qed.

Lemma run_recorded n script hist s :
  run (main n script) hist s → wf n s ∧ recorded hist s.
Proof.
  induction 1 as [|hist s1 i s2 _ [Hwf Hrec] Hstep].
  - split; [apply main_wf | apply main_recorded].
  - split; [by apply (step_wf n s1 i s2) | by eapply recorded_step].
Qed.

(** The step that ends a Receive event after a dequeue took the awaited
    message. *)
Lemma step_receive_done n s i nd ev rest s' :
  wf n s → nodes s !! i = Some nd → Node.control nd = InGet ev rest →
  step i s = Some s' → control_of i s' = Some (AtFor rest) →
  ∃ m, gets i s = Some m ∧ Some (Message.event_id m) = Event.dependency ev.
Proof.
  intros Hwf Hnd Hctl Hstep Hdone.
  assert (Hlen : (i < length (nodes s))%nat) by (by eapply lookup_lt_Some).
  revert Hstep. unfold gets, step. rewrite Hnd. cbn [mbind option_bind].
  rewrite Hctl, (wf_own_queue n s i nd Hwf Hnd). cbn [mbind option_bind].
  destruct (queues s !! i) as [[|msg q]|] eqn:Hq; try done.
  cbn [mbind option_bind head].
  destruct (receive_wf n s i nd ev rest msg q Hwf Hnd Hq)
    as (c & cm & v & _ & _ & _ & _ & _ & Hrec).
  cbv zeta in Hrec. rewrite Hrec. clear Hrec.
  case_decide as Hdep.
  - intros [= <-]. rewrite control_of_set in Hdone by done.
    cbn in Hdone. congruence.
  - intros _. exists msg. split; [done|].
    by destruct (decide (Some (Message.event_id msg) = Event.dependency ev)).
Qed.

(** C6.  When node [i] completes a Receive event with dependency [d], it
    has dequeued a message with the id [d], which some node [S] sent with
    the snapshot of its clock at that Send event; and for every such
    message the message still holds that snapshot and the receiver's
    clock is at or above it in every slot. *)
Theorem causal_dominance n script hist s i nd ev rest d s' :
  run (main n script) hist s →
  nodes s !! i = Some nd →
  Node.control nd = AtFor (ev :: rest) ∨ Node.control nd = InGet ev rest →
  Event.type ev = "r" → Event.dependency ev = Some d →
  step i s = Some s' →
  control_of i s' = Some (AtFor rest) →
  (∃ S m snap, Got i m ∈ hist ++ actions i s ∧ Message.event_id m = d ∧
     Sent S m snap ∈ hist ++ actions i s) ∧
  (∀ S m snap, Got i m ∈ hist ++ actions i s → Message.event_id m = d →
     Sent S m snap ∈ hist ++ actions i s →
     VectorClock.values (heap s') (Message.clock m) = snap ∧
     vc_le snap (VectorClock.values (heap s') (Node.clock nd))).
Proof.
  intros Hrun Hnd Hctl Hty Hdep Hstep Hdone.
  destruct (run_recorded n script hist s Hrun) as [Hwf Hrec].
  pose proof (recorded_step n hist s i s' Hwf Hrec Hstep) as Hrec'.
  split.
  - assert (∃ m, Got i m ∈ hist ++ actions i s ∧ Message.event_id m = d)
      as (m & Hgot & Hid).
    { destruct Hctl as [Hctl|Hctl].
      - destruct (step_first_own n s i nd ev rest s' Hwf Hnd Hctl Hstep)
          as (a & _ & [(_ & _ & Hcase)|[(Hc & _)|[Hc|[e Hc]]]]);
          try congruence.
        destruct Hcase as [Hi|[Hs|[_ Hbuf]]];
          [rewrite Hty in Hi; discriminate
          |rewrite Hty in Hs; discriminate|].
        rewrite Hdep in Hbuf. apply buffered_spec in Hbuf.
        destruct (rec_buffer hist s Hrec i nd d Hnd Hbuf) as (m & Hm & Hid).
        exists m. split; [|done]. apply elem_of_app. by left.
      - destruct (step_receive_done n s i nd ev rest s' Hwf Hnd Hctl Hstep
                    Hdone) as (m & Hgets & Hm).
        exists m. split; [|congruence].
        apply elem_of_app. right. unfold actions. rewrite Hgets. cbn.
        apply elem_of_app. right. apply list_elem_of_here. }
    destruct (rec_got _ s' Hrec' i m Hgot) as [(S & snap & Hsent) _].
    by exists S, m, snap.
  - intros S m snap Hgot Hid Hsent.
    destruct (rec_got _ s' Hrec' i m Hgot)
      as [_ (nd' & c & cm & Hnd' & Hc & Hcm & Hle)].
    destruct (rec_sent _ s' Hrec' S m snap Hsent) as [Hm _].
    assert (cm = snap) as -> by congruence.
    destruct (step_nodes_loc i s s' i Hstep) as [Hfwd _].
    destruct (Hfwd nd Hnd) as (nd0 & Hnd0 & Hloc).
    assert (nd0 = nd') as -> by congruence.
    unfold VectorClock.values. fold (msg_loc m) (node_loc nd).
    rewrite (deref_Some _ _ _ Hm), <- Hloc, (deref_Some _ _ _ Hc). done.
Qed.

Lemma causal_dominance_witness :
  let s0 := main 2 scenario1 in
  let s1 := run_sched [0]%nat s0 in
  let s2 := run_sched [0; 1]%nat s0 in
  let s3 := run_sched [0; 1; 1]%nat s0 in
  let hist := ([] ++ actions 0 s0) ++ actions 1 s1 in
  let nd := Node.mk 1 (VectorClock.mk 1%nat (Some 1)) [Receive 2 1] []
              (InGet (Receive 2 1) []) in
  (∃ S m snap, Got 1 m ∈ hist ++ actions 1 s2 ∧ Message.event_id m = 1 ∧
     Sent S m snap ∈ hist ++ actions 1 s2) ∧
  (∀ S m snap, Got 1 m ∈ hist ++ actions 1 s2 → Message.event_id m = 1 →
     Sent S m snap ∈ hist ++ actions 1 s2 →
     VectorClock.values (heap s3) (Message.clock m) = snap ∧
     vc_le snap (VectorClock.values (heap s3) (Node.clock nd))).
Proof.
  intros s0 s1 s2 s3 hist nd.
  apply (causal_dominance 2%nat scenario1 hist s2 1%nat nd (Receive 2 1) []
           1 s3).
  - apply (run_step s0 _ s1 1%nat s2); [|vm_compute; reflexivity].
    apply (run_step s0 _ s0 0%nat s1); [|vm_compute; reflexivity].
    apply run_nil.
  - vm_compute. reflexivity.
  - right. reflexivity.
  - reflexivity.
  - reflexivity.
  - vm_compute. reflexivity.
  - vm_compute. reflexivity.
Defined.

Example ex_causal_dominance :
  let s0 := main 2 scenario1 in
  let s3 := run_sched [0; 1; 1]%nat s0 in
  actions 0 s0 = [Sent 0 (Message.mk 1 (VectorClock.mk 2%nat None)) [0; 0]] ∧
  actions 1 (run_sched [0; 1]%nat s0)
  = [Got 1 (Message.mk 1 (VectorClock.mk 2%nat None))] ∧
  deref (heap s3) 2%nat = [0; 0] ∧ clock_of 1 s3 = Some [0; 2].
Proof. cbv zeta. split_and!; vm_compute; reflexivity. Qed.

(** * Further properties of the code *)

(** ** VectorClock: the edges of [inc] and [merge] *)

(** [inc] on a clock of [N] slots returns normally exactly when the id is
    an integer in [-N, N): it then adds one to the slot the id designates
    (counting from the end when negative) and changes nothing else.  With
    the id [None] it raises [TypeError], with any other integer
    [IndexError], and the store is left as it was. *)
Theorem inc_outcomes (h : Heap) (self : VectorClock.t) l :
  h !! VectorClock.clock self = Some l →
  match VectorClock.id self with
  | None => VectorClock.inc h self = Raises TypeError h
  | Some k =>
      if decide (- Z.of_nat (length l) ≤ k < Z.of_nat (length l)) then
        ∃ j v, Z.of_nat j = k `mod` Z.of_nat (length l) ∧ l !! j = Some v ∧
          VectorClock.inc h self
          = Returns (<[VectorClock.clock self := <[j := v + 1]> l]> h)
      else VectorClock.inc h self = Raises IndexError h
  end.
Proof.
  intros Hl. unfold VectorClock.inc. rewrite (deref_Some _ _ _ Hl).
  destruct (VectorClock.id self) as [k|]; [|done].
  unfold py_subscript, py_index. case_decide as Hin.
  - destruct (decide (0 ≤ k < Z.of_nat (length l))) as [Hpos|Hneg].
    + destruct (lookup_lt_is_Some_2 l (Z.to_nat k)) as [v Hv]; [lia|].
      exists (Z.to_nat k), v. rewrite Hv. split_and!; [|done..].
      rewrite Z.mod_small by lia. lia.
    + rewrite decide_True by lia.
      destruct (lookup_lt_is_Some_2 l (Z.to_nat (Z.of_nat (length l) + k)))
        as [v Hv]; [lia|].
      eexists _, v. rewrite Hv. split_and!; [|done..].
      rewrite <- (Z.mod_add k 1) by lia. rewrite Z.mod_small by lia. lia.
  - rewrite decide_False by lia. by rewrite decide_False by lia.
Qed.

Lemma inc_outcomes_witness :
  let h : Heap := <[0%nat := [3; 1; 4]]> ∅ in
  let self := VectorClock.mk 0%nat (Some (-1)) in
  match VectorClock.id self with
  | None => VectorClock.inc h self = Raises TypeError h
  | Some k =>
      if decide (- Z.of_nat (length [3; 1; 4]) ≤ k
                 < Z.of_nat (length [3; 1; 4])) then
        ∃ j v, Z.of_nat j = k `mod` Z.of_nat (length [3; 1; 4]) ∧
          [3; 1; 4] !! j = Some v ∧
          VectorClock.inc h self
          = Returns (<[VectorClock.clock self := <[j := v + 1]> [3; 1; 4]]> h)
      else VectorClock.inc h self = Raises IndexError h
  end.
Proof.
  intros h self. apply (inc_outcomes h self [3; 1; 4]). reflexivity.
Defined.

Example ex_inc_negative_id :
  let h : Heap := <[0%nat := [3; 1; 4]]> ∅ in
  (deref (heap_of (VectorClock.inc h (VectorClock.mk 0%nat (Some (-1))))) 0%nat,
   VectorClock.inc h (VectorClock.mk 0%nat (Some 3)),
   VectorClock.inc h (VectorClock.mk 0%nat None))
  = ([3; 1; 5], Raises IndexError h, Raises TypeError h).
Proof. vm_compute. reflexivity. Qed.

(** The loop of [merge] when [other] is the shorter list: the slots below
    [len(other)] are overwritten, then the read of [other] fails. *)
Lemma merge_loop_short (self other : VectorClock.t) (lo : list Z) m :
  ∀ k (h : Heap) ls,
    VectorClock.clock self ≠ VectorClock.clock other →
    h !! VectorClock.clock self = Some ls →
    h !! VectorClock.clock other = Some lo →
    (k + m = length ls)%nat → (k ≤ length lo < length ls)%nat →
    VectorClock.merge_loop h self other (seq k m)
    = Raises IndexError
        (<[VectorClock.clock self :=
             take k ls ++ zip_with Z.max (drop k ls) (drop k lo)
               ++ drop (length lo) ls]> h).
Proof.
  induction m as [|m IH]; intros k h ls Hne Hs Ho Hkm Hlen; [lia|].
  cbn [seq VectorClock.merge_loop].
  rewrite (deref_Some _ _ _ Hs), (deref_Some _ _ _ Ho).
  destruct (lookup_lt_is_Some_2 ls k) as [a Ha]; [lia|]. rewrite Ha.
  destruct (decide (k = length lo)) as [->|Hk].
  - rewrite (lookup_ge_None_2 lo (length lo)) by lia.
    rewrite (drop_ge lo) by lia. rewrite zip_with_nil_r. cbn [app].
    by rewrite take_drop, insert_id.
  - destruct (lookup_lt_is_Some_2 lo k) as [b Hb]; [lia|]. rewrite Hb.
    rewrite (IH (S k) _ (<[k := Z.max a b]> ls)); try done.
    + rewrite insert_insert_eq. do 2 f_equal.
      rewrite (take_S_r _ _ (Z.max a b))
        by (by rewrite list_lookup_insert_eq by lia).
      rewrite take_insert_ge by lia.
      rewrite !drop_insert_lt by lia.
      rewrite (drop_S ls a k Ha), (drop_S lo b k Hb). cbn.
      by rewrite <- app_assoc.
    + by rewrite lookup_insert_eq.
    + by rewrite lookup_insert_ne.
    + rewrite length_insert. lia.
    + rewrite length_insert. lia.
Qed.

(** [merge] with an [other] that has fewer slots than [self] raises
    [IndexError], and not before it has overwritten the first
    [len(other)] slots of [self] with the maxima; the own slot is not
    incremented, and [other] is unchanged. *)
Theorem merge_shorter_other_raises (h : Heap) (self other : VectorClock.t) ls lo :
  VectorClock.clock self ≠ VectorClock.clock other →
  h !! VectorClock.clock self = Some ls →
  h !! VectorClock.clock other = Some lo →
  (length lo < length ls)%nat →
  VectorClock.merge h self other
  = Raises IndexError
      (<[VectorClock.clock self :=
           zip_with Z.max ls lo ++ drop (length lo) ls]> h).
Proof.
  intros Hne Hs Ho Hlen. unfold VectorClock.merge.
  rewrite (deref_Some _ _ _ Hs).
  rewrite (merge_loop_short self other lo _ 0%nat h ls) by (done || lia).
  by rewrite take_0, !drop_0.
Qed.

Lemma merge_shorter_other_raises_witness :
  let h : Heap := <[0%nat := [3; 1; 4]]> (<[1%nat := [5; 0]]> ∅) in
  let self := VectorClock.mk 0%nat (Some 1) in
  let other := VectorClock.mk 1%nat None in
  VectorClock.merge h self other
  = Raises IndexError
      (<[VectorClock.clock self :=
           zip_with Z.max [3; 1; 4] [5; 0] ++ drop (length [5; 0]) [3; 1; 4]]> h).
Proof.
  intros h self other.
  apply (merge_shorter_other_raises h self other [3; 1; 4] [5; 0]).
  - discriminate.
  - reflexivity.
  - reflexivity.
  - cbn. lia.
Defined.

(** [merge] with an [other] that has more slots than [self] ignores the
    slots of [other] beyond [len(self)]. *)
Theorem merge_longer_other_ignores_tail
    (h : Heap) (self other : VectorClock.t) ls lo k j :
  VectorClock.clock self ≠ VectorClock.clock other →
  h !! VectorClock.clock self = Some ls →
  h !! VectorClock.clock other = Some lo →
  (length ls ≤ length lo)%nat →
  VectorClock.id self = Some k → py_index (length ls) k = Some j →
  ∃ v, zip_with Z.max ls (take (length ls) lo) !! j = Some v ∧
    VectorClock.merge h self other
    = Returns (<[VectorClock.clock self :=
                   <[j := v + 1]> (zip_with Z.max ls (take (length ls) lo))]> h).
Proof.
  intros Hne Hs Ho Hlen Hid Hj. unfold VectorClock.merge.
  rewrite (deref_Some _ _ _ Hs).
  rewrite (merge_loop_spec self other lo _ 0%nat h ls) by (done || lia).
  unfold merged_upto. rewrite take_0, !drop_0. cbn [app].
  assert (Hzip : zip_with Z.max ls (take (length ls) lo) = zip_with Z.max ls lo).
  { clear -Hlen. revert lo Hlen.
    induction ls as [|x ls IH]; intros [|y lo] Hlen; cbn in *;
      try done; try lia.
    f_equal. apply IH. lia. }
  rewrite Hzip.
  destruct (inc_spec (<[VectorClock.clock self := zip_with Z.max ls lo]> h)
              self (zip_with Z.max ls lo) k j) as (v & Hv & ->); try done.
  - by rewrite lookup_insert_eq.
  - rewrite length_zip_with. by replace (length ls `min` length lo)%nat
      with (length ls) by lia.
  - exists v. by rewrite insert_insert_eq.
Qed.

Lemma merge_longer_other_ignores_tail_witness :
  let h : Heap := <[0%nat := [3; 1]]> (<[1%nat := [2; 5; 9]]> ∅) in
  let self := VectorClock.mk 0%nat (Some 0) in
  let other := VectorClock.mk 1%nat None in
  ∃ v, zip_with Z.max [3; 1] (take (length [3; 1]) [2; 5; 9]) !! 0%nat = Some v ∧
    VectorClock.merge h self other
    = Returns (<[VectorClock.clock self :=
                   <[0%nat := v + 1]>
                     (zip_with Z.max [3; 1] (take (length [3; 1]) [2; 5; 9]))]> h).
Proof.
  intros h self other.
  apply (merge_longer_other_ignores_tail h self other [3; 1] [2; 5; 9] 0 0%nat).
  - discriminate.
  - reflexivity.
  - reflexivity.
  - cbn. lia.
  - reflexivity.
  - reflexivity.
Defined.

Lemma merge_loop_alias (self other : VectorClock.t) (h : Heap) l idx :
  VectorClock.clock other = VectorClock.clock self →
  h !! VectorClock.clock self = Some l →
  Forall (λ i, i < length l)%nat idx →
  VectorClock.merge_loop h self other idx = Returns h.
Proof.
  intros Heq Hl. induction 1 as [|i idx Hi _ IH]; [done|].
  cbn [VectorClock.merge_loop]. rewrite Heq, (deref_Some _ _ _ Hl).
  destruct (lookup_lt_is_Some_2 l i Hi) as [a Ha]. rewrite Ha.
  rewrite Z.max_id, (list_insert_id l i a Ha), (insert_id h _ l Hl).
  exact IH.
Qed.

(** Merging a clock with itself, or with a clock object that shares its
    list, changes no slot in the loop: the call is one [inc]. *)
Theorem merge_with_alias_is_inc (h : Heap) (self other : VectorClock.t) l :
  VectorClock.clock other = VectorClock.clock self →
  h !! VectorClock.clock self = Some l →
  VectorClock.merge h self other = VectorClock.inc h self.
Proof.
  intros Heq Hl. unfold VectorClock.merge.
  rewrite (merge_loop_alias self other h l); [done..|].
  rewrite (deref_Some _ _ _ Hl). apply Forall_forall.
  intros i Hi%elem_of_seq. lia.
Qed.

Lemma merge_with_alias_is_inc_witness :
  let h : Heap := <[0%nat := [3; 1; 4]]> ∅ in
  let self := VectorClock.mk 0%nat (Some 1) in
  let other := VectorClock.mk 0%nat None in
  VectorClock.merge h self other = VectorClock.inc h self.
Proof.
  intros h self other.
  apply (merge_with_alias_is_inc h self other [3; 1; 4]); reflexivity.
Defined.

Lemma merge_values (h : Heap) (self other : VectorClock.t) ls lo k j :
  VectorClock.clock self ≠ VectorClock.clock other →
  h !! VectorClock.clock self = Some ls →
  h !! VectorClock.clock other = Some lo →
  length ls = length lo →
  VectorClock.id self = Some k → py_index (length ls) k = Some j →
  ∃ c, VectorClock.merge h self other
       = Returns (<[VectorClock.clock self := c]> h) ∧
    length c = length ls ∧
    ∀ i x y, ls !! i = Some x → lo !! i = Some y →
      c !! i = Some (if decide (i = j) then Z.max x y + 1 else Z.max x y).
Proof.
  intros Hne Hs Ho Hlen Hid Hj.
  destruct (merge_spec h self other ls lo k j) as (v & Hv & ->); try done.
  eexists. split; [done|]. split.
  - rewrite length_insert, length_zip_with. lia.
  - intros i x y Hx Hy.
    assert (Hz : zip_with Z.max ls lo !! i = Some (Z.max x y)).
    { rewrite lookup_zip_with, Hx. cbn. by rewrite Hy. }
    case_decide as Hij.
    + subst i. rewrite list_lookup_insert_eq by (by eapply lookup_lt_Some).
      congruence.
    + by rewrite list_lookup_insert_ne.
Qed.

(** Two merges in a row, in either order: every slot but the own one ends
    at the maximum of the three clocks, whatever the order; the own slot
    is incremented after each merge, so its end value depends on the
    order. *)
Theorem merge_twice_either_order
    (h : Heap) (self a b : VectorClock.t) ls la lb k j :
  VectorClock.clock self ≠ VectorClock.clock a →
  VectorClock.clock self ≠ VectorClock.clock b →
  h !! VectorClock.clock self = Some ls →
  h !! VectorClock.clock a = Some la →
  h !! VectorClock.clock b = Some lb →
  length ls = length la → length ls = length lb →
  VectorClock.id self = Some k → py_index (length ls) k = Some j →
  ∃ hab hba,
    VectorClock.merge (heap_of (VectorClock.merge h self a)) self b
    = Returns hab ∧
    VectorClock.merge (heap_of (VectorClock.merge h self b)) self a
    = Returns hba ∧
    ∀ i x y z, ls !! i = Some x → la !! i = Some y → lb !! i = Some z →
      VectorClock.values hab self !! i
      = Some (if decide (i = j) then Z.max (Z.max x y + 1) z + 1
              else Z.max x (Z.max y z)) ∧
      VectorClock.values hba self !! i
      = Some (if decide (i = j) then Z.max (Z.max x z + 1) y + 1
              else Z.max x (Z.max y z)).
Proof.
  intros Hna Hnb Hs Ha Hb Hla Hlb Hid Hj.
  destruct (merge_values h self a ls la k j) as (ca & -> & Hlca & Hca);
    try done.
  destruct (merge_values h self b ls lb k j) as (cb & -> & Hlcb & Hcb);
    try done.
  cbn [heap_of].
  destruct (merge_values (<[VectorClock.clock self := ca]> h) self b ca lb k j)
    as (cab & -> & _ & Hcab); try done.
  { by rewrite lookup_insert_eq. }
  { by rewrite lookup_insert_ne. }
  { congruence. }
  { by rewrite Hlca. }
  destruct (merge_values (<[VectorClock.clock self := cb]> h) self a cb la k j)
    as (cba & -> & _ & Hcba); try done.
  { by rewrite lookup_insert_eq. }
  { by rewrite lookup_insert_ne. }
  { congruence. }
  { by rewrite Hlcb. }
  eexists _, _. split_and!; [done..|].
  intros i x y z Hx Hy Hz.
  unfold VectorClock.values, deref. rewrite !lookup_insert_eq. cbn.
  rewrite (Hcab i _ z (Hca i x y Hx Hy) Hz).
  rewrite (Hcba i _ y (Hcb i x z Hx Hz) Hy).
  case_decide; [done|]. split; f_equal; lia.
Qed.

Lemma merge_twice_either_order_witness :
  let h : Heap :=
    <[0%nat := [0; 0]]> (<[1%nat := [5; 5]]> (<[2%nat := [0; 7]]> ∅)) in
  let self := VectorClock.mk 0%nat (Some 0) in
  let a := VectorClock.mk 1%nat None in
  let b := VectorClock.mk 2%nat None in
  ∃ hab hba,
    VectorClock.merge (heap_of (VectorClock.merge h self a)) self b
    = Returns hab ∧
    VectorClock.merge (heap_of (VectorClock.merge h self b)) self a
    = Returns hba ∧
    ∀ i x y z, [0; 0] !! i = Some x → [5; 5] !! i = Some y →
      [0; 7] !! i = Some z →
      VectorClock.values hab self !! i
      = Some (if decide (i = 0%nat) then Z.max (Z.max x y + 1) z + 1
              else Z.max x (Z.max y z)) ∧
      VectorClock.values hba self !! i
      = Some (if decide (i = 0%nat) then Z.max (Z.max x z + 1) y + 1
              else Z.max x (Z.max y z)).
Proof.
  intros h self a b.
  apply (merge_twice_either_order h self a b [0; 0] [5; 5] [0; 7] 0 0%nat);
    try reflexivity; discriminate.
Defined.

Example ex_merge_order_own_slot :
  let h : Heap :=
    <[0%nat := [0; 0]]> (<[1%nat := [5; 5]]> (<[2%nat := [0; 7]]> ∅)) in
  let self := VectorClock.mk 0%nat (Some 0) in
  let a := VectorClock.mk 1%nat None in
  let b := VectorClock.mk 2%nat None in
  (deref (heap_of (VectorClock.merge (heap_of (VectorClock.merge h self a))
                     self b)) 0%nat,
   deref (heap_of (VectorClock.merge (heap_of (VectorClock.merge h self b))
                     self a)) 0%nat)
  = ([7; 7], [6; 7]).
Proof. vm_compute. reflexivity. Qed.

(** ** The simulation: what every run keeps *)

(** Every state of every run of [main n script] is well-formed: node [i]
    has id [i] and a clock of [n] slots with id [i]; no two nodes share a
    clock list; every queued message carries a list of [n] slots that is
    no node's clock. *)
Theorem reachable_states_well_formed n script s :
  steps (main n script) s → wf n s.
Proof. intros Hs. eapply steps_wf; [apply main_wf | done]. Qed.

Lemma reachable_states_well_formed_witness :
  wf 2 (run_sched [0; 1; 1]%nat (main 2 scenario1)).
Proof.
  apply (reachable_states_well_formed 2 scenario1).
  apply run_sched_steps. constructor.
Defined.

(** A step of one node leaves every other node as it was: its record
    (control, buffer) and the items of its clock. *)
Theorem step_leaves_other_nodes n script s j s' i :
  steps (main n script) s → step j s = Some s' → i ≠ j →
  nodes s' !! i = nodes s !! i ∧ clock_of i s' = clock_of i s.
Proof.
  intros Hs Hstep Hne.
  assert (Hwf : wf n s) by (eapply steps_wf; [apply main_wf | done]).
  destruct (step_wf n s j s' Hwf Hstep)
    as (_ & ndj & ndj' & Hj & Hnodes & _ & _ & Hev).
  assert (Hsame : nodes s' !! i = nodes s !! i).
  { rewrite Hnodes. apply list_lookup_insert_ne. congruence. }
  split; [done|]. unfold clock_of. rewrite Hsame.
  destruct (nodes s !! i) as [nd|] eqn:Hnd; [|done]. cbn. f_equal.
  destruct (wf_clock n s Hwf i nd Hnd) as (c & Hc & _).
  destruct (Hev _ _ Hc) as (c' & Hc' & Heq & _).
  unfold VectorClock.values. fold (node_loc nd).
  rewrite (deref_Some _ _ _ Hc), (deref_Some _ _ _ Hc'). apply Heq.
  intros Heq'. apply Hne. by apply (wf_sep n s Hwf i j nd ndj).
Qed.

Lemma step_leaves_other_nodes_witness :
  let s := run_sched [0]%nat (main 2 scenario1) in
  let s' := run_sched [0; 1]%nat (main 2 scenario1) in
  nodes s' !! 0%nat = nodes s !! 0%nat ∧ clock_of 0 s' = clock_of 0 s.
Proof.
  intros s s'.
  apply (step_leaves_other_nodes 2 scenario1 s 1%nat s' 0%nat).
  - apply run_sched_steps. constructor.
  - vm_compute. reflexivity.
  - discriminate.
Defined.

(** Once a message has been sent it holds, in every later state of the
    run, the items that the sender's clock had when it was sent. *)
Theorem sent_snapshot_never_changes n script hist s S m snap :
  run (main n script) hist s → Sent S m snap ∈ hist →
  VectorClock.values (heap s) (Message.clock m) = snap.
Proof.
  intros Hrun Hin.
  destruct (run_recorded n script hist s Hrun) as [_ Hrec].
  destruct (rec_sent hist s Hrec S m snap Hin) as [Hm _].
  unfold VectorClock.values. fold (msg_loc m). by apply deref_Some.
Qed.

Lemma sent_snapshot_never_changes_witness :
  let s0 := main 2 scenario1 in
  let s1 := run_sched [0]%nat s0 in
  let s2 := run_sched [0; 1]%nat s0 in
  let s3 := run_sched [0; 1; 1]%nat s0 in
  let m := Message.mk 1 (VectorClock.mk 2%nat None) in
  VectorClock.values (heap s3) (Message.clock m) = [0; 0].
Proof.
  intros s0 s1 s2 s3 m.
  apply (sent_snapshot_never_changes 2 scenario1
           ((([] ++ actions 0 s0) ++ actions 1 s1) ++ actions 1 s2) s3 0%nat).
  - apply (run_step s0 _ s2 1%nat s3); [|vm_compute; reflexivity].
    apply (run_step s0 _ s1 1%nat s2); [|vm_compute; reflexivity].
    apply (run_step s0 _ s0 0%nat s1); [|vm_compute; reflexivity].
    apply run_nil.
  - vm_compute. apply list_elem_of_here.
Defined.

(** In a run, the methods of [VectorClock] never raise: the only way a
    node's thread dies on an exception is a Send event whose receiver is
    not a valid subscript of the list of queues. *)
Theorem only_a_bad_receiver_raises n script s i s' e :
  steps (main n script) s → step i s = Some s' →
  control_of i s' = Some (Uncaught e) →
  ∃ nd ev rest, nodes s !! i = Some nd ∧
    Node.control nd = AtFor (ev :: rest) ∧ Event.type ev = "s" ∧
    py_subscript n (Event.receiver ev) = inl e.
Proof.
  intros Hs Hstep Hctl.
  assert (Hwf : wf n s) by (eapply steps_wf; [apply main_wf | done]).
  destruct (nodes s !! i) as [nd|] eqn:Hnd;
    [|by unfold step in Hstep; rewrite Hnd in Hstep].
  assert (Hlen : (i < length (nodes s))%nat) by (by eapply lookup_lt_Some).
  pose proof (frame_refl n nd s Hwf) as Hfr.
  destruct (Node.control nd) as [[|ev rest]|ev rest| | |e0] eqn:Hc.
  - revert Hstep. unfold step. rewrite Hnd. cbn [mbind option_bind].
    rewrite Hc. intros [= <-]. rewrite control_of_set in Hctl by done.
    discriminate.
  - exists nd, ev, rest. revert Hstep. unfold step. rewrite Hnd.
    cbn [mbind option_bind]. rewrite Hc. unfold run_event.
    destruct (decide (Event.type ev = "i")) as [Hi|Hi].
    { destruct (frame_log_inc n s i nd ev rest s Hnd Hfr)
        as (s2 & -> & _ & Hn2 & _).
      intros [= <-]. rewrite control_of_set in Hctl
        by (cbn [nodes]; by rewrite Hn2).
      discriminate. }
    destruct (decide (Event.type ev = "r")) as [Hr|Hr].
    { destruct (Node.buffered nd _).
      - destruct (frame_log_inc n s i nd ev rest s Hnd Hfr)
          as (s2 & -> & _ & Hn2 & _).
        intros [= <-]. rewrite control_of_set in Hctl
          by (cbn [nodes]; by rewrite Hn2).
        discriminate.
      - intros [= <-]. rewrite control_of_set in Hctl by done.
        discriminate. }
    destruct (decide (Event.type ev = "s")) as [Hty|Hty].
    + destruct (send nd ev s) as [e1|s1] eqn:Hsend.
      * intros [= <-]. rewrite control_of_set in Hctl by done.
        cbn in Hctl. assert (e1 = e) as -> by congruence.
        split_and!; [done..|].
        revert Hsend. unfold send. rewrite (wf_queues n s Hwf).
        destruct (py_subscript n (Event.receiver ev)) as [e2|r]; [congruence|].
        by destruct (VectorClock.copy _ _).
      * pose proof (frame_send n s i nd ev s s1 Hnd Hfr Hsend) as Hf1.
        destruct (frame_log_inc n s i nd ev rest s1 Hnd Hf1)
          as (s2 & -> & _ & Hn2 & _).
        intros [= <-]. rewrite control_of_set in Hctl
          by (cbn [nodes]; by rewrite Hn2).
        discriminate.
    + intros [= <-]. rewrite control_of_set in Hctl by done. discriminate.
  - destruct (step_receive_own n s i nd ev rest s' Hwf Hnd Hc Hstep)
      as (a & b & _ & _ & [[Hc' _]|[Hc' _]]); congruence.
  - unfold step in Hstep. rewrite Hnd in Hstep.
    cbn [mbind option_bind] in Hstep. by rewrite Hc in Hstep.
  - unfold step in Hstep. rewrite Hnd in Hstep.
    cbn [mbind option_bind] in Hstep. by rewrite Hc in Hstep.
  - unfold step in Hstep. rewrite Hnd in Hstep.
    cbn [mbind option_bind] in Hstep. by rewrite Hc in Hstep.
Qed.

(** A thread that is alive waits in one place only: a node cannot move
    exactly when its thread has ended or it is in [get] on its own queue
    and that queue is empty. *)
Theorem node_blocks_only_in_get n script s i nd :
  steps (main n script) s → nodes s !! i = Some nd →
  step i s = None ↔
    Node.control nd = Returned ∨ Node.control nd = Exited ∨
    (∃ e, Node.control nd = Uncaught e) ∨
    (∃ ev rest, Node.control nd = InGet ev rest ∧ queues s !! i = Some []).
Proof.
  intros Hs Hnd.
  assert (Hwf : wf n s) by (eapply steps_wf; [apply main_wf | done]).
  unfold step. rewrite Hnd. cbn [mbind option_bind].
  destruct (Node.control nd) as [[|ev rest]|ev rest| | |e] eqn:Hc.
  - split; [done|]. intros [?|[?|[[? ?]|(? & ? & ? & _)]]]; done.
  - destruct (run_event nd ev rest s).
    split; [done|]. intros [?|[?|[[? ?]|(? & ? & ? & _)]]]; done.
  - rewrite (wf_own_queue n s i nd Hwf Hnd).
    destruct (lookup_lt_is_Some_2 (queues s) i) as [q Hq].
    { rewrite (wf_queues n s Hwf). by eapply wf_lt. }
    rewrite Hq. destruct q as [|msg q].
    + split; [|done]. intros _. do 3 right. by exists ev, rest.
    + destruct (receive nd ev rest i msg s).
      split; [done|].
      intros [?|[?|[[? ?]|(? & ? & ? & ?)]]]; done.
  - split; [by left | done].
  - split; [by right; left | done].
  - split; [|done]. intros _. right. right. left. by exists e.
Qed.

Lemma node_blocks_only_in_get_witness :
  let s := run_sched [1]%nat (main 2 scenario1) in
  let nd := Node.mk 1 (VectorClock.mk 1%nat (Some 1)) [Receive 2 1] []
              (InGet (Receive 2 1) []) in
  step 1 s = None ↔
    Node.control nd = Returned ∨ Node.control nd = Exited ∨
    (∃ e, Node.control nd = Uncaught e) ∨
    (∃ ev rest, Node.control nd = InGet ev rest ∧ queues s !! 1%nat = Some []).
Proof.
  intros s nd.
  apply (node_blocks_only_in_get 2 scenario1 s 1%nat nd).
  - apply run_sched_steps. constructor.
  - vm_compute. reflexivity.
Defined.

Lemma only_a_bad_receiver_raises_witness :
  let s := main 2 scenario6 in
  ∃ nd ev rest, nodes s !! 0%nat = Some nd ∧
    Node.control nd = AtFor (ev :: rest) ∧ Event.type ev = "s" ∧
    py_subscript 2 (Event.receiver ev) = inl IndexError.
Proof.
  intros s.
  apply (only_a_bad_receiver_raises 2 scenario6 s 0%nat
           (run_sched [0]%nat s) IndexError).
  - constructor.
  - vm_compute. reflexivity.
  - vm_compute. reflexivity.
Defined.

(** ** Script order *)

Lemma logged_app i out1 out2 :
  logged i (out1 ++ out2) = logged i out1 ++ logged i out2.
Proof.
  induction out1 as [|[node e c|] out1 IH]; cbn [app logged]; [done| |done].
  case_decide; [|done]. by rewrite IH.
Qed.

(** What a step prints, and where it leaves the thread. *)
Lemma step_stdout n s j s' nd :
  wf n s → nodes s !! j = Some nd → step j s = Some s' →
  ∃ nd', nodes s' !! j = Some nd' ∧ Node.events nd' = Node.events nd ∧
    ((stdout s' = stdout s ∧
      ((Node.control nd = AtFor [] ∧ Node.control nd' = Returned) ∨
       (∃ ev rest, Node.control nd = AtFor (ev :: rest) ∧
          (Node.control nd' = InGet ev rest ∨
           ∃ e, Node.control nd' = Uncaught e)) ∨
       (∃ ev rest, Node.control nd = InGet ev rest ∧
          Node.control nd' = InGet ev rest))) ∨
     (∃ ev rest c,
        stdout s' = stdout s ++ [LogLine (Z.of_nat j) (Event.event_id ev) c] ∧
        (Node.control nd = AtFor (ev :: rest) ∨
         Node.control nd = InGet ev rest) ∧
        Node.control nd' = AtFor rest) ∨
     (stdout s' = stdout s ++ [InvalidEvent] ∧ Node.control nd' = Exited)).
Proof.
  intros Hwf Hnd Hstep.
  assert (Hlen : (j < length (nodes s))%nat) by (by eapply lookup_lt_Some).
  destruct (wf_id n s Hwf j nd Hnd) as [Hid _].
  pose proof (frame_refl n nd s Hwf) as Hfr.
  assert (Hset : ∀ nd' s1, nodes s1 = nodes s →
            nodes (set_node j nd' s1) !! j = Some nd').
  { intros nd' s1 Hn. unfold set_node. cbn [nodes]. rewrite Hn.
    by apply list_lookup_insert_eq. }
  revert Hstep. unfold step. rewrite Hnd. cbn [mbind option_bind].
  destruct (Node.control nd) as [[|ev rest]|ev rest| | |e] eqn:Hc; try done.
  - intros [= <-]. eexists. split; [by apply Hset|]. split; [done|].
    left. split; [done|]. by left.
  - unfold run_event.
    destruct (decide (Event.type ev = "i")) as [Hi|Hi].
    { destruct (log_inc_wf n s j nd ev rest Hwf Hnd)
        as (c & v & _ & _ & _ & ->).
      intros [= <-]. eexists. split; [by apply Hset|]. split; [done|].
      right. left. exists ev, rest, c. rewrite <- Hid. by split_and!; auto. }
    destruct (decide (Event.type ev = "r")) as [Hr|Hr].
    { destruct (Node.buffered nd _).
      - destruct (log_inc_wf n s j nd ev rest Hwf Hnd)
          as (c & v & _ & _ & _ & ->).
        intros [= <-]. eexists. split; [by apply Hset|]. split; [done|].
        right. left. exists ev, rest, c. rewrite <- Hid. by split_and!; auto.
      - intros [= <-]. eexists. split; [by apply Hset|]. split; [done|].
        left. split; [done|]. right. left. exists ev, rest. by split; auto. }
    destruct (decide (Event.type ev = "s")) as [Hty|Hty].
    + destruct (send nd ev s) as [e1|s1] eqn:Hsend.
      * intros [= <-]. eexists. split; [by apply Hset|]. split; [done|].
        left. split; [done|]. right. left. exists ev, rest.
        split; [done|]. right. by exists e1.
      * destruct (send_shape nd ev s s1 Hsend) as (Hn1 & Hout1 & _).
        pose proof (frame_send n s j nd ev s s1 Hnd Hfr Hsend)
          as (Hwf1 & _ & _).
        assert (Hnd1 : nodes s1 !! j = Some nd) by (by rewrite Hn1).
        destruct (log_inc_wf n s1 j nd ev rest Hwf1 Hnd1)
          as (c & v & _ & _ & _ & ->).
        intros [= <-]. eexists. split; [by apply Hset|]. split; [done|].
        right. left. exists ev, rest, c. unfold set_node. cbn [stdout].
        rewrite Hout1, <- Hid. by split_and!; auto.
    + intros [= <-]. eexists. split; [by apply Hset|]. split; [done|].
      right. right. by split.
  - rewrite (wf_own_queue n s j nd Hwf Hnd).
    destruct (queues s !! j) as [[|msg q]|] eqn:Hq; try done.
    destruct (receive_wf n s j nd ev rest msg q Hwf Hnd Hq)
      as (c & cm & v & Hcc & Hcm & Hlenc & Hlenm & Hv & Hrec).
    cbv zeta in Hrec. rewrite Hrec. clear Hrec.
    set (c2 := <[j := v + 1]> (zip_with Z.max c cm)).
    set (s2 := set_heap _ _).
    assert (Hlen2 : length c2 = n).
    { unfold c2. rewrite length_insert, length_zip_with. lia. }
    assert (Hle2 : vc_le c c2).
    { eapply vc_le_trans; [apply (vc_le_max_l c cm); lia|].
      apply (vc_le_insert _ _ v); [done | lia]. }
    pose proof (frame_merged n s j nd c c2 Hwf Hnd Hcc Hlen2 Hle2) as Hf2.
    fold s2 in Hf2. destruct Hf2 as (Hwf2 & Hn2 & _).
    case_decide.
    + intros [= <-]. eexists. split; [by apply Hset|]. split; [done|].
      left. split; [done|]. right. right. exists ev, rest. by split.
    + assert (Hnd2 : nodes s2 !! j = Some nd) by (by rewrite Hn2).
      destruct (log_inc_wf n s2 j nd ev rest Hwf2 Hnd2)
        as (c3 & v3 & _ & _ & _ & ->).
      intros [= <-]. eexists. split; [by apply Hset|]. split; [done|].
      right. left. exists ev, rest, c3. rewrite <- Hid. by split_and!; auto.
Qed.

(** What the script-order property says of one node in one state. *)
Lemma step_in_script_order n s j s' i nd :
  wf n s → step j s = Some s' → nodes s !! i = Some nd →
  match todo (Node.control nd) with
  | Some evs => logged (Z.of_nat i) (stdout s) ++ (Event.event_id <$> evs)
                = Event.event_id <$> Node.events nd
  | None => logged (Z.of_nat i) (stdout s)
            `prefix_of` (Event.event_id <$> Node.events nd)
  end →
  ∃ nd', nodes s' !! i = Some nd' ∧ Node.events nd' = Node.events nd ∧
    match todo (Node.control nd') with
    | Some evs => logged (Z.of_nat i) (stdout s') ++ (Event.event_id <$> evs)
                  = Event.event_id <$> Node.events nd'
    | None => logged (Z.of_nat i) (stdout s')
              `prefix_of` (Event.event_id <$> Node.events nd')
    end.
Proof.
  intros Hwf Hstep Hnd Hinv.
  destruct (nodes s !! j) as [ndj|] eqn:Hj;
    [|by unfold step in Hstep; rewrite Hj in Hstep].
  destruct (step_stdout n s j s' ndj Hwf Hj Hstep)
    as (ndj' & Hj' & Hevs & Hcases).
  destruct (step_shape j s s' Hstep) as (nd0 & nd0' & Hnd0 & Hnodes & _).
  destruct (decide (i = j)) as [->|Hne].
  - assert (ndj = nd) as -> by congruence.
    exists ndj'. split; [done|]. split; [done|]. rewrite Hevs.
    destruct Hcases as [(Hout & Hk)|[(ev & rest & c & Hout & Hk & Hk')|
                                     (Hout & Hk')]].
    + rewrite Hout.
      destruct Hk as [(Hk & Hk')|[(ev & rest & Hk & [Hk'|[e Hk']])|
                                  (ev & rest & Hk & Hk')]];
        rewrite Hk in Hinv; rewrite Hk'; cbn [todo] in *; try done.
      rewrite <- Hinv. by apply prefix_app_r.
    + rewrite Hout, Hk', logged_app. cbn [todo logged].
      rewrite decide_True by done. rewrite <- app_assoc. cbn [app].
      by destruct Hk as [Hk|Hk]; rewrite Hk in Hinv.
    + rewrite Hout, Hk', logged_app. cbn [todo logged]. rewrite app_nil_r.
      destruct (todo (Node.control nd)) as [evs|]; [|done].
      rewrite <- Hinv. by apply prefix_app_r.
  - exists nd. rewrite Hnodes, list_lookup_insert_ne by congruence.
    split; [done|]. split; [done|].
    assert (Hsame : logged (Z.of_nat i) (stdout s')
                    = logged (Z.of_nat i) (stdout s)).
    { destruct Hcases as [(-> & _)|[(ev & rest & c & -> & _)|(-> & _)]];
        [done| |].
      - rewrite logged_app. cbn [logged].
        rewrite decide_False by lia. by rewrite app_nil_r.
      - rewrite logged_app. cbn [logged]. by rewrite app_nil_r. }
    by rewrite Hsame.
Qed.

(** Events are executed in script order, none skipped and none repeated:
    in every state of a run, the event ids on the log lines of node [i]
    followed by the ids of the events it has still to log are the ids of
    its script, in order; for a thread cut short by [exit()] or an
    exception the logged ids are a prefix of the script's ids. *)
Theorem events_logged_in_script_order n script s i nd :
  steps (main n script) s → nodes s !! i = Some nd →
  Node.events nd = script i ∧
  match todo (Node.control nd) with
  | Some evs => logged (Z.of_nat i) (stdout s) ++ (Event.event_id <$> evs)
                = Event.event_id <$> script i
  | None => logged (Z.of_nat i) (stdout s)
            `prefix_of` (Event.event_id <$> script i)
  end.
Proof.
  intros Hs. revert nd.
  induction Hs as [|j s1 s2 Hs IH Hstep]; intros nd Hnd.
  - destruct (main_node n script i nd Hnd) as (_ & Hctl & _).
    assert (Hev : Node.events nd = script i).
    { revert Hnd. unfold main.
      destruct (make_nodes n script (seq 0 n) ∅) as [nds h] eqn:Hmk.
      cbn [nodes]. intros Hnd. clear Hctl.
      assert (Hgen : ∀ ids (h0 : Heap) nds0 h1 p nd0,
                make_nodes n script ids h0 = (nds0, h1) →
                nds0 !! p = Some nd0 →
                ∃ k, ids !! p = Some k ∧ Node.events nd0 = script k).
      { clear. induction ids as [|k ids IH]; intros h0 nds0 h1 p nd0.
        - intros [= <- <-]. by rewrite lookup_nil.
        - cbn [make_nodes]. unfold VectorClock.init, alloc.
          destruct (make_nodes n script ids _) as [nds1 h2] eqn:Hmk.
          intros [= <- <-]. destruct p as [|p]; cbn.
          + intros [= <-]. by exists k.
          + intros Hp. by eapply IH. }
      destruct (Hgen _ _ _ _ _ _ Hmk Hnd) as (k & Hk & ->).
      by apply lookup_seq in Hk as [-> _]. }
    split; [done|]. rewrite Hctl. cbn [todo].
    assert (stdout (main n script) = []) as ->; [|done].
    unfold main. by destruct (make_nodes n script (seq 0 n) ∅).
  - assert (Hwf : wf n s1) by (eapply steps_wf; [apply main_wf | done]).
    destruct (step_shape j s1 s2 Hstep)
      as (nd0 & nd0' & Hnd0 & Hnodes & _).
    assert (∃ nd1, nodes s1 !! i = Some nd1) as [nd1 Hnd1].
    { apply lookup_lt_is_Some_2. apply lookup_lt_Some in Hnd.
      by rewrite Hnodes, length_insert in Hnd. }
    destruct (IH nd1 Hnd1) as [Hev1 Hinv1].
    rewrite <- Hev1 in Hinv1.
    destruct (step_in_script_order n s1 j s2 i nd1 Hwf Hstep Hnd1 Hinv1)
      as (nd' & Hnd' & Hev' & Hinv').
    assert (nd' = nd) as -> by congruence.
    split; [congruence|]. by rewrite Hev', Hev1 in Hinv'.
Qed.

Lemma events_logged_in_script_order_witness :
  let s := run_sched [0; 0; 1; 1; 1; 1]%nat (main 2 scenario2) in
  let nd := Node.mk 1 (VectorClock.mk 1%nat (Some 1)) (scenario2 1) [1]
              (AtFor [Receive 5 1]) in
  Node.events nd = scenario2 1 ∧
  match todo (Node.control nd) with
  | Some evs => logged (Z.of_nat 1) (stdout s) ++ (Event.event_id <$> evs)
                = Event.event_id <$> scenario2 1
  | None => logged (Z.of_nat 1) (stdout s)
            `prefix_of` (Event.event_id <$> scenario2 1)
  end.
Proof.
  intros s nd.
  apply (events_logged_in_script_order 2 scenario2 s 1%nat nd).
  - apply run_sched_steps. constructor.
  - vm_compute. reflexivity.
Defined.

(** ** What the clocks know *)

(** The store after a step of node [j], whose clock is [c]: unchanged; or
    [c] with one more in the own slot; or that and a new copy of [c]; or
    the maximum of [c] and the clock of the message at the head of the
    queue, with one more in the own slot, or two when the message is the
    awaited one. *)
Lemma step_heap n s j s' nd :
  wf n s → nodes s !! j = Some nd → step j s = Some s' →
  ∃ c, heap s !! node_loc nd = Some c ∧ length c = n ∧
    (heap s' = heap s ∨
     (∃ v, c !! j = Some v ∧
        heap s' = <[node_loc nd := <[j := v + 1]> c]> (heap s)) ∨
     (∃ l v, heap s !! l = None ∧ c !! j = Some v ∧
        heap s' = <[node_loc nd := <[j := v + 1]> c]> (<[l := c]> (heap s))) ∨
     (∃ m q cm v, queues s !! j = Some (m :: q) ∧
        heap s !! msg_loc m = Some cm ∧ length cm = n ∧
        zip_with Z.max c cm !! j = Some v ∧
        (heap s' = <[node_loc nd := <[j := v + 1]> (zip_with Z.max c cm)]>
                     (heap s) ∨
         heap s' = <[node_loc nd := <[j := v + 1 + 1]> (zip_with Z.max c cm)]>
                     (heap s)))).
Proof.
  intros Hwf Hnd Hstep.
  destruct (wf_clock n s Hwf j nd Hnd) as (c & Hc & Hlen).
  exists c. split; [done|]. split; [done|].
  pose proof (frame_refl n nd s Hwf) as Hfr.
  pose proof (wf_lt n s j nd Hwf Hnd) as Hjn.
  revert Hstep. unfold step. rewrite Hnd. cbn [mbind option_bind].
  destruct (Node.control nd) as [[|ev rest]|ev rest| | |e] eqn:Hctl; try done.
  - intros [= <-]. by left.
  - unfold run_event.
    destruct (decide (Event.type ev = "i")) as [Hi|Hi].
    { destruct (log_inc_wf n s j nd ev rest Hwf Hnd)
        as (c0 & v & Hc0 & _ & Hv & ->).
      assert (c0 = c) as -> by congruence.
      intros [= <-]. right. left. by exists v. }
    destruct (decide (Event.type ev = "r")) as [Hr|Hr].
    { destruct (Node.buffered nd _).
      - destruct (log_inc_wf n s j nd ev rest Hwf Hnd)
          as (c0 & v & Hc0 & _ & Hv & ->).
        assert (c0 = c) as -> by congruence.
        intros [= <-]. right. left. by exists v.
      - intros [= <-]. by left. }
    destruct (decide (Event.type ev = "s")) as [Hty|Hty];
      [|intros [= <-]; by left].
    destruct (send nd ev s) as [e1|s1] eqn:Hsend; [intros [= <-]; by left|].
    pose proof (frame_send n s j nd ev s s1 Hnd Hfr Hsend) as (Hwf1 & Hn1 & _).
    destruct (send_wf n s j nd ev s1 Hwf Hnd Hsend)
      as (r & l & c0 & _ & Hl & Hc0 & _ & Hs1).
    assert (c0 = c) as -> by congruence.
    assert (Hnd1 : nodes s1 !! j = Some nd) by (by rewrite Hn1).
    destruct (log_inc_wf n s1 j nd ev rest Hwf1 Hnd1)
      as (c1 & v & Hc1 & _ & Hv & ->).
    assert (c1 = c) as ->.
    { rewrite Hs1 in Hc1. cbn [heap set_queues set_heap] in Hc1.
      rewrite lookup_insert_ne in Hc1 by congruence. congruence. }
    intros [= <-]. right. right. left. exists l, v.
    split_and!; [done..|]. unfold set_node. cbn [heap]. by rewrite Hs1.
  - rewrite (wf_own_queue n s j nd Hwf Hnd).
    destruct (queues s !! j) as [[|msg q]|] eqn:Hq; try done.
    destruct (receive_wf n s j nd ev rest msg q Hwf Hnd Hq)
      as (c0 & cm & v & Hc0 & Hcm & _ & Hlenm & Hv & Hrec).
    assert (c0 = c) as -> by congruence.
    cbv zeta in Hrec. rewrite Hrec. clear Hrec.
    set (c2 := <[j := v + 1]> (zip_with Z.max c cm)).
    set (s2 := set_heap _ _).
    assert (Hlen2 : length c2 = n).
    { unfold c2. rewrite length_insert, length_zip_with, Hlen, Hlenm.
      apply Nat.min_id. }
    assert (Hle2 : vc_le c c2).
    { eapply vc_le_trans; [apply (vc_le_max_l c cm); by rewrite Hlen, Hlenm|].
      apply (vc_le_insert _ _ v); [done | lia]. }
    pose proof (frame_merged n s j nd c c2 Hwf Hnd Hc Hlen2 Hle2) as Hf2.
    fold s2 in Hf2. destruct Hf2 as (Hwf2 & Hn2 & _).
    assert (Hc2 : heap s2 !! node_loc nd = Some c2).
    { unfold s2. cbn [heap set_heap]. by rewrite lookup_insert_eq. }
    case_decide.
    + intros [= <-]. do 3 right. exists msg, q, cm, v.
      split_and!; [done..|]. by left.
    + assert (Hnd2 : nodes s2 !! j = Some nd) by (by rewrite Hn2).
      destruct (log_inc_wf n s2 j nd ev rest Hwf2 Hnd2)
        as (c3 & v3 & Hc3 & _ & Hv3 & ->).
      assert (c3 = c2) as -> by congruence.
      assert (v3 = v + 1) as ->.
      { unfold c2 in Hv3. rewrite list_lookup_insert_eq in Hv3; [congruence|].
        rewrite length_zip_with. lia. }
      intros [= <-]. do 3 right. exists msg, q, cm, v.
      split_and!; [done..|]. right. unfold set_node, s2, c2.
      cbn [heap set_heap]. by rewrite insert_insert_eq, list_insert_insert_eq.
Qed.

Lemma knows_own_update (h : Heap) nds j nd c c' :
  (∀ i k ni nk, nds !! i = Some ni → nds !! k = Some nk →
     node_loc ni = node_loc nk → i = k) →
  knows_no_more h nds → nds !! j = Some nd →
  h !! node_loc nd = Some c → length c' = length c →
  (∀ i x', i ≠ j → c' !! i = Some x' →
     ∃ l0 c0 x0, h !! l0 = Some c0 ∧ c0 !! i = Some x0 ∧ x' ≤ x0) →
  (∀ x x', c !! j = Some x → c' !! j = Some x' → x ≤ x') →
  knows_no_more (<[node_loc nd := c']> h) nds.
Proof.
  intros Hsep HK Hj Hc Hlen Hother Hown l c0 i ndi ci x y Hl Hi Hci Hx Hy.
  destruct (decide (node_loc ndi = node_loc nd)) as [Heq|Hne].
  - assert (i = j) as -> by (by eapply Hsep).
    rewrite Heq, lookup_insert_eq in Hci. simplify_eq.
    destruct (decide (l = node_loc nd)) as [->|Hl'].
    + rewrite lookup_insert_eq in Hl. simplify_eq. lia.
    + rewrite lookup_insert_ne in Hl by done.
      destruct (lookup_lt_is_Some_2 c j) as [x0 Hx0].
      { rewrite <- Hlen. by eapply lookup_lt_Some. }
      pose proof (HK l c0 j nd c x x0 Hl Hj Hc Hx Hx0).
      pose proof (Hown x0 y Hx0 Hy). lia.
  - rewrite lookup_insert_ne in Hci by done.
    assert (i ≠ j) as Hij by (intros ->; simplify_eq; done).
    destruct (decide (l = node_loc nd)) as [->|Hl'].
    + rewrite lookup_insert_eq in Hl. simplify_eq.
      destruct (Hother i x Hij Hx) as (l0 & c1 & x0 & Hl0 & Hx0 & Hle).
      pose proof (HK l0 c1 i ndi ci x0 y Hl0 Hi Hci Hx0 Hy). lia.
    + rewrite lookup_insert_ne in Hl by done.
      exact (HK l c0 i ndi ci x y Hl Hi Hci Hx Hy).
Qed.

Lemma knows_alloc (h : Heap) nds l j nd c :
  (∀ i ni, nds !! i = Some ni → is_Some (h !! node_loc ni)) →
  knows_no_more h nds → h !! l = None → nds !! j = Some nd →
  h !! node_loc nd = Some c →
  knows_no_more (<[l := c]> h) nds.
Proof.
  intros Hall HK Hl Hj Hc l0 c0 i ndi ci x y Hl0 Hi Hci Hx Hy.
  assert (node_loc ndi ≠ l) as Hne.
  { intros <-. destruct (Hall i ndi Hi) as [? ?]. congruence. }
  rewrite lookup_insert_ne in Hci by done.
  destruct (decide (l0 = l)) as [->|Hl'].
  - rewrite lookup_insert_eq in Hl0. injection Hl0 as <-.
    exact (HK (node_loc nd) c i ndi ci x y Hc Hi Hci Hx Hy).
  - rewrite lookup_insert_ne in Hl0 by done.
    exact (HK l0 c0 i ndi ci x y Hl0 Hi Hci Hx Hy).
Qed.

Lemma step_knows n s j s' :
  wf n s → knows_no_more (heap s) (nodes s) → step j s = Some s' →
  knows_no_more (heap s') (nodes s').
Proof.
  intros Hwf HK Hstep.
  assert (HK' : knows_no_more (heap s') (nodes s)).
  { destruct (nodes s !! j) as [nd|] eqn:Hnd;
      [|by unfold step in Hstep; rewrite Hnd in Hstep].
    pose proof (wf_lt n s j nd Hwf Hnd) as Hjn.
    destruct (step_heap n s j s' nd Hwf Hnd Hstep) as (c & Hc & Hlen & Hcases).
    assert (Hinc : ∀ (h : Heap) v, knows_no_more h (nodes s) →
              h !! node_loc nd = Some c → c !! j = Some v →
              knows_no_more (<[node_loc nd := <[j := v + 1]> c]> h) (nodes s)).
    { intros h v HKh Hch Hv.
      apply (knows_own_update h (nodes s) j nd c); try done.
      - apply (wf_sep n s Hwf).
      - by rewrite length_insert.
      - intros i x' Hij Hx'. rewrite list_lookup_insert_ne in Hx' by done.
        exists (node_loc nd), c, x'. split_and!; [done..|lia].
      - intros x x' Hx Hx'. rewrite list_lookup_insert_eq in Hx' by lia.
        simplify_eq. lia. }
    destruct Hcases as [->|[(v & Hv & ->)|[(l & v & Hl & Hv & ->)|
      (m & q & cm & v & Hq & Hcm & Hlenm & Hv & Hh)]]].
    - done.
    - by apply Hinc.
    - apply Hinc; [|by rewrite lookup_insert_ne by congruence|done].
      apply (knows_alloc (heap s) (nodes s) l j nd c); try done.
      intros i ni Hi. destruct (wf_clock n s Hwf i ni Hi) as (ci & -> & _).
      by eexists.
    - assert (Hgen : ∀ w, v + 1 ≤ w →
                knows_no_more
                  (<[node_loc nd := <[j := w]> (zip_with Z.max c cm)]> (heap s))
                  (nodes s)).
      { intros w Hw.
        apply (knows_own_update (heap s) (nodes s) j nd c); try done.
        - apply (wf_sep n s Hwf).
        - rewrite length_insert, length_zip_with. lia.
        - intros i x' Hij Hx'. rewrite list_lookup_insert_ne in Hx' by done.
          rewrite lookup_zip_with in Hx'.
          destruct (c !! i) as [a|] eqn:Ha; [|done]. cbn in Hx'.
          destruct (cm !! i) as [b|] eqn:Hb; [|done]. cbn in Hx'.
          simplify_eq. destruct (Z.max_spec a b) as [[_ ->]|[_ ->]].
          + exists (msg_loc m), cm, b. split_and!; [done..|lia].
          + exists (node_loc nd), c, a. split_and!; [done..|lia].
        - intros x x' Hx Hx'.
          rewrite list_lookup_insert_eq in Hx'
            by (rewrite length_zip_with; lia).
          rewrite lookup_zip_with, Hx in Hv. cbn in Hv.
          destruct (cm !! j) as [b|]; [|done]. cbn in Hv. simplify_eq. lia. }
      destruct Hh as [->| ->]; apply Hgen; lia. }
  intros l c i nd' ci x y Hl Hi Hci Hx Hy.
  destruct (step_nodes_loc j s s' i Hstep) as [_ Hback].
  destruct (Hback nd' Hi) as (nd & Hnd & Hloc & _).
  rewrite Hloc in Hci. exact (HK' l c i nd ci x y Hl Hnd Hci Hx Hy).
Qed.

Lemma main_heap n script l c :
  heap (main n script) !! l = Some c → c = replicate n 0.
Proof.
  unfold main.
  destruct (make_nodes n script (seq 0 n) ∅) as [nds h] eqn:Hmk.
  cbn [heap].
  assert (Hgen : ∀ ids (h0 : Heap) nds0 h1,
            make_nodes n script ids h0 = (nds0, h1) →
            (∀ l c, h0 !! l = Some c → c = replicate n 0) →
            ∀ l c, h1 !! l = Some c → c = replicate n 0).
  { clear. induction ids as [|k ids IH]; intros h0 nds0 h1.
    - by intros [= <- <-].
    - cbn [make_nodes]. unfold VectorClock.init, alloc.
      destruct (make_nodes n script ids _) as [nds1 h2] eqn:Hmk.
      intros [= <- <-] H0. apply (IH _ _ _ Hmk).
      intros l c. destruct (decide (l = fresh (dom h0))) as [->|Hne].
      + rewrite lookup_insert_eq. by intros [= <-].
      + rewrite lookup_insert_ne by done. apply H0. }
  apply (Hgen _ _ _ _ Hmk). intros l0 c0. by rewrite lookup_empty.
Qed.

Lemma steps_knows n script s :
  steps (main n script) s → knows_no_more (heap s) (nodes s).
Proof.
  induction 1 as [|j s1 s2 Hs IH Hstep].
  - intros l c i nd ci x y Hl Hi Hci Hx Hy.
    rewrite (main_heap n script l c Hl) in Hx.
    rewrite (main_heap n script _ ci Hci) in Hy.
    apply lookup_replicate in Hx as [-> _].
    apply lookup_replicate in Hy as [-> _]. done.
  - apply (step_knows n s1 j s2); [|done..].
    eapply steps_wf; [apply main_wf | done].
Qed.

(** In every state of a run, no clock holds in slot [i] more than node
    [i] holds in its own slot: not the clock of another node, and not the
    snapshot in a queued message. *)
Theorem no_clock_ahead_of_its_owner n script s i y :
  steps (main n script) s → own_slot i s = Some y →
  (∀ k ck x, clock_of k s = Some ck → ck !! i = Some x → x ≤ y) ∧
  (∀ k q m x, queues s !! k = Some q → m ∈ q →
     VectorClock.values (heap s) (Message.clock m) !! i = Some x → x ≤ y).
Proof.
  intros Hs Hown.
  assert (Hwf : wf n s) by (eapply steps_wf; [apply main_wf | done]).
  pose proof (steps_knows n script s Hs) as HK.
  destruct (nodes s !! i) as [nd|] eqn:Hnd;
    [|by unfold own_slot in Hown; rewrite Hnd in Hown].
  destruct (wf_own_slot n s i nd Hwf Hnd) as (ci & Hci & _ & Hown').
  rewrite Hown' in Hown. split.
  - intros k ck x Hk Hx. unfold clock_of in Hk.
    destruct (nodes s !! k) as [ndk|] eqn:Hndk; [|done].
    destruct (wf_clock n s Hwf k ndk Hndk) as (c & Hc & _).
    cbn in Hk. unfold VectorClock.values in Hk. fold (node_loc ndk) in Hk.
    rewrite (deref_Some _ _ _ Hc) in Hk. injection Hk as <-.
    exact (HK (node_loc ndk) c i nd ci x y Hc Hnd Hci Hx Hown).
  - intros k q m x Hq Hm Hx.
    destruct (wf_msg n s Hwf k q m Hq Hm) as (c & Hc & _).
    unfold VectorClock.values in Hx. fold (msg_loc m) in Hx.
    rewrite (deref_Some _ _ _ Hc) in Hx.
    exact (HK (msg_loc m) c i nd ci x y Hc Hnd Hci Hx Hown).
Qed.

Lemma no_clock_ahead_of_its_owner_witness :
  let s := run_sched [0; 0; 1; 1]%nat (main 2 scenario2) in
  (∀ k ck x, clock_of k s = Some ck → ck !! 0%nat = Some x → x ≤ 2) ∧
  (∀ k q m x, queues s !! k = Some q → m ∈ q →
     VectorClock.values (heap s) (Message.clock m) !! 0%nat = Some x → x ≤ 2).
Proof.
  intros s. apply (no_clock_ahead_of_its_owner 2 scenario2 s 0%nat 2).
  - apply run_sched_steps. constructor.
  - vm_compute. reflexivity.
Defined.



(** ** First in, first out *)

Lemma step_sent_target i s s' m snap :
  step i s = Some s' → sends i s = Some (m, snap) →
  ∃ r, send_target i s = Some r ∧
       queues s' = alter (λ q, q ++ [m]) r (queues s).
Proof.
  unfold step, sends, send_target.
  destruct (nodes s !! i) as [nd|] eqn:Hnd; [|done]. cbn [mbind option_bind].
  destruct (Node.control nd) as [[|ev rest]|ev rest| | |e] eqn:Hctl; try done.
  intros Hstep Hsends. revert Hsends Hstep.
  case_decide as Hty; [|done].
  destruct (send nd ev s) as [e|s1] eqn:Hsend; [done|].
  intros [= <- <-]. unfold run_event. rewrite Hsend.
  rewrite decide_False by (rewrite Hty; done).
  rewrite decide_False by (rewrite Hty; done).
  rewrite decide_True by done.
  destruct (send_shape nd ev s s1 Hsend) as (_ & _ & r & Hr & _ & Hq1).
  destruct (log_inc nd ev rest s1) as [nd' s2] eqn:Hli.
  apply log_inc_shape in Hli as (_ & Hq2 & _).
  intros [= <-]. exists r. rewrite Hr. split; [done|].
  unfold set_node. cbn [queues]. by rewrite Hq2, Hq1.
Qed.

Lemma step_queue n s i s' k q :
  wf n s → step i s = Some s' → queues s !! k = Some q →
  ∃ q', queues s' !! k = Some q' ∧
    q ++ (if decide (send_target i s = Some k)
          then from_option (λ ms, [ms.1]) [] (sends i s) else [])
    = (if decide (i = k)
       then from_option (λ m, [m]) [] (gets i s) else []) ++ q'.
Proof.
  intros Hwf Hstep Hq.
  destruct (actions_cases i s)
    as [(m & snap & Hsends & Hgets & _)|[(m & Hgets & Hsends & _)|
        (Hsends & Hgets & _)]]; rewrite Hsends, Hgets; cbn [from_option].
  - destruct (step_sent_target i s s' m snap Hstep Hsends) as (r & -> & ->).
    assert (Hd : (if decide (i = k) then [] else []) = @nil Message.t)
      by (by case_decide).
    rewrite Hd. cbn [app fst].
    destruct (decide (r = k)) as [->|Hne].
    + rewrite decide_True by done. exists (q ++ [m]).
      by rewrite list_lookup_alter_eq, Hq.
    + rewrite decide_False by congruence. exists q.
      rewrite list_lookup_alter_ne by done. by rewrite app_nil_r.
  - destruct (step_got n s i s' m Hwf Hstep Hgets)
      as (_ & nd & q0 & cm & c' & _ & Hq0 & -> & _).
    assert (He : (if decide (send_target i s = Some k) then [] else [])
                 = @nil Message.t) by (by case_decide).
    rewrite He, app_nil_r.
    destruct (decide (i = k)) as [->|Hne].
    + exists q0. rewrite list_lookup_alter_eq, Hq0. cbn.
      split; [done | congruence].
    + exists q. by rewrite list_lookup_alter_ne.
  - rewrite (step_quiet i s s' Hstep Hsends Hgets). exists q.
    split; [done|]. repeat case_decide; by rewrite app_nil_r.
Qed.

Lemma fifo_from n sched :
  ∀ s k q, wf n s → queues s !! k = Some q →
    ∃ q', queues (run_sched sched s) !! k = Some q' ∧
      q ++ enqueued k sched s = dequeued k sched s ++ q'.
Proof.
  induction sched as [|i sched IH]; intros s k q Hwf Hq.
  - exists q. split; [done|]. cbn. by rewrite app_nil_r.
  - cbn [run_sched enqueued dequeued].
    destruct (step i s) as [s'|] eqn:Hstep; cbn [default].
    + destruct (step_queue n s i s' k q Hwf Hstep Hq) as (q1 & Hq1 & Heq).
      destruct (step_wf n s i s' Hwf Hstep) as [Hwf' _].
      destruct (IH s' k q1 Hwf' Hq1) as (q' & Hq' & Heq').
      exists q'. split; [done|].
      rewrite !app_assoc, Heq, <- !app_assoc. by rewrite Heq'.
    + by apply IH.
Qed.

(** Every queue is first in, first out, and loses and duplicates nothing:
    however the nodes are scheduled, the messages that node [k] has taken
    from its queue, followed by those still in the queue, are the messages
    that were put on queue [k], in the order they were put. *)
Theorem queue_is_fifo n script sched k :
  (k < n)%nat →
  ∃ q, queues (run_sched sched (main n script)) !! k = Some q ∧
    enqueued k sched (main n script)
    = dequeued k sched (main n script) ++ q.
Proof.
  intros Hk.
  destruct (fifo_from n sched (main n script) k [] (main_wf n script))
    as (q & Hq & Heq).
  - unfold main. destruct (make_nodes n script (seq 0 n) ∅) as [nds h].
    cbn [queues]. by apply lookup_replicate.
  - by exists q.
Qed.

Lemma queue_is_fifo_witness :
  ∃ q, queues (run_sched [0; 1; 0; 1]%nat (main 2 scenario2)) !! 1%nat = Some q ∧
    enqueued 1 [0; 1; 0; 1]%nat (main 2 scenario2)
    = dequeued 1 [0; 1; 0; 1]%nat (main 2 scenario2) ++ q.
Proof. apply (queue_is_fifo 2 scenario2 [0; 1; 0; 1]%nat 1%nat). lia. Defined.

Example ex_fifo :
  let s0 := main 2 scenario2 in
  (Message.event_id <$> enqueued 1 [0; 1; 0; 1; 1]%nat s0,
   Message.event_id <$> dequeued 1 [0; 1; 0; 1; 1]%nat s0,
   Message.event_id <$> default [] (queues (run_sched [0; 1; 0; 1]%nat s0) !! 1%nat))
  = ([1; 3], [1; 3], [3]).
Proof. vm_compute. reflexivity. Qed.

(** ** FileReader *)

Lemma dec_int_show z : dec_int (dec_show z) = Some z.
Proof.
  unfold dec_int, dec_show. rewrite NilZero.isi.
  - cbn. by rewrite DecimalZ.of_to.
  - destruct z; [done| |done]. intros [= H].
    by apply Unsigned.to_uint_nonnil in H.
  - destruct z; [done|done|]. intros [= H].
    by apply Unsigned.to_uint_nonnil in H.
Qed.

Lemma read_bind_Value {A B} (m : Read A) (k : A → Read B) b :
  read_bind m k = Value b → ∃ a, m = Value a ∧ k a = Value b.
Proof. destruct m; [|done..]. intros H. by eexists. Qed.

Lemma section_row_ok int line f0 new :
  FileReader.section_row int line f0 = Value new → Forall event_ok new.
Proof.
  unfold FileReader.section_row.
  repeat case_decide; repeat case_match; try done.
  - intros (e & _ & [= <-])%read_bind_Value.
    apply Forall_singleton. by left.
  - intros (e & _ & (r & _ & [= <-])%read_bind_Value)%read_bind_Value.
    apply Forall_singleton. right; left. by split_and!.
  - intros (e & _ & (r & _ & [= <-])%read_bind_Value)%read_bind_Value.
    apply Forall_singleton. right; right. by split_and!.
  - intros [= <-]. constructor.
Qed.

Lemma events_loop_ok int id rows found acc evs :
  FileReader.events_loop int id rows found acc = Value evs →
  Forall event_ok acc → Forall event_ok evs.
Proof.
  revert found acc. induction rows as [|line rows IH]; intros found acc.
  - cbn. by intros [= <-].
  - cbn [FileReader.events_loop].
    destruct (line !! 0%nat) as [f0|]; [|done].
    destruct found; cbn [negb].
    + case_decide.
      * intros (new & Hnew & Hloop)%read_bind_Value Hacc.
        apply (IH _ _ Hloop). apply Forall_app. split; [done|].
        by eapply section_row_ok.
      * by intros [= <-].
    + case_decide.
      * intros (k & _ & Hloop)%read_bind_Value Hacc. by apply (IH _ _ Hloop).
      * intros Hloop Hacc. by apply (IH _ _ Hloop).
Qed.

Lemma events_loop_pre int id pre rows acc :
  Forall (passed_over int id) pre →
  FileReader.events_loop int id (pre ++ rows) false acc
  = FileReader.events_loop int id rows false acc.
Proof.
  induction 1 as [|line pre (f0 & Hf0 & Hhd) _ IH]; [done|].
  cbn [app FileReader.events_loop]. rewrite Hf0. cbn [negb].
  case_decide as Hh; [|done].
  destruct (Hhd Hh) as (f1 & k & Hf1 & Hk & Hne).
  unfold FileReader.int_field. rewrite Hf1, Hk. cbn [read_bind].
  by rewrite bool_decide_eq_false_2.
Qed.

Lemma events_loop_section int show id evs post acc :
  (∀ z, int (show z) = Some z) →
  Forall event_ok evs →
  (∀ line, head post = Some line → line !! 0%nat = Some "#") →
  FileReader.events_loop int id ((row_of show <$> evs) ++ post) true acc
  = Value (acc ++ evs).
Proof.
  intros Hint Hevs Hpost. revert acc.
  induction Hevs as [|ev evs Hev _ IH]; intros acc.
  - cbn [fmap list_fmap app]. rewrite app_nil_r.
    destruct post as [|line post]; [done|].
    cbn [FileReader.events_loop]. rewrite (Hpost line eq_refl).
    cbn [negb]. by case_decide.
  - rewrite fmap_cons. cbn [app FileReader.events_loop].
    destruct ev as [e ty r d].
    assert (Hrow : FileReader.section_row int
                     (row_of show (Event.mk e ty r d)) ty
                   = Value [Event.mk e ty r d]).
    { unfold FileReader.section_row, FileReader.int_field, row_of.
      destruct Hev as [(Hty & Hr & Hd)|[(Hty & [r' Hr] & Hd)|(Hty & Hr & [d' Hd])]];
        cbn in Hty, Hr, Hd; subst; cbn; by rewrite ?Hint. }
    assert (Hne : ty ≠ "#").
    { destruct Hev as [(Hty & _)|[(Hty & _)|(Hty & _)]];
        cbn in Hty; by subst. }
    assert (Hhd : row_of show (Event.mk e ty r d) !! 0%nat = Some ty) by done.
    rewrite Hhd. cbn [negb]. case_decide; [|done].
    rewrite Hrow. cbn [read_bind]. rewrite IH. by rewrite <-app_assoc.
Qed.

(** [events] returns only events of the three types that [Node.run]
    knows, each with the fields of its type and [None] in the other:
    whatever the rows of the file are, when the call returns. *)
Theorem events_builds_known_events int rows id evs :
  FileReader.events int rows id = Value evs → Forall event_ok evs.
Proof. intros H. by apply (events_loop_ok _ _ _ _ _ _ H). Qed.

Lemma events_builds_known_events_witness :
  Forall event_ok [Receive 2 3; Receive 4 1; Independent 5].
Proof.
  apply (events_builds_known_events dec_int sample_rows 1).
  vm_compute. reflexivity.
Defined.

(** A file without a section for [id] gives it the empty script, and no
    error: when every row has a first field, and every ['#'] row a
    second field that [int] reads as a number other than [id],
    [events(id)] passes over every row and returns the empty list. *)
Theorem events_without_section int rows id :
  Forall (passed_over int id) rows → FileReader.events int rows id = Value [].
Proof.
  intros H. unfold FileReader.events.
  rewrite <-(app_nil_r rows). by rewrite events_loop_pre.
Qed.

Lemma events_without_section_witness :
  FileReader.events dec_int [["n"; "2"]; ["#"; "0"]; ["s"; "1"; "1"]] 1
  = Value [].
Proof.
  apply (events_without_section dec_int).
  repeat apply Forall_cons_2; [| | |apply Forall_nil_2].
  - exists "n". split; [reflexivity|]. intros [=].
  - exists "#". split; [reflexivity|]. intros _.
    exists "0", 0. split; [reflexivity|]. split; [reflexivity|]. discriminate.
  - exists "s". split; [reflexivity|]. intros [=].
Defined.

(** Reading back what was written: when [int] reads the numerals that
    [show] writes, the section of [id], written in the format of the
    input file after rows that [events(id)] passes over and ended by
    the end of the file or the next ['#'] row, is read back as the
    events it was written from. *)
Theorem events_reads_back_section int show id pre evs post :
  (∀ z, int (show z) = Some z) →
  Forall (passed_over int id) pre →
  Forall event_ok evs →
  (∀ line, head post = Some line → line !! 0%nat = Some "#") →
  FileReader.events int
    (pre ++ ["#"; show id] :: (row_of show <$> evs) ++ post) id
  = Value evs.
Proof.
  intros Hint Hpre Hevs Hpost. unfold FileReader.events.
  rewrite events_loop_pre by done.
  cbn [FileReader.events_loop lookup list_lookup negb].
  case_decide; [|done].
  unfold FileReader.int_field. cbn [lookup list_lookup].
  rewrite Hint. cbn [read_bind]. rewrite bool_decide_eq_true_2 by done.
  by rewrite (events_loop_section int show id evs post []).
Qed.

Lemma events_reads_back_section_witness :
  FileReader.events dec_int
    ([["n"; "2"]; ["#"; "0"]; ["s"; "1"; "1"]] ++
     ["#"; dec_show 1] ::
     (row_of dec_show <$> [Receive 2 3; Independent 5]) ++ [["#"; "2"]]) 1
  = Value [Receive 2 3; Independent 5].
Proof.
  apply (events_reads_back_section dec_int dec_show 1).
  - apply dec_int_show.
  - repeat apply Forall_cons_2; [| | |apply Forall_nil_2].
    + exists "n". split; [reflexivity|]. intros [=].
    + exists "#". split; [reflexivity|]. intros _.
      exists "0", 0. split; [reflexivity|]. split; [reflexivity|]. discriminate.
    + exists "s". split; [reflexivity|]. intros [=].
  - repeat apply Forall_cons_2; [| |apply Forall_nil_2].
    + right; right. split; [reflexivity|]. split; [reflexivity|]. by eexists.
    + left. split; [reflexivity|]. split; reflexivity.
  - intros line [= <-]. reflexivity.
Defined.

(** ** From the input file to the run *)

Lemma read_scripts_ok int rows ids scripts :
  read_scripts int rows ids = Value scripts →
  Forall (Forall event_ok) scripts.
Proof.
  revert scripts. induction ids as [|i ids IH]; intros scripts.
  - cbn. intros [= <-]. constructor.
  - cbn [read_scripts].
    intros (evs & Hevs & (rest & Hrest & [= <-])%read_bind_Value)%read_bind_Value.
    constructor; [|by apply IH].
    by apply (events_loop_ok _ _ _ _ _ _ Hevs).
Qed.

Lemma program_main int rows s0 :
  program int rows = Value s0 →
  ∃ n script, s0 = main n script ∧ ∀ i, Forall event_ok (script i).
Proof.
  unfold program.
  intros (n & _ & (scripts & Hs & [= <-])%read_bind_Value)%read_bind_Value.
  eexists _, _. split; [done|]. intros i. cbn beta.
  destruct (scripts !! i) as [evs|] eqn:Hi; cbn; [|constructor].
  apply read_scripts_ok in Hs.
  by apply (proj1 (Forall_lookup _ _) Hs i evs).
Qed.

Lemma main_stdout n script : stdout (main n script) = [].
Proof. unfold main. by destruct (make_nodes n script (seq 0 n) ∅). Qed.

Lemma step_exited n s i s' :
  wf n s → step i s = Some s' → control_of i s' = Some Exited →
  ∃ nd ev rest, nodes s !! i = Some nd ∧
    Node.control nd = AtFor (ev :: rest) ∧
    Event.type ev ≠ "i" ∧ Event.type ev ≠ "r" ∧ Event.type ev ≠ "s".
Proof.
  intros Hwf Hstep Hctl.
  destruct (nodes s !! i) as [nd|] eqn:Hnd;
    [|by unfold step in Hstep; rewrite Hnd in Hstep].
  assert (Hlen : (i < length (nodes s))%nat) by (by eapply lookup_lt_Some).
  pose proof (frame_refl n nd s Hwf) as Hfr.
  destruct (Node.control nd) as [[|ev rest]|ev rest| | |e0] eqn:Hc.
  - revert Hstep. unfold step. rewrite Hnd. cbn [mbind option_bind].
    rewrite Hc. intros [= <-]. rewrite control_of_set in Hctl by done.
    discriminate.
  - exists nd, ev, rest. revert Hstep. unfold step. rewrite Hnd.
    cbn [mbind option_bind]. rewrite Hc. unfold run_event.
    destruct (decide (Event.type ev = "i")) as [Hi|Hi].
    { destruct (frame_log_inc n s i nd ev rest s Hnd Hfr)
        as (s2 & -> & _ & Hn2 & _).
      intros [= <-]. rewrite control_of_set in Hctl
        by (cbn [nodes]; by rewrite Hn2).
      discriminate. }
    destruct (decide (Event.type ev = "r")) as [Hr|Hr].
    { destruct (Node.buffered nd _).
      - destruct (frame_log_inc n s i nd ev rest s Hnd Hfr)
          as (s2 & -> & _ & Hn2 & _).
        intros [= <-]. rewrite control_of_set in Hctl
          by (cbn [nodes]; by rewrite Hn2).
        discriminate.
      - intros [= <-]. rewrite control_of_set in Hctl by done.
        discriminate. }
    destruct (decide (Event.type ev = "s")) as [Hty|Hty]; [|done].
    destruct (send nd ev s) as [e1|s1] eqn:Hsend.
    + intros [= <-]. rewrite control_of_set in Hctl by done. discriminate.
    + pose proof (frame_send n s i nd ev s s1 Hnd Hfr Hsend) as Hf1.
      destruct (frame_log_inc n s i nd ev rest s1 Hnd Hf1)
        as (s2 & -> & _ & Hn2 & _).
      intros [= <-]. rewrite control_of_set in Hctl
        by (cbn [nodes]; by rewrite Hn2).
      discriminate.
  - destruct (step_receive_own n s i nd ev rest s' Hwf Hnd Hc Hstep)
      as (a & b & _ & _ & [[Hc' _]|[Hc' _]]); congruence.
  - unfold step in Hstep. rewrite Hnd in Hstep.
    cbn [mbind option_bind] in Hstep. by rewrite Hc in Hstep.
  - unfold step in Hstep. rewrite Hnd in Hstep.
    cbn [mbind option_bind] in Hstep. by rewrite Hc in Hstep.
  - unfold step in Hstep. rewrite Hnd in Hstep.
    cbn [mbind option_bind] in Hstep. by rewrite Hc in Hstep.
Qed.

Lemma event_ok_type ev :
  event_ok ev →
  Event.type ev = "i" ∨ Event.type ev = "r" ∨ Event.type ev = "s".
Proof. intros [(? & _)|[(? & _)|(? & _)]]; auto. Qed.

Lemma known_scripts_inv n script s :
  (∀ i, Forall event_ok (script i)) → steps (main n script) s →
  (InvalidEvent ∉ stdout s) ∧
  (∀ i nd, nodes s !! i = Some nd →
     Node.control nd ≠ Exited ∧
     ∀ evs, todo (Node.control nd) = Some evs → Forall event_ok evs).
Proof.
  intros Hok Hs. induction Hs as [|j s1 s2 Hs1 [IHout IHnd] Hstep].
  - split; [rewrite main_stdout; apply not_elem_of_nil|].
    intros i nd Hnd. destruct (main_node n script i nd Hnd) as (_ & Hc & _).
    rewrite Hc. split; [done|]. cbn. by intros evs [= <-].
  - assert (Hwf : wf n s1) by (eapply steps_wf; [apply main_wf | done]).
    destruct (step_wf n s1 j s2 Hwf Hstep)
      as (_ & nd & nd0 & Hnd & Hnodes & _).
    destruct (step_stdout n s1 j s2 nd Hwf Hnd Hstep)
      as (nd' & Hnd' & _ & Hcases).
    destruct (IHnd j nd Hnd) as [Hne Htodo].
    assert (Hnot : Node.control nd' ≠ Exited).
    { intros Hex.
      destruct (step_exited n s1 j s2 Hwf Hstep) as
        (nd1 & ev & rest & Hnd1 & Hc1 & Hi & Hr & Hsd).
      { unfold control_of. rewrite Hnd'. cbn. by rewrite Hex. }
      assert (nd1 = nd) as -> by congruence.
      assert (Hev : Forall event_ok (ev :: rest))
        by (apply Htodo; by rewrite Hc1).
      apply Forall_cons_1 in Hev as [Hev _].
      destruct (event_ok_type ev Hev) as [?|[?|?]]; done. }
    split.
    + destruct Hcases as [[-> _]|[(ev & rest & c & -> & _)|[_ Hex]]];
        [done| |done].
      rewrite elem_of_app, list_elem_of_singleton.
      intros [?|?]; [done|discriminate].
    + intros i ndi Hi. destruct (decide (i = j)) as [->|Hij].
      * assert (ndi = nd') as -> by congruence.
        split; [done|]. intros evs.
        destruct Hcases as
          [[_ [[_ ->]|[(ev & rest & Hc & [->| [e ->]])|(ev & rest & Hc & ->)]]]
          |[(ev & rest & c & _ & Hc & ->)|[_ Hex]]]; cbn; try done.
        -- by intros [= <-].
        -- intros [= <-]. apply Htodo. by rewrite Hc.
        -- intros [= <-]. apply Htodo. by rewrite Hc.
        -- intros [= <-].
           assert (Hev : Forall event_ok (ev :: rest)).
           { apply Htodo. by destruct Hc as [->| ->]. }
           by apply Forall_cons_1 in Hev as [_ Hev].
      * apply (IHnd i). rewrite <-Hi, Hnodes.
        symmetry. by apply list_lookup_insert_ne.
Qed.

(** Whatever the input file is, a run of the program never prints
    ['invalid event'] and no thread ever leaves [run] through [exit()]:
    [FileReader.events] hands [Node] only events of the types that
    [run] handles. *)
Theorem program_never_reports_invalid_event int rows s0 s :
  program int rows = Value s0 → steps s0 s →
  (InvalidEvent ∉ stdout s) ∧ (∀ i, control_of i s ≠ Some Exited).
Proof.
  intros (n & script & -> & Hok)%program_main Hs.
  destruct (known_scripts_inv n script s Hok Hs) as [Hout Hnd].
  split; [done|]. intros i. unfold control_of.
  destruct (nodes s !! i) as [nd|] eqn:Hi; [|done].
  cbn. intros [= Hex]. by destruct (Hnd i nd Hi) as [? _].
Qed.

Lemma program_never_reports_invalid_event_witness :
  let s0 := main 2 (λ i, default []
              ([[Send 1 1; Send 3 1];
                [Receive 2 3; Receive 4 1; Independent 5]] !! i)) in
  let s := run_sched [0; 1; 1]%nat s0 in
  (InvalidEvent ∉ stdout s) ∧ (∀ i, control_of i s ≠ Some Exited).
Proof.
  intros s0 s.
  apply (program_never_reports_invalid_event dec_int
           (sample_rows ++ [["x"; "9"]]) s0 s).
  - vm_compute. reflexivity.
  - apply run_sched_steps. constructor.
Defined.

Lemma events_loop_index_error int id rows found acc :
  FileReader.events_loop int id rows found acc = Fails ReadIndexError →
  ∃ line, line ∈ rows ∧ (line = [] ∨ line = ["#"]).
Proof.
  revert found acc.
  induction rows as [|line rows IH]; intros found acc; [done|].
  cbn [FileReader.events_loop].
  destruct line as [|f0 line].
  { intros _. exists []. split; [apply list_elem_of_here | by left]. }
  cbn [lookup list_lookup].
  assert (Hrec : ∀ found' acc',
    FileReader.events_loop int id rows found' acc' = Fails ReadIndexError →
    ∃ l, l ∈ (f0 :: line) :: rows ∧ (l = [] ∨ l = ["#"])).
  { intros found' acc' H. destruct (IH found' acc' H) as (l & Hl & Hs).
    exists l. split; [by apply list_elem_of_further | done]. }
  destruct found; cbn [negb].
  - case_decide as Hh; [|done].
    unfold FileReader.section_row, FileReader.validate,
      FileReader.int_field.
    destruct line as [|f1 [|f2 line]]; cbn [lookup list_lookup length];
      repeat case_decide; repeat case_bool_decide;
      try (cbn in *; lia); cbn [read_bind];
      repeat (destruct (int _); cbn [read_bind]);
      try done; apply Hrec.
  - case_decide as Hh.
    + unfold FileReader.int_field. destruct line as [|f1 line].
      { intros _. exists [f0]. split; [apply list_elem_of_here|].
        right. by rewrite Hh. }
      cbn [lookup list_lookup]. destruct (int f1); cbn [read_bind];
        [apply Hrec | done].
    + apply Hrec.
Qed.

(** [nodes] and [events] raise [IndexError] only if the file has a row
    without fields or a row that is just ['#']: the rows whose fields
    are read without a call of [validate] before. *)
Theorem index_error_only_before_validate int rows id :
  FileReader.nodes int rows = Fails ReadIndexError ∨
  FileReader.events int rows id = Fails ReadIndexError →
  ∃ line, line ∈ rows ∧ (line = [] ∨ line = ["#"]).
Proof.
  intros [Hn|He].
  - destruct rows as [|n rows]; [done|]. exists n.
    split; [apply list_elem_of_here|]. revert Hn. cbn [FileReader.nodes].
    destruct n as [|f0 n]; [by left|]. cbn [lookup list_lookup].
    case_decide; [|done]. unfold FileReader.validate, FileReader.int_field.
    case_bool_decide as Hlen; [|done].
    destruct n as [|f1 n]; [cbn in Hlen; lia|]. cbn [lookup list_lookup].
    by destruct (int f1).
  - by apply (events_loop_index_error int id rows false []).
Qed.

Lemma index_error_only_before_validate_witness :
  ∃ line, line ∈ sample_rows ++ [["#"]] ∧ (line = [] ∨ line = ["#"]).
Proof.
  apply (index_error_only_before_validate dec_int (sample_rows ++ [["#"]]) 5).
  right. vm_compute. reflexivity.
Defined.

Lemma read_scripts_lookup int rows ids scripts :
  read_scripts int rows ids = Value scripts →
  ∀ k i, ids !! k = Some i →
    ∃ evs, scripts !! k = Some evs ∧
      FileReader.events int rows (Z.of_nat i) = Value evs.
Proof.
  revert scripts. induction ids as [|i0 ids IH]; intros scripts.
  - intros _ k i Hk. by rewrite lookup_nil in Hk.
  - cbn [read_scripts].
    intros (evs & Hevs & (rest & Hrest & [= <-])%read_bind_Value)%read_bind_Value.
    intros [|k] i Hk.
    + injection Hk as <-. by exists evs.
    + by apply (IH rest Hrest k i).
Qed.

(** The state in which the threads are started: as many nodes and
    queues as the first row of the file says; every queue empty and
    nothing printed; node [i] at the start of the events of its own
    section, with a clock of [n] zeros and an empty buffer. *)
Theorem program_initial_state int rows s0 :
  program int rows = Value s0 →
  ∃ n, FileReader.nodes int rows = Value n ∧
    length (nodes s0) = Z.to_nat n ∧
    queues s0 = replicate (Z.to_nat n) [] ∧ stdout s0 = [] ∧
    ∀ i, (i < Z.to_nat n)%nat →
      ∃ evs, FileReader.events int rows (Z.of_nat i) = Value evs ∧
        control_of i s0 = Some (AtFor evs) ∧
        buffer_of i s0 = Some [] ∧
        clock_of i s0 = Some (replicate (Z.to_nat n) 0).
Proof.
  unfold program.
  intros (n & Hn & (scripts & Hs & [= <-])%read_bind_Value)%read_bind_Value.
  exists n. split; [done|].
  set (script := λ i : nat, default [] (scripts !! i)).
  pose proof (main_wf (Z.to_nat n) script) as Hwf.
  split; [apply (wf_nodes _ _ Hwf)|].
  split; [unfold main; by destruct (make_nodes _ _ _ _)|].
  split; [apply main_stdout|].
  intros i Hi.
  destruct (read_scripts_lookup _ _ _ _ Hs i i) as (evs & Hevs & Hread).
  { by apply lookup_seq_lt. }
  exists evs. split; [done|].
  destruct (lookup_lt_is_Some_2 (nodes (main (Z.to_nat n) script)) i)
    as [nd Hnd]; [by rewrite (wf_nodes _ _ Hwf)|].
  destruct (main_node _ _ _ _ Hnd) as (Hbuf & Hctl & Hheap).
  unfold control_of, buffer_of, clock_of. rewrite Hnd. cbn [fmap option_fmap option_map].
  rewrite Hctl, Hbuf. unfold script at 1. rewrite Hevs. cbn [default].
  split_and!; [done..|]. f_equal.
  unfold VectorClock.values. fold (node_loc nd). by apply deref_Some.
Qed.

Lemma program_initial_state_witness :
  let s0 := main 2 (λ i, default []
              ([[Send 1 1; Send 3 1];
                [Receive 2 3; Receive 4 1; Independent 5]] !! i)) in
  ∃ n, FileReader.nodes dec_int sample_rows = Value n ∧
    length (nodes s0) = Z.to_nat n ∧
    queues s0 = replicate (Z.to_nat n) [] ∧ stdout s0 = [] ∧
    ∀ i, (i < Z.to_nat n)%nat →
      ∃ evs, FileReader.events dec_int sample_rows (Z.of_nat i) = Value evs ∧
        control_of i s0 = Some (AtFor evs) ∧
        buffer_of i s0 = Some [] ∧
        clock_of i s0 = Some (replicate (Z.to_nat n) 0).
Proof.
  intros s0. apply (program_initial_state dec_int sample_rows s0).
  vm_compute. reflexivity.
Defined.

(** ** Rows of an unknown type *)







(** ** A short row inside a section *)

(** Inside the section of [id], after rows that were read as events, a
    row of type ['i'] with fewer than two fields, or of type ['s'] or
    ['r'] with fewer than three, makes [validate] print its message and
    exit: [events(id)] neither returns nor raises [IndexError]. *)
Theorem short_row_in_section_exits int show id pre evs line post f0 :
  (∀ z, int (show z) = Some z) →
  Forall (passed_over int id) pre →
  Forall event_ok evs →
  line !! 0%nat = Some f0 →
  (f0 = "i" ∧ (length line < 2)%nat) ∨
  ((f0 = "s" ∨ f0 = "r") ∧ (length line < 3)%nat) →
  FileReader.events int
    (pre ++ ["#"; show id] :: (row_of show <$> evs) ++ line :: post) id
  = SysExit.
Proof.
  intros Hint Hpre Hevs Hf0 Hshort. unfold FileReader.events.
  rewrite events_loop_pre by done.
  cbn [FileReader.events_loop lookup list_lookup negb].
  rewrite decide_True by done.
  unfold FileReader.int_field at 1. cbn [lookup list_lookup].
  rewrite Hint. cbn [read_bind]. rewrite bool_decide_eq_true_2 by done.
  generalize (@nil Event.t). induction Hevs as [|ev evs Hev _ IH]; intros acc.
  - cbn [fmap list_fmap app FileReader.events_loop]. rewrite Hf0.
    cbn [negb].
    assert (Hne : f0 ≠ "#").
    { destruct Hshort as [[-> _]|[[->| ->] _]]; done. }
    rewrite decide_True by done.
    unfold FileReader.section_row, FileReader.validate.
    destruct Hshort as [[-> Hlen]|[[->| ->] Hlen]].
    + rewrite decide_True by done.
      by rewrite bool_decide_eq_false_2 by lia.
    + rewrite decide_False by done. rewrite decide_True by done.
      by rewrite bool_decide_eq_false_2 by lia.
    + rewrite !decide_False by done. rewrite decide_True by done.
      by rewrite bool_decide_eq_false_2 by lia.
  - rewrite fmap_cons. cbn [app FileReader.events_loop].
    destruct ev as [e ty r d].
    assert (Hrow : FileReader.section_row int
                     (row_of show (Event.mk e ty r d)) ty
                   = Value [Event.mk e ty r d]).
    { unfold FileReader.section_row, FileReader.int_field, row_of.
      destruct Hev as [(Hty & Hr & Hd)|[(Hty & [r' Hr] & Hd)|(Hty & Hr & [d' Hd])]];
        cbn in Hty, Hr, Hd; subst; cbn; by rewrite ?Hint. }
    assert (Hne : ty ≠ "#").
    { destruct Hev as [(Hty & _)|[(Hty & _)|(Hty & _)]];
        cbn in Hty; by subst. }
    assert (Hhd : row_of show (Event.mk e ty r d) !! 0%nat = Some ty) by done.
    rewrite Hhd. cbn [negb]. rewrite decide_True by done.
    rewrite Hrow. cbn [read_bind]. apply IH.
Qed.

Lemma short_row_in_section_exits_witness :
  FileReader.events dec_int
    ([["n"; "2"]; ["#"; "0"]; ["s"; "1"; "1"]] ++
     ["#"; dec_show 1] ::
     (row_of dec_show <$> [Receive 2 3; Independent 5]) ++
     ["s"; "7"] :: [["i"; "8"]]) 1
  = SysExit.
Proof.
  apply (short_row_in_section_exits dec_int dec_show 1 _ _ _ _ "s").
  - apply dec_int_show.
  - repeat apply Forall_cons_2; [| | |apply Forall_nil_2].
    + exists "n". split; [reflexivity|]. intros [=].
    + exists "#". split; [reflexivity|]. intros _.
      exists "0", 0. split; [reflexivity|]. split; [reflexivity|]. discriminate.
    + exists "s". split; [reflexivity|]. intros [=].
  - repeat apply Forall_cons_2; [| |apply Forall_nil_2].
    + right; right. split; [reflexivity|]. split; [reflexivity|]. by eexists.
    + left. split; [reflexivity|]. split; reflexivity.
  - reflexivity.
  - right. split; [by left|]. cbn. lia.
Defined.
